(** * Accessibility audit scripts: a shallow embedding and its properties

    The two scripts [scripts/audit-mobile-accessibility.py] and
    [scripts/audit-web-aria.py] scan component sources with regular
    expressions and report the elements that lack accessibility
    attributes.

    The embedding:
    - [Re]: the fragment of Python's [re] that the scripts use, as a
      backtracking matcher over lists of code points, with [re.search],
      [re.finditer] and [re.sub];
    - [Py]: the string operations of Python that the scripts call;
    - [find_component_files]: the enumeration of the component files,
      as [os.walk] over a tree of directories;
    - [Mobile] and [Web]: the patterns and the loops of the two
      [audit_file] functions, [main] from the enumeration of the files
      to the results, and the compliance rate of [generate_report].
    The text of the report and what [main] prints and writes are
    outside; reading a file is a function from paths to contents.

    The properties:
    - the matcher against a relation that says what a pattern matches,
      and what the attribute tests and the tag patterns find;
    - one section per claim of the specification, C1 to C10;
    - further properties of the scripts, X1 to X21: the enumeration,
      what every violation carries, the results, the compliance rate,
      the remaining rules and the occurrences. *)

From Stdlib Require Import List NArith Arith Bool String Ascii Lia Sorted.
From Stdlib Require Import ZArith QArith Qpower Qabs Qround Qreduction Lqa.
From Stdlib Require Import SpecFloat.
Import ListNotations.

Close Scope Q_scope.
Open Scope string_scope.
Open Scope nat_scope.
Open Scope list_scope.

Set Implicit Arguments.

(** ** Text *)

(** A Python [str] is a sequence of Unicode code points. *)
Definition char := N.
Definition text := list char.

Definition ch (a : ascii) : char := N_of_ascii a.

(** [str s] is the text of an ASCII literal of the scripts. *)
Definition str (s : string) : text := List.map ch (list_ascii_of_string s).

Definition dquote : char := 34%N.
Definition squote : char := 39%N.
Definition newline : char := 10%N.

(** [dq s] is [s] between double quotes, [sq s] between single quotes. *)
Definition dq (s : string) : text := dquote :: str s ++ [dquote].
Definition sq (s : string) : text := squote :: str s ++ [squote].

Definition text_eqb (a b : text) : bool :=
  if list_eq_dec N.eq_dec a b then true else false.

(** ** The regular expressions of the scripts *)

Module Re.

(** The flags the scripts pass: [re.IGNORECASE] and [re.DOTALL]. *)
Record flags := Flags { icase : bool; dotall : bool }.

Definition NOFLAG : flags := Flags false false.
Definition IGNORECASE : flags := Flags true false.
Definition IGNORECASE_DOTALL : flags := Flags true true.

(** An element of a bracket expression. *)
Inductive item :=
| One (c : char)
| Range (lo hi : char).

(** What matches one character. *)
Inductive atom :=
| Chr (c : char)                       (* a literal *)
| Dot                                  (* [.] *)
| Space                                (* [\s] *)
| Class (negated : bool) (its : list item).  (* [[...]] and [[^...]] *)

(** The patterns: every repetition of the scripts is over one atom. *)
Inductive regex :=
| Empty
| Atom (a : atom)
| Seq (r1 r2 : regex)
| Alt (r1 r2 : regex)
| Rep (a : atom) (least : nat) (greedy : bool)  (* [a*] [a*?] [a+] [a{n,}] *)
| Group (n : nat) (r : regex).

(** A literal string, and what [re.escape] of a text matches. *)
Fixpoint lits (t : text) : regex :=
  match t with
  | [] => Empty
  | c :: t' => Seq (Atom (Chr c)) (lits t')
  end.

Definition lit (s : string) : regex := lits (str s).
Definition escape (t : text) : regex := lits t.

Definition star (a : atom) : regex := Rep a 0 true.
Definition lazy_star (a : atom) : regex := Rep a 0 false.
Definition plus (a : atom) : regex := Rep a 1 true.
Definition not_char (a : ascii) : atom := Class true [One (ch a)].
Definition quote : atom := Class false [One dquote; One squote].
Definition not_quote : atom := Class true [One dquote; One squote].

(** *** Characters *)

(** [\s] on [str] patterns, and [str.isspace]: [Py_UNICODE_ISSPACE]. *)
Definition isspace (c : char) : bool :=
  ((9 <=? c) && (c <=? 13) || (28 <=? c) && (c <=? 32)
   || (c =? 133) || (c =? 160) || (c =? 5760)
   || (8192 <=? c) && (c <=? 8202)
   || (c =? 8232) || (c =? 8233) || (c =? 8239) || (c =? 8287)
   || (c =? 12288))%N.

(** Case under [re.IGNORECASE], on [str] patterns.  [sre] takes the
    lower case of the subject character and compares it with the lower
    case of the pattern character and with the extra cases of that
    lower case.  The lower case is [Py_UNICODE_TOLOWER], the simple
    mapping of the Unicode database (version 14.0, that of CPython
    3.11); the extra cases are those of [re._casefix].  A pattern
    character without case is compared as it is: it is the lower case
    of no other character and has no extra case. *)

(** The lower case mapping, in runs: [(first, count, step, target)]
    sends [first + i * step] to [target + i * step] for [i < count]. *)
Definition lower_runs : list (char * N * N * char) :=
  [
   (65, 26, 1, 97); (192, 23, 1, 224); (216, 7, 1, 248); (256, 24, 2, 257);
   (304, 1, 1, 105); (306, 3, 2, 307); (313, 8, 2, 314); (330, 23, 2, 331);
   (376, 1, 1, 255); (377, 3, 2, 378); (385, 1, 1, 595); (386, 2, 2, 387);
   (390, 1, 1, 596); (391, 1, 1, 392); (393, 2, 1, 598); (395, 1, 1, 396);
   (398, 1, 1, 477); (399, 1, 1, 601); (400, 1, 1, 603); (401, 1, 1, 402);
   (403, 1, 1, 608); (404, 1, 1, 611); (406, 1, 1, 617); (407, 1, 1, 616);
   (408, 1, 1, 409); (412, 1, 1, 623); (413, 1, 1, 626); (415, 1, 1, 629);
   (416, 3, 2, 417); (422, 1, 1, 640); (423, 1, 1, 424); (425, 1, 1, 643);
   (428, 1, 1, 429); (430, 1, 1, 648); (431, 1, 1, 432); (433, 2, 1, 650);
   (435, 2, 2, 436); (439, 1, 1, 658); (440, 1, 1, 441); (444, 1, 1, 445);
   (452, 1, 1, 454); (453, 1, 1, 454); (455, 1, 1, 457); (456, 1, 1, 457);
   (458, 1, 1, 460); (459, 9, 2, 460); (478, 9, 2, 479); (497, 1, 1, 499);
   (498, 2, 2, 499); (502, 1, 1, 405); (503, 1, 1, 447); (504, 20, 2, 505);
   (544, 1, 1, 414); (546, 9, 2, 547); (570, 1, 1, 11365);
   (571, 1, 1, 572); (573, 1, 1, 410); (574, 1, 1, 11366);
   (577, 1, 1, 578); (579, 1, 1, 384); (580, 1, 1, 649); (581, 1, 1, 652);
   (582, 5, 2, 583); (880, 2, 2, 881); (886, 1, 1, 887); (895, 1, 1, 1011);
   (902, 1, 1, 940); (904, 3, 1, 941); (908, 1, 1, 972); (910, 2, 1, 973);
   (913, 17, 1, 945); (931, 9, 1, 963); (975, 1, 1, 983);
   (984, 12, 2, 985); (1012, 1, 1, 952); (1015, 1, 1, 1016);
   (1017, 1, 1, 1010); (1018, 1, 1, 1019); (1021, 3, 1, 891);
   (1024, 16, 1, 1104); (1040, 32, 1, 1072); (1120, 17, 2, 1121);
   (1162, 27, 2, 1163); (1216, 1, 1, 1231); (1217, 7, 2, 1218);
   (1232, 48, 2, 1233); (1329, 38, 1, 1377); (4256, 38, 1, 11520);
   (4295, 1, 1, 11559); (4301, 1, 1, 11565); (5024, 80, 1, 43888);
   (5104, 6, 1, 5112); (7312, 43, 1, 4304); (7357, 3, 1, 4349);
   (7680, 75, 2, 7681); (7838, 1, 1, 223); (7840, 48, 2, 7841);
   (7944, 8, 1, 7936); (7960, 6, 1, 7952); (7976, 8, 1, 7968);
   (7992, 8, 1, 7984); (8008, 6, 1, 8000); (8025, 4, 2, 8017);
   (8040, 8, 1, 8032); (8072, 8, 1, 8064); (8088, 8, 1, 8080);
   (8104, 8, 1, 8096); (8120, 2, 1, 8112); (8122, 2, 1, 8048);
   (8124, 1, 1, 8115); (8136, 4, 1, 8050); (8140, 1, 1, 8131);
   (8152, 2, 1, 8144); (8154, 2, 1, 8054); (8168, 2, 1, 8160);
   (8170, 2, 1, 8058); (8172, 1, 1, 8165); (8184, 2, 1, 8056);
   (8186, 2, 1, 8060); (8188, 1, 1, 8179); (8486, 1, 1, 969);
   (8490, 1, 1, 107); (8491, 1, 1, 229); (8498, 1, 1, 8526);
   (8544, 16, 1, 8560); (8579, 1, 1, 8580); (9398, 26, 1, 9424);
   (11264, 48, 1, 11312); (11360, 1, 1, 11361); (11362, 1, 1, 619);
   (11363, 1, 1, 7549); (11364, 1, 1, 637); (11367, 3, 2, 11368);
   (11373, 1, 1, 593); (11374, 1, 1, 625); (11375, 1, 1, 592);
   (11376, 1, 1, 594); (11378, 1, 1, 11379); (11381, 1, 1, 11382);
   (11390, 2, 1, 575); (11392, 50, 2, 11393); (11499, 2, 2, 11500);
   (11506, 1, 1, 11507); (42560, 23, 2, 42561); (42624, 14, 2, 42625);
   (42786, 7, 2, 42787); (42802, 31, 2, 42803); (42873, 2, 2, 42874);
   (42877, 1, 1, 7545); (42878, 5, 2, 42879); (42891, 1, 1, 42892);
   (42893, 1, 1, 613); (42896, 2, 2, 42897); (42902, 10, 2, 42903);
   (42922, 1, 1, 614); (42923, 1, 1, 604); (42924, 1, 1, 609);
   (42925, 1, 1, 620); (42926, 1, 1, 618); (42928, 1, 1, 670);
   (42929, 1, 1, 647); (42930, 1, 1, 669); (42931, 1, 1, 43859);
   (42932, 8, 2, 42933); (42948, 1, 1, 42900); (42949, 1, 1, 642);
   (42950, 1, 1, 7566); (42951, 2, 2, 42952); (42960, 1, 1, 42961);
   (42966, 2, 2, 42967); (42997, 1, 1, 42998); (65313, 26, 1, 65345);
   (66560, 40, 1, 66600); (66736, 36, 1, 66776); (66928, 11, 1, 66967);
   (66940, 15, 1, 66979); (66956, 7, 1, 66995); (66964, 2, 1, 67003);
   (68736, 51, 1, 68800); (71840, 32, 1, 71872); (93760, 32, 1, 93792);
   (125184, 34, 1, 125218)
  ]%N.

Definition in_run (c : char) (r : char * N * N * char) : option char :=
  let '(first, count, step, target) := r in
  if ((first <=? c) && (c <? first + count * step)
      && ((c - first) mod step =? 0))%N
  then Some (target + (c - first))%N
  else None.

Fixpoint lookup_runs (c : char) (rs : list (char * N * N * char))
  : option char :=
  match rs with
  | [] => None
  | r :: rs' =>
      match in_run c r with
      | Some t => Some t
      | None => lookup_runs c rs'
      end
  end.

Definition tolower (c : char) : char :=
  match lookup_runs c lower_runs with
  | Some t => t
  | None => c
  end.

(** The classes of lower case characters that [re._casefix] takes for
    one another, the least member first. *)
Definition extra_cases : list (list char) :=
  [
   [105; 305]; [115; 383]; [181; 956]; [837; 953; 8126]; [912; 8147];
   [944; 8163]; [946; 976]; [949; 1013]; [952; 977]; [954; 1008];
   [960; 982]; [961; 1009]; [962; 963]; [966; 981]; [1074; 7296];
   [1076; 7297]; [1086; 7298]; [1089; 7299]; [1090; 7300; 7301];
   [1098; 7302]; [1123; 7303]; [7304; 42571]; [7777; 7835]; [64261; 64262]
  ]%N.

(** The least member of the class of extra cases of a lower case
    character, the character itself when it has none. *)
Definition least_case (l : char) : char :=
  match find (existsb (N.eqb l)) extra_cases with
  | Some (least :: _) => least
  | _ => l
  end.

(** The representative of a character up to case. *)
Definition fold (c : char) : char := least_case (tolower c).

Definition char_eqb (fl : flags) (c p : char) : bool :=
  if icase fl then (fold c =? fold p)%N else (c =? p)%N.

Definition in_range (lo hi c : char) : bool := ((lo <=? c) && (c <=? hi))%N.

(** The code points from [lo] to [hi]. *)
Definition enum (lo hi : char) : list char :=
  List.map N.of_nat (seq (N.to_nat lo) (N.to_nat hi + 1 - N.to_nat lo)).

(** Under [re.IGNORECASE] a range stands for the set of its members,
    each compared as a literal is. *)
Definition item_match (fl : flags) (i : item) (c : char) : bool :=
  match i with
  | One p => char_eqb fl c p
  | Range lo hi =>
      if icase fl then existsb (fun p => char_eqb fl c p) (enum lo hi)
      else in_range lo hi c
  end.

Definition atom_match (fl : flags) (a : atom) (c : char) : bool :=
  match a with
  | Chr p => char_eqb fl c p
  | Dot => dotall fl || negb (c =? newline)%N
  | Space => isspace c
  | Class neg its => xorb neg (existsb (fun i => item_match fl i c) its)
  end.

(** *** The matcher *)

(** The spans of the groups matched so far, the latest first. *)
Definition caps := list (nat * (nat * nat)).

Fixpoint lookup (n : nat) (cs : caps) : option (nat * nat) :=
  match cs with
  | [] => None
  | (k, sp) :: cs' => if Nat.eqb k n then Some sp else lookup n cs'
  end.

Record Match := MkMatch { m_start : nat; m_end : nat; m_caps : caps }.

Section Matcher.
Variable fl : flags.
Variable R : Type.

(** [s] is what is left of the subject and [pos] its offset: the
    continuation receives both after the match of a sub-pattern, and a
    [None] makes the matcher backtrack to the next alternative. *)
Definition cont := text -> nat -> caps -> option R.

Fixpoint exactly (n : nat) (a : atom) (k : text -> nat -> option R)
         (s : text) (pos : nat) : option R :=
  match n with
  | O => k s pos
  | S n' =>
      match s with
      | c :: s' => if atom_match fl a c then exactly n' a k s' (S pos) else None
      | [] => None
      end
  end.

(** Greedy: take one more character first, give it back on failure. *)
Fixpoint greedy (a : atom) (k : text -> nat -> option R)
         (s : text) (pos : nat) : option R :=
  match s with
  | c :: s' =>
      if atom_match fl a c then
        match greedy a k s' (S pos) with
        | Some r => Some r
        | None => k s pos
        end
      else k s pos
  | [] => k s pos
  end.

(** Lazy: try the rest first, take one more character on failure. *)
Fixpoint lazy (a : atom) (k : text -> nat -> option R)
         (s : text) (pos : nat) : option R :=
  match k s pos with
  | Some r => Some r
  | None =>
      match s with
      | c :: s' => if atom_match fl a c then lazy a k s' (S pos) else None
      | [] => None
      end
  end.

Fixpoint run (r : regex) (s : text) (pos : nat) (cs : caps) (k : cont)
  : option R :=
  match r with
  | Empty => k s pos cs
  | Atom a =>
      match s with
      | c :: s' => if atom_match fl a c then k s' (S pos) cs else None
      | [] => None
      end
  | Seq r1 r2 => run r1 s pos cs (fun s' p' cs' => run r2 s' p' cs' k)
  | Alt r1 r2 =>
      match run r1 s pos cs k with
      | Some x => Some x
      | None => run r2 s pos cs k
      end
  | Rep a least g =>
      exactly least a
        (fun s' p' => (if g then greedy else lazy) a
                        (fun s'' p'' => k s'' p'' cs) s' p')
        s pos
  | Group n r' =>
      run r' s pos cs (fun s' p' cs' => k s' p' ((n, (pos, p')) :: cs'))
  end.
End Matcher.

(** The match of [r] that starts at the head of [s], which is at offset
    [pos] of the subject. *)
Definition match_here (fl : flags) (r : regex) (s : text) (pos : nat)
  : option Match :=
  run fl r s pos [] (fun _ e cs => Some (MkMatch pos e cs)).

(** [re.search]: the match at the leftmost offset that has one. *)
Fixpoint search_from (fl : flags) (r : regex) (s : text) (pos : nat)
  : option Match :=
  match match_here fl r s pos with
  | Some m => Some m
  | None =>
      match s with
      | [] => None
      | _ :: s' => search_from fl r s' (S pos)
      end
  end.

Definition search (fl : flags) (r : regex) (s : text) : option Match :=
  search_from fl r s 0.

(** A search used as a condition. *)
Definition found (fl : flags) (r : regex) (s : text) : bool :=
  match search fl r s with Some _ => true | None => false end.

(** [re.finditer]: the matches from left to right, each search resuming
    where the previous match ended; [skip] counts the characters of the
    previous match still to pass.  After an empty match the search
    resumes one character further (the scripts' patterns all start with
    a literal and never match the empty string). *)
Fixpoint finditer_from (fl : flags) (r : regex) (s : text) (pos skip : nat)
  : list Match :=
  match s with
  | [] =>
      match skip with
      | O => match match_here fl r [] pos with Some m => [m] | None => [] end
      | S _ => []
      end
  | _ :: s' =>
      match skip with
      | S k => finditer_from fl r s' (S pos) k
      | O =>
          match match_here fl r s pos with
          | Some m => m :: finditer_from fl r s' (S pos) (m_end m - pos - 1)
          | None => finditer_from fl r s' (S pos) 0
          end
      end
  end.

Definition finditer (fl : flags) (r : regex) (s : text) : list Match :=
  finditer_from fl r s 0 0.

(** [re.sub] with a replacement that has no group reference. *)
Fixpoint sub_from (fl : flags) (r : regex) (repl : text) (s : text)
         (pos skip : nat) : text :=
  match s with
  | [] =>
      match skip with
      | O => match match_here fl r [] pos with Some _ => repl | None => [] end
      | S _ => []
      end
  | c :: s' =>
      match skip with
      | S k => sub_from fl r repl s' (S pos) k
      | O =>
          match match_here fl r s pos with
          | Some m =>
              match m_end m - pos with
              | O => repl ++ c :: sub_from fl r repl s' (S pos) 0
              | S k => repl ++ sub_from fl r repl s' (S pos) k
              end
          | None => c :: sub_from fl r repl s' (S pos) 0
          end
      end
  end.

Definition sub (fl : flags) (r : regex) (repl s : text) : text :=
  sub_from fl r repl s 0 0.

(** [s[a:b]] for [0 <= a <= b]. *)
Definition slice (s : text) (a b : nat) : text := firstn (b - a) (skipn a s).

(** [m.start()], [m.group(0)] and [m.group(n)] on the subject [s]. *)
Definition group0 (s : text) (m : Match) : text :=
  slice s (m_start m) (m_end m).

Definition group (s : text) (n : nat) (m : Match) : option text :=
  match lookup n (m_caps m) with
  | Some (a, b) => Some (slice s a b)
  | None => None
  end.

(** [m.group(n) or '']. *)
Definition group_or_empty (s : text) (n : nat) (m : Match) : text :=
  match group s n m with Some t => t | None => [] end.

End Re.

Declare Scope re_scope.
Delimit Scope re_scope with re.
Bind Scope re_scope with Re.regex.
Infix "+++" := Re.Seq (at level 60, right associativity) : re_scope.
Infix "<|>" := Re.Alt (at level 70, right associativity) : re_scope.

(** ** The floats of Python

    A [float] is an IEEE 754 double.  A finite one is given by its sign
    and its magnitude, an exact rational; an operation rounds its exact
    result to the nearest double, to the one with an even mantissa when
    two are as near. *)

Module Float.

Definition emin : Z := -1074.
Definition emax : Z := 1024.

(** The integer [l] with [2^l <= x < 2^(l+1)], for [x > 0]. *)
Definition floor_log2 (x : Q) : Z :=
  let k := (Z.log2 (Qnum x) - Z.log2 (Zpos (Qden x)))%Z in
  if Qle_bool (2 ^ k) x then k else (k - 1)%Z.

(** The exponent of the last bit of the doubles around [x]: 53 bits
    from the leading one, and no lower than the subnormal step. *)
Definition ulp_exponent (x : Q) : Z := Z.max (floor_log2 x - 52) emin.

(** The nearest integer, the even one of two that are as near. *)
Definition round_half_even (y : Q) : Z :=
  let f := Qfloor y in
  match (y - inject_Z f ?= 1 # 2)%Q with
  | Lt => f
  | Gt => (f + 1)%Z
  | Eq => if Z.even f then f else (f + 1)%Z
  end.

(** The double nearest to [x >= 0], were the exponent unbounded
    above. *)
Definition round_ne (x : Q) : Q :=
  let x := Qred x in
  if Qle_bool x 0 then 0%Q
  else
    let e := ulp_exponent x in
    Qred (inject_Z (round_half_even (x / 2 ^ e)) * 2 ^ e).

Inductive float :=
| Finite (negative : bool) (magnitude : Q)
| Infinite (negative : bool)
| NaN.

(** The double for an exact result of magnitude [x]. *)
Definition of_exact (negative : bool) (x : Q) : float :=
  let r := round_ne x in
  if Qle_bool (2 ^ emax) r then Infinite negative else Finite negative r.

Definition mul (x y : float) : float :=
  match x, y with
  | NaN, _ | _, NaN => NaN
  | Infinite s, Infinite s' => Infinite (xorb s s')
  | Infinite s, Finite s' m | Finite s' m, Infinite s =>
      if Qeq_bool m 0 then NaN else Infinite (xorb s s')
  | Finite s m, Finite s' m' => of_exact (xorb s s') (m * m')
  end.

Definition value (x : float) : option Q :=
  match x with
  | Finite s m => Some (if s then - m else m)%Q
  | _ => None
  end.

End Float.

(** ** The string operations of Python the scripts call *)

Module Py.

(** [s.count(c)] for a one-character [c]. *)
Fixpoint count (c : char) (s : text) : nat :=
  match s with
  | [] => 0
  | x :: s' => (if N.eqb x c then 1 else 0) + count c s'
  end.

(** [s.split(c)] for a one-character [c]: never an empty list. *)
Fixpoint split (c : char) (s : text) : list text :=
  match s with
  | [] => [[]]
  | x :: s' =>
      if N.eqb x c then [] :: split c s'
      else match split c s' with
           | l :: ls => (x :: l) :: ls
           | [] => [[x]]
           end
  end.

(** [sep.join(l)]. *)
Fixpoint join (sep : text) (l : list text) : text :=
  match l with
  | [] => []
  | [x] => x
  | x :: l' => x ++ sep ++ join sep l'
  end.

(** [l[a:b]] for [0 <= a]. *)
Definition slice {A : Type} (l : list A) (a b : nat) : list A :=
  firstn (b - a) (skipn a l).

Fixpoint lstrip (s : text) : text :=
  match s with
  | c :: s' => if Re.isspace c then lstrip s' else s
  | [] => []
  end.

Definition rstrip (s : text) : text := rev (lstrip (rev s)).

(** [s.strip()]. *)
Definition strip (s : text) : text := rstrip (lstrip s).

Fixpoint startswith (p s : text) : bool :=
  match p, s with
  | [], _ => true
  | a :: p', b :: s' => N.eqb a b && startswith p' s'
  | _ :: _, [] => false
  end.

(** [p in s]. *)
Fixpoint contains (p s : text) : bool :=
  startswith p s ||
  match s with
  | [] => false
  | _ :: s' => contains p s'
  end.

(** [s.endswith(suffix)]. *)
Definition endswith (suffix s : text) : bool :=
  startswith (rev suffix) (rev s).

(** [os.path.join(a, b)] of [posixpath]. *)
Definition path_join (a b : text) : text :=
  if startswith [ch "/"] b then b
  else match a with
       | [] => b
       | _ :: _ => if endswith [ch "/"] a then a ++ b else a ++ ch "/" :: b
       end.

(** An exception that the scripts do not catch. *)
Inductive exn := ZeroDivisionError | OverflowError.

Inductive outcome (A : Type) := Returns (a : A) | Raises (e : exn).
Arguments Raises {A} e.

(** A number is an [int] or a [float]. *)
Inductive number := PyInt (z : Z) | PyFloat (x : Float.float).

(** [sys.maxsize], which no [len] exceeds. *)
Definition maxsize : Z := 2 ^ 63 - 1.

(** An [int] operand of a float operation, converted as [float(z)]
    does. *)
Definition float_of_int (z : Z) : Float.float :=
  Float.of_exact (z <? 0)%Z (Qabs (inject_Z z)).

(** [a / b] on two [int]s: the quotient rounded once, to the nearest
    double. *)
Definition truediv (a b : Z) : outcome Float.float :=
  if (b =? 0)%Z then Raises ZeroDivisionError
  else
    match Float.of_exact (xorb (a <? 0)%Z (b <? 0)%Z)
            (Qabs (inject_Z a / inject_Z b)) with
    | Float.Infinite _ => Raises OverflowError
    | x => Returns x
    end.

(** The value of a number, when it is finite. *)
Definition value (n : number) : option Q :=
  match n with
  | PyInt z => Some (inject_Z z)
  | PyFloat x => Float.value x
  end.

End Py.

(** ** Violations *)

(** The dataclass [Violation] of both scripts. *)
Record Violation := MkViolation {
  file : text;
  line : nat;
  element : text;
  issue : text;
  severity : text;
  recommendation : text;
  code_snippet : text
}.

(** [results] of [main], as [generate_report] reads it. *)
Record Results := MkResults {
  timestamp : text;
  total_components : nat;
  violations : list Violation;
  warnings : list Violation
}.

Definition is_error (v : Violation) : bool := text_eqb (severity v) (str "error").
Definition is_warning (v : Violation) : bool := text_eqb (severity v) (str "warning").

(** [content[:m.start()].count('\n') + 1]. *)
Definition line_of (content : text) (m : Re.Match) : nat :=
  Py.count newline (firstn (Re.m_start m) content) + 1.

(** [compliance_rate] of [generate_report], the same in both scripts:
    a float when files were scanned, the [int] 0 otherwise. *)
Definition compliance_rate (results : Results) : Py.outcome Py.number :=
  let total := Z.of_nat (total_components results) in
  let error_count := Z.of_nat (List.length (violations results)) in
  if (0 <? total)%Z then
    match Py.truediv (total - error_count) total with
    | Py.Returns q =>
        Py.Returns (Py.PyFloat (Float.mul q (Py.float_of_int 100)))
    | Py.Raises e => Py.Raises e
    end
  else Py.Returns (Py.PyInt 0).

(** The attribute tests that both scripts repeat.  In the comments that
    quote a pattern, [Q] stands for the bracket expression of the two
    quote characters, double and single. *)
Definition attr (name : string) : Re.regex :=
  (Re.lit name +++ Re.star Re.Space +++ Re.lit "=")%re.

(** [re.search(name\s*=, attributes, re.IGNORECASE)]. *)
Definition has_attr (name : string) (attributes : text) : bool :=
  Re.found Re.IGNORECASE (attr name) attributes.

(** [name\s*=\s*QvalueQ]. *)
Definition attr_value (name : string) (value : Re.regex) : Re.regex :=
  (Re.lit name +++ Re.star Re.Space +++ Re.lit "=" +++ Re.star Re.Space
   +++ Re.Atom Re.quote +++ value +++ Re.Atom Re.quote)%re.

(** ** The enumeration of the files *)

(** What [os.walk] sees at a path: a directory with its sub-directories
    and its other entries, in the order in which it lists them, or a
    path that it does not enter (missing, unreadable, or a symbolic link
    to a directory). *)
#[warnings="-register-all"]
Inductive tree :=
| Node (dirs : list (text * tree)) (filenames : list text)
| Unwalked.

Definition excluded_dirs : list text :=
  [str "__tests__"; str "node_modules"; str ".next"; str "dist"; str "build"].

Definition excluded_suffixes : list text :=
  [str ".test.tsx"; str ".spec.tsx"; str ".stories.tsx"].

(** [x in l] for a set of strings. *)
Definition in_set (x : text) (l : list text) : bool := existsb (text_eqb x) l.

(** The test on a file name. *)
Definition is_component (filename : text) : bool :=
  Py.endswith (str ".tsx") filename
  && negb (existsb (fun suffix => Py.endswith suffix filename) excluded_suffixes).

(** [find_component_files], the same in both scripts: the walk goes top
    down, the excluded directories are taken out of [dirs] before it
    descends, and the files of a directory come in the order of
    [filenames]. *)
Fixpoint find_component_files (t : tree) (root : text) : list text :=
  match t with
  | Unwalked => []
  | Node dirs filenames =>
      List.map (Py.path_join root) (filter is_component filenames)
      ++ (fix descend (ds : list (text * tree)) : list text :=
            match ds with
            | [] => []
            | (d, sub) :: ds' =>
                (if in_set d excluded_dirs then []
                 else find_component_files sub (Py.path_join root d))
                ++ descend ds'
            end) dirs
  end.

(** ** The mobile script *)

Module Mobile.

Import Re.

(** [<(TouchableOpacity|TouchableHighlight|TouchableWithoutFeedback|Pressable)([^>]*?)>] *)
Definition touchable_pattern : regex :=
  (lit "<"
   +++ Group 1 (lit "TouchableOpacity" <|> lit "TouchableHighlight"
                <|> lit "TouchableWithoutFeedback" <|> lit "Pressable")
   +++ Group 2 (lazy_star (not_char ">"))
   +++ lit ">")%re.

(** [<Image([^>]*?)>], [<TextInput([^>]*?)>], [<Button([^>]*?)>] *)
Definition tag_pattern (name : string) : regex :=
  (lit "<" +++ lit name +++ Group 1 (lazy_star (not_char ">")) +++ lit ">")%re.

Definition image_pattern : regex := tag_pattern "Image".
Definition textinput_pattern : regex := tag_pattern "TextInput".
Definition button_pattern : regex := tag_pattern "Button".

(** [<View([^>]*onPress[^>]*?)>] *)
Definition view_with_press_pattern : regex :=
  (lit "<View"
   +++ Group 1 (star (not_char ">") +++ lit "onPress" +++ lazy_star (not_char ">"))
   +++ lit ">")%re.

(** [accessibilityRole\s*=\s*QnoneQ] *)
Definition decorative_role : regex := attr_value "accessibilityRole" (lit "none").

Section Rules.
Variable relative_path : text.
Variable content : text.

Definition snippet (m : Match) : text := firstn 100 (group0 content m).

(** Pattern 1: the body of the loop, for one match. *)
Definition touchable_rule (m : Match) : list Violation :=
  let line_num := line_of content m in
  let element_type := group_or_empty content 1 m in
  let attributes := group_or_empty content 2 m in
  let has_role := has_attr "accessibilityRole" attributes in
  let has_label := has_attr "accessibilityLabel" attributes in
  if negb has_role && negb has_label then
    [MkViolation relative_path line_num element_type
       (str "Touchable component missing accessibilityRole and accessibilityLabel")
       (str "error")
       (str "Add accessibilityRole and accessibilityLabel props")
       (snippet m)]
  else if negb has_label then
    [MkViolation relative_path line_num element_type
       (str "Touchable component missing accessibilityLabel")
       (str "error")
       (str "Add accessibilityLabel prop with descriptive text")
       (snippet m)]
  else [].

(** Pattern 2. *)
Definition image_rule (m : Match) : list Violation :=
  let line_num := line_of content m in
  let attributes := group_or_empty content 1 m in
  let is_decorative :=
    found IGNORECASE decorative_role attributes
    || found IGNORECASE (lit "accessibilityIgnoresInvertColors") attributes in
  let has_label := has_attr "accessibilityLabel" attributes in
  if negb is_decorative && negb has_label then
    [MkViolation relative_path line_num (str "Image")
       (str "Image missing accessibilityLabel")
       (str "error")
       (str "Add accessibilityLabel prop or mark as decorative with accessibilityRole=" ++ dq "none")
       (snippet m)]
  else [].

(** Pattern 3. *)
Definition textinput_rule (m : Match) : list Violation :=
  let line_num := line_of content m in
  let attributes := group_or_empty content 1 m in
  let has_label := has_attr "accessibilityLabel" attributes in
  let has_placeholder := has_attr "placeholder" attributes in
  if negb has_label && negb has_placeholder then
    [MkViolation relative_path line_num (str "TextInput")
       (str "TextInput missing accessibilityLabel and placeholder")
       (str "error")
       (str "Add accessibilityLabel prop or placeholder")
       (snippet m)]
  else [].

(** Pattern 4. *)
Definition button_rule (m : Match) : list Violation :=
  let line_num := line_of content m in
  let attributes := group_or_empty content 1 m in
  let has_label := has_attr "accessibilityLabel" attributes in
  let has_title := has_attr "title" attributes in
  if negb has_label && negb has_title then
    [MkViolation relative_path line_num (str "Button")
       (str "Button missing accessibilityLabel and title")
       (str "error")
       (str "Add accessibilityLabel prop or title prop")
       (snippet m)]
  else [].

(** Pattern 5. *)
Definition view_rule (m : Match) : list Violation :=
  let line_num := line_of content m in
  let attributes := group_or_empty content 1 m in
  let has_role := has_attr "accessibilityRole" attributes in
  let has_label := has_attr "accessibilityLabel" attributes in
  if negb has_role then
    [MkViolation relative_path line_num (str "View")
       (str "View with onPress missing accessibilityRole")
       (str "error")
       (str "Add accessibilityRole=" ++ dq "button" ++ str " and accessibilityLabel")
       (snippet m)]
  else if negb has_label then
    [MkViolation relative_path line_num (str "View")
       (str "View with onPress missing accessibilityLabel")
       (str "error")
       (str "Add accessibilityLabel prop")
       (snippet m)]
  else [].

(** The occurrences of a pattern and the violations of its loop. *)
Definition occurrences (p : regex) : list Match := finditer IGNORECASE p content.

Definition loop (p : regex) (rule : Match -> list Violation) : list Violation :=
  flat_map rule (occurrences p).

(** The five loops of [audit_file], in the order of the script. *)
Definition audit_content : list Violation :=
  loop touchable_pattern touchable_rule
  ++ loop image_pattern image_rule
  ++ loop textinput_pattern textinput_rule
  ++ loop button_pattern button_rule
  ++ loop view_with_press_pattern view_rule.
End Rules.

Section Run.
(** [os.path.relpath], and [open(path, 'r', encoding='utf-8').read()]:
    [None] when opening, reading or decoding raises. *)
Variable relpath : text -> text -> text.
Variable read : text -> option text.
(** [str(Path(__file__).stat().st_mtime)] *)
Variable script_mtime : text.

Definition audit_file (file_path root_dir : text) : list Violation :=
  let relative_path := relpath file_path root_dir in
  match read file_path with
  | None => []
  | Some content => audit_content relative_path content
  end.

(** The loop of [main] over [files], the list that
    [find_component_files] returned. *)
Fixpoint all_violations (root_dir : text) (files : list text) : list Violation :=
  match files with
  | [] => []
  | file_path :: rest =>
      audit_file file_path root_dir ++ all_violations root_dir rest
  end.

Definition results (root_dir : text) (files : list text) : Results :=
  let all := all_violations root_dir files in
  MkResults script_mtime (List.length files) (filter is_error all) (filter is_warning all).

(** [main], up to [results]: [cwd] is [os.getcwd()] and [t] what
    [os.walk] sees at the components directory. *)
Definition root_dir (cwd : text) : text :=
  Py.path_join cwd (str "apps/mobile/src/components").

Definition main (cwd : text) (t : tree) : Results :=
  results (root_dir cwd) (find_component_files t (root_dir cwd)).
End Run.

End Mobile.

(** ** The web script *)

Module Web.

Import Re.

(** [<(Button|IconButton|button)[^>]*(?:size\s*=\s*QiconQ|className[^>]*icon)[^>]*>] *)
Definition icon_button_pattern : regex :=
  (lit "<"
   +++ Group 1 (lit "Button" <|> lit "IconButton" <|> lit "button")
   +++ star (not_char ">")
   +++ (attr_value "size" (lit "icon")
        <|> lit "className" +++ star (not_char ">") +++ lit "icon")
   +++ star (not_char ">")
   +++ lit ">")%re.

(** [<(input|textarea|select)([^>]*?)>] *)
Definition input_pattern : regex :=
  (lit "<"
   +++ Group 1 (lit "input" <|> lit "textarea" <|> lit "select")
   +++ Group 2 (lazy_star (not_char ">"))
   +++ lit ">")%re.

(** [type\s*=\s*QhiddenQ] *)
Definition hidden_type : regex := attr_value "type" (lit "hidden").

(** [id\s*=\s*Q([^Q]+)Q] *)
Definition id_pattern : regex := attr_value "id" (Group 1 (plus not_quote)).

(** [htmlFor\s*=\s*Q{re.escape(input_id)}Q], an f-string *)
Definition label_pattern (input_id : text) : regex :=
  attr_value "htmlFor" (escape input_id).

(** [<(Dialog|DialogContent|Modal|dialog)([^>]*?)>] *)
Definition modal_pattern : regex :=
  (lit "<"
   +++ Group 1 (lit "Dialog" <|> lit "DialogContent" <|> lit "Modal" <|> lit "dialog")
   +++ Group 2 (lazy_star (not_char ">"))
   +++ lit ">")%re.

Definition role_dialog : regex := attr_value "role" (lit "dialog").
Definition role_alertdialog : regex := attr_value "role" (lit "alertdialog").
Definition aria_modal_true : regex := attr_value "aria-modal" (lit "true").

(** [<(a|Link)([^>]*?)>(.*?)(?:</a>|</Link>)] *)
Definition link_pattern : regex :=
  (lit "<"
   +++ Group 1 (lit "a" <|> lit "Link")
   +++ Group 2 (lazy_star (not_char ">"))
   +++ lit ">"
   +++ Group 3 (lazy_star Dot)
   +++ (lit "</a>" <|> lit "</Link>"))%re.

(** [<[^>]+>] *)
Definition any_tag : regex := (lit "<" +++ plus (not_char ">") +++ lit ">")%re.

(** [[A-Za-z0-9]{2,}] *)
Definition alnum : atom :=
  Class false [Range (ch "A") (ch "Z"); Range (ch "a") (ch "z");
               Range (ch "0") (ch "9")].
Definition alnum_run : regex := Rep alnum 2 true.

(** [<img[^>]*alt\s*=\s*Q[^Q]+Q] *)
Definition img_with_alt : regex :=
  (lit "<img" +++ star (not_char ">") +++ attr_value "alt" (plus not_quote))%re.

(** [id_match.group(1)] of the search for an [id] in the attributes,
    when there is one. *)
Definition input_id (attributes : text) : option text :=
  match search IGNORECASE id_pattern attributes with
  | Some id_match => Some (group_or_empty attributes 1 id_match)
  | None => None
  end.

Section Rules.
Variable relative_path : text.
Variable content : text.

Definition lines : list text := Py.split newline content.

(** Pattern 1: icon buttons. *)
Definition icon_button_rule (m : Match) : list Violation :=
  let line_num := line_of content m in
  let element_content := group0 content m in
  if negb (has_attr "aria-label" element_content) then
    let start_line := Nat.max 0 (line_num - 1) in
    let end_line := Nat.min (List.length lines) (line_num + 5) in
    let nearby_content := Py.join [newline] (Py.slice lines start_line end_line) in
    if negb (has_attr "aria-label" nearby_content) then
      [MkViolation relative_path line_num (str "IconButton/Button")
         (str "Icon button missing aria-label")
         (str "error")
         (str "Add aria-label prop with descriptive text (e.g., " ++ dq "Close dialog"
          ++ str ", " ++ dq "Send message" ++ str ")")
         (firstn 100 element_content)]
    else []
  else [].

(** The cross-reference of pattern 2: a [htmlFor] with the value of the
    [id] found in [attributes], anywhere in the file. *)
Definition label_by_id (attributes : text) : bool :=
  match input_id attributes with
  | Some id => found IGNORECASE (label_pattern id) content
  | None => false
  end.

(** Pattern 2: form controls. *)
Definition input_rule (m : Match) : list Violation :=
  let line_num := line_of content m in
  let element_type := group_or_empty content 1 m in
  let attributes := group_or_empty content 2 m in
  if found IGNORECASE hidden_type attributes then []
  else
    let has_aria_label := has_attr "aria-label" attributes in
    let has_aria_labelled_by := has_attr "aria-labelledby" attributes in
    let has_label := label_by_id attributes in
    if negb has_aria_label && negb has_aria_labelled_by && negb has_label then
      [MkViolation relative_path line_num element_type
         (str "Form input missing label or aria-label")
         (str "error")
         (str "Add htmlFor/id relationship, aria-label, or aria-labelledby")
         (firstn 100 (group0 content m))]
    else [].

(** The list [issues] of pattern 3; [before] is [content[:m.start()]]. *)
Definition modal_issues (before attributes : text) : list text :=
  let primitive := Py.contains (str "DialogPrimitive") before in
  (if negb (found IGNORECASE role_dialog attributes)
      && negb (found IGNORECASE role_alertdialog attributes)
   then if negb primitive then [str "Missing role=" ++ dq "dialog"] else []
   else [])
  ++ (if negb (found IGNORECASE aria_modal_true attributes)
      then if negb primitive then [str "Missing aria-modal=" ++ dq "true"] else []
      else [])
  ++ (if negb (has_attr "aria-labelledby" attributes)
      then if negb primitive then [str "Missing aria-labelledby"] else []
      else []).

(** Pattern 3: modals and dialogs. *)
Definition modal_rule (m : Match) : list Violation :=
  let line_num := line_of content m in
  let element_type := group_or_empty content 1 m in
  let attributes := group_or_empty content 2 m in
  let issues := modal_issues (firstn (m_start m) content) attributes in
  match issues with
  | [] => []
  | _ :: _ =>
      [MkViolation relative_path line_num element_type
         (str "Modal/dialog missing ARIA attributes: " ++ Py.join (str ", ") issues)
         (str "error")
         (str "Add role=" ++ dq "dialog" ++ str ", aria-modal=" ++ dq "true"
          ++ str ", aria-labelledby, and optionally aria-describedby")
         (firstn 150 (group0 content m))]
  end.

(** [re.sub(r'<[^>]+>', '', children).strip()] *)
Definition text_content (children : text) : text :=
  Py.strip (sub NOFLAG any_tag [] children).

(** [len(text_content) >= 2 and re.search(r'[A-Za-z0-9]{2,}', text_content)] *)
Definition has_text (children : text) : bool :=
  (2 <=? List.length (text_content children))
  && found NOFLAG alnum_run (text_content children).

Definition has_image_with_alt (children : text) : bool :=
  found IGNORECASE img_with_alt children.

(** Pattern 4: links. *)
Definition link_rule (m : Match) : list Violation :=
  let line_num := line_of content m in
  let attributes := group_or_empty content 2 m in
  let children := group_or_empty content 3 m in
  if has_attr "aria-label" attributes then []
  else if negb (has_text children) && negb (has_image_with_alt children) then
    [MkViolation relative_path line_num (str "Link")
       (str "Link missing aria-label or accessible text")
       (str "warning")
       (str "Add aria-label prop or ensure link has visible text or image with alt text")
       (firstn 150 (group0 content m))]
  else [].

Definition occurrences (fl : flags) (p : regex) : list Match :=
  finditer fl p content.

Definition loop (fl : flags) (p : regex) (rule : Match -> list Violation)
  : list Violation :=
  flat_map rule (occurrences fl p).

(** The four loops of [audit_file], in the order of the script. *)
Definition audit_content : list Violation :=
  loop IGNORECASE icon_button_pattern icon_button_rule
  ++ loop IGNORECASE input_pattern input_rule
  ++ loop IGNORECASE modal_pattern modal_rule
  ++ loop IGNORECASE_DOTALL link_pattern link_rule.
End Rules.

Section Run.
Variable relpath : text -> text -> text.
Variable read : text -> option text.
Variable script_mtime : text.

Definition audit_file (file_path root_dir : text) : list Violation :=
  let relative_path := relpath file_path root_dir in
  match read file_path with
  | None => []
  | Some content => audit_content relative_path content
  end.

(** The loop of [main]: the violations of a file are added when there
    are some.  ([by_component] is filled in the same branch; the report
    does not read it.) *)
Fixpoint all_violations (root_dir : text) (files : list text) : list Violation :=
  match files with
  | [] => []
  | file_path :: rest =>
      match audit_file file_path root_dir with
      | [] => all_violations root_dir rest
      | (_ :: _) as violations => violations ++ all_violations root_dir rest
      end
  end.

Definition results (root_dir : text) (files : list text) : Results :=
  let all := all_violations root_dir files in
  MkResults script_mtime (List.length files) (filter is_error all) (filter is_warning all).

Definition root_dir (cwd : text) : text :=
  Py.path_join cwd (str "apps/web/src/components").

Definition main (cwd : text) (t : tree) : Results :=
  results (root_dir cwd) (find_component_files t (root_dir cwd)).
End Run.

End Web.

(** ** The notions that the properties use *)

(** [matches fl r s p cs s' p' cs']: from [s] at offset [p], [r] consumes
    a prefix and leaves [s'] at offset [p'], the groups going from [cs]
    to [cs'].  The relation says which matches exist; the order in which
    the matcher tries them is in [Re.run]. *)
Inductive matches (fl : Re.flags)
  : Re.regex -> text -> nat -> Re.caps -> text -> nat -> Re.caps -> Prop :=
| MEmpty s p cs : matches fl Re.Empty s p cs s p cs
| MAtom a c s p cs :
    Re.atom_match fl a c = true ->
    matches fl (Re.Atom a) (c :: s) p cs s (S p) cs
| MSeq r1 r2 s p cs s1 p1 cs1 s2 p2 cs2 :
    matches fl r1 s p cs s1 p1 cs1 ->
    matches fl r2 s1 p1 cs1 s2 p2 cs2 ->
    matches fl (Re.Seq r1 r2) s p cs s2 p2 cs2
| MAltL r1 r2 s p cs s' p' cs' :
    matches fl r1 s p cs s' p' cs' ->
    matches fl (Re.Alt r1 r2) s p cs s' p' cs'
| MAltR r1 r2 s p cs s' p' cs' :
    matches fl r2 s p cs s' p' cs' ->
    matches fl (Re.Alt r1 r2) s p cs s' p' cs'
| MRep a least g w s p cs :
    least <= List.length w ->
    forallb (Re.atom_match fl a) w = true ->
    matches fl (Re.Rep a least g) (w ++ s) p cs s (p + List.length w) cs
| MGroup n r s p cs s' p' cs' :
    matches fl r s p cs s' p' cs' ->
    matches fl (Re.Group n r) s p cs s' p' ((n, (p, p')) :: cs').

(** Two texts that differ only in the case of their letters. *)
Definition same_letters (a b : text) : Prop :=
  List.map Re.fold a = List.map Re.fold b.

(** What a violation says, without the text it quotes from the source
    (the tag as written and the snippet) and without the file. *)
Definition verdict (v : Violation) : nat * text * text * text :=
  (line v, issue v, severity v, recommendation v).

(** A message that names an attribute or a marker. *)
Definition mentions (what : text) (message : text) : bool :=
  Py.contains what message.

(** The loops of [audit_file], one per pattern, in the order in which
    the scripts run them. *)
Definition mobile_loops (relative_path content : text) : list (list Violation) :=
  [ Mobile.loop content Mobile.touchable_pattern
      (Mobile.touchable_rule relative_path content);
    Mobile.loop content Mobile.image_pattern
      (Mobile.image_rule relative_path content);
    Mobile.loop content Mobile.textinput_pattern
      (Mobile.textinput_rule relative_path content);
    Mobile.loop content Mobile.button_pattern
      (Mobile.button_rule relative_path content);
    Mobile.loop content Mobile.view_with_press_pattern
      (Mobile.view_rule relative_path content) ].

Definition web_loops (relative_path content : text) : list (list Violation) :=
  [ Web.loop content Re.IGNORECASE Web.icon_button_pattern
      (Web.icon_button_rule relative_path content);
    Web.loop content Re.IGNORECASE Web.input_pattern
      (Web.input_rule relative_path content);
    Web.loop content Re.IGNORECASE Web.modal_pattern
      (Web.modal_rule relative_path content);
    Web.loop content Re.IGNORECASE_DOTALL Web.link_pattern
      (Web.link_rule relative_path content) ].

(** An ASCII letter or digit. *)
Definition is_alnum (c : char) : bool :=
  Re.in_range (ch "A") (ch "Z") c || Re.in_range (ch "a") (ch "z") c
  || Re.in_range (ch "0") (ch "9") c.

(** The text has two letters or digits in a row. *)
Definition has_alnum_run (t : text) : Prop :=
  exists pre a b post,
    t = pre ++ a :: b :: post /\ is_alnum a = true /\ is_alnum b = true.

(** Trivial text: fewer than 2 characters, or no run of 2 letters or
    digits. *)
Definition trivial_text (t : text) : Prop :=
  List.length t < 2 \/ ~ has_alnum_run t.

(** [u] reads as [v] for a pattern: character for character, up to the
    case of letters when the flags say so. *)
Definition reads_as (fl : Re.flags) (u v : text) : Prop :=
  Forall2 (fun c p => Re.char_eqb fl c p = true) u v.

Definition is_quote (c : char) : bool := N.eqb c dquote || N.eqb c squote.

(** The text names the attribute: the name, then an equals sign, white
    space allowed in between. *)
Definition names_attr (name s : text) : Prop :=
  exists pre n ws post,
    s = pre ++ n ++ ws ++ ch "=" :: post
    /\ same_letters n name /\ forallb Re.isspace ws = true.

(** The text gives the attribute the value: the name, an equals sign
    with white space allowed around it, and the value between two quote
    characters; [same] says how names and values are compared. *)
Definition holds_attr (same : text -> text -> Prop) (name value s : text) : Prop :=
  exists pre n ws1 ws2 q1 w q2 post,
    s = pre ++ n ++ ws1 ++ ch "=" :: ws2 ++ q1 :: w ++ q2 :: post
    /\ same n name
    /\ forallb Re.isspace ws1 = true /\ forallb Re.isspace ws2 = true
    /\ is_quote q1 = true /\ is_quote q2 = true
    /\ same w value.

(** The shape of the tag patterns, [<(name|...)([^>]*?)>]. *)
Fixpoint one_of (names : list string) : Re.regex :=
  match names with
  | [] => Re.Empty
  | [name] => Re.lit name
  | name :: rest => Re.Alt (Re.lit name) (one_of rest)
  end.

Definition open_tag (names : list string) : Re.regex :=
  (Re.lit "<" +++ Re.Group 1 (one_of names)
   +++ Re.Group 2 (Re.lazy_star (Re.not_char ">")) +++ Re.lit ">")%re.

(** [m] is an opening tag of [content]: a [<], a tag that is one of the
    names up to the case of letters, an attribute span without [>], and
    the [>] that closes it. *)
Definition is_open_tag (names : list string) (content : text) (m : Re.Match)
           (tag attributes : text) : Prop :=
  exists pre post,
    content = pre ++ ch "<" :: tag ++ attributes ++ ch ">" :: post
    /\ Re.m_start m = List.length pre
    /\ Re.m_end m = List.length pre + 1 + List.length tag
                    + List.length attributes + 1
    /\ (exists name, In name names /\ same_letters tag (str name))
    /\ forallb (fun c => negb (N.eqb c (ch ">"))) attributes = true.

(** [p] stands somewhere in [s]. *)
Definition occurs_in (p s : text) : Prop := exists a b, s = a ++ p ++ b.

(** [located t root dir filename]: walking [t] from [root], [os.walk]
    comes to the directory [dir], which lists [filename], and no
    directory on the way down from [root] has an excluded name. *)
Inductive located : tree -> text -> text -> text -> Prop :=
| LocatedHere dirs filenames root filename :
    In filename filenames ->
    located (Node dirs filenames) root root filename
| LocatedBelow dirs filenames root d sub dir filename :
    In (d, sub) dirs ->
    in_set d excluded_dirs = false ->
    located sub (Py.path_join root d) dir filename ->
    located (Node dirs filenames) root dir filename.

(** The text has the word, in whatever case. *)
Definition has_word (word s : text) : Prop :=
  exists pre w post, s = pre ++ w ++ post /\ same_letters w word.

(** [m] is an opening tag of [content] whose name begins with [name],
    up to the case of letters: a [<], the name, a span without [>] that
    holds the rest of the name and the attributes, and the [>] that
    closes the tag. *)
Definition is_tag_beginning (name : string) (content : text) (m : Re.Match)
           (span : text) : Prop :=
  exists pre w post,
    content = pre ++ ch "<" :: w ++ span ++ ch ">" :: post
    /\ Re.m_start m = List.length pre
    /\ same_letters w (str name)
    /\ forallb (fun c => negb (N.eqb c (ch ">"))) span = true.
(** [m] is an opening tag of [content] whose name begins with [View]
    and whose span, without [>], has the word [onPress]. *)
Definition is_view_with_press (content : text) (m : Re.Match) (span : text)
  : Prop :=
  exists pre w post,
    content = pre ++ w ++ span ++ ch ">" :: post
    /\ Re.m_start m = List.length pre
    /\ same_letters w (str "<View")
    /\ has_word (str "onPress") span
    /\ forallb (fun c => negb (N.eqb c (ch ">"))) span = true.
(** The pattern begins with the literal character [c]. *)
Definition begins_with (c : char) (r : Re.regex) : bool :=
  match r with
  | Re.Seq (Re.Seq (Re.Atom (Re.Chr p)) _) _ => N.eqb p c
  | _ => false
  end.

(** Matches that follow one another without overlapping. *)
Definition one_after_another (l : list Re.Match) : Prop :=
  StronglySorted (fun a b => Re.m_end a <= Re.m_start b) l.

(** The pairs of a run of the lower case mapping. *)
Definition expand_run (r : char * N * N * char) : list (char * char) :=
  let '(first, count, step, target) := r in
  List.map (fun i => (first + N.of_nat i * step, target + N.of_nat i * step)%N)
    (seq 0 (N.to_nat count)).

(** Where folding changes a character, the character is a letter and
    so is the result: neither is below [A], neither is white space. *)
Definition is_letter_pair (c l : char) : bool :=
  ((65 <=? c) && (97 <=? l))%N && negb (Re.isspace c) && negb (Re.isspace l).

(** The relative error that two roundings can add up to, each of at
    most [2^-53]. *)
Definition rounding_error : Q := ((1 + 2 ^ (-53)) ^ 2 - 1)%Q.

(** The value of a float of the standard library. *)
Definition spec_float_value (x : spec_float) : option Q :=
  match x with
  | S754_zero _ => Some 0%Q
  | S754_finite s m e =>
      Some ((if s then - 1 else 1) * inject_Z (Z.pos m) * 2 ^ e)%Q
  | _ => None
  end.

Unset Implicit Arguments.

(** * Properties *)

(** ** The matcher finds the matches of the relation, and only those *)

Section MatcherFacts.
Variable fl : Re.flags.
Variable R : Type.
Implicit Types (k : text -> nat -> option R) (s w : text) (a : Re.atom).

Lemma exactly_inv n a k s p x :
  Re.exactly fl n a k s p = Some x ->
  exists w s', s = w ++ s' /\ List.length w = n
               /\ forallb (Re.atom_match fl a) w = true
               /\ k s' (p + n) = Some x.
Proof.
  revert s p. induction n as [|n IH]; intros s p H; simpl in H.
  - exists [], s. rewrite Nat.add_0_r. auto.
  - destruct s as [|c s]; [discriminate|].
    destruct (Re.atom_match fl a c) eqn:E; [|discriminate].
    destruct (IH _ _ H) as (w & s' & -> & Hl & Hw & Hk).
    exists (c :: w), s'. simpl. rewrite E, Hw, Hl.
    replace (p + S n) with (S p + n) by lia. auto.
Qed.

Lemma exactly_intro n a k w s p :
  List.length w = n -> forallb (Re.atom_match fl a) w = true ->
  Re.exactly fl n a k (w ++ s) p = k s (p + n).
Proof.
  revert w p. induction n as [|n IH]; intros [|c w] p Hl Hw;
    simpl in *; try discriminate.
  - now rewrite Nat.add_0_r.
  - apply andb_prop in Hw as [-> Hw]. rewrite IH by (auto; lia).
    f_equal. lia.
Qed.

Lemma greedy_inv a k s p x :
  Re.greedy fl a k s p = Some x ->
  exists w s', s = w ++ s' /\ forallb (Re.atom_match fl a) w = true
               /\ k s' (p + List.length w) = Some x.
Proof.
  revert p. induction s as [|c s IH]; intros p H; simpl in H.
  - exists [], []. rewrite Nat.add_0_r. auto.
  - destruct (Re.atom_match fl a c) eqn:E.
    + destruct (Re.greedy fl a k s (S p)) eqn:G.
      * injection H as ->. destruct (IH _ G) as (w & s' & -> & Hw & Hk).
        exists (c :: w), s'. simpl. rewrite E, Hw.
        replace (p + S (List.length w)) with (S p + List.length w) by lia. auto.
      * exists [], (c :: s). rewrite Nat.add_0_r. auto.
    + exists [], (c :: s). rewrite Nat.add_0_r. auto.
Qed.

Lemma lazy_inv a k s p x :
  Re.lazy fl a k s p = Some x ->
  exists w s', s = w ++ s' /\ forallb (Re.atom_match fl a) w = true
               /\ k s' (p + List.length w) = Some x.
Proof.
  revert p. induction s as [|c s IH]; intros p H; simpl in H.
  - exists [], []. rewrite Nat.add_0_r. destruct (k [] p); [auto|discriminate].
  - destruct (k (c :: s) p) eqn:K.
    + exists [], (c :: s). rewrite Nat.add_0_r. injection H as ->. auto.
    + destruct (Re.atom_match fl a c) eqn:E; [|discriminate].
      destruct (IH _ H) as (w & s' & -> & Hw & Hk).
      exists (c :: w), s'. simpl. rewrite E, Hw.
      replace (p + S (List.length w)) with (S p + List.length w) by lia. auto.
Qed.

(** Once the continuation accepts after some run of [a], the
    repetition succeeds (with that or with a preferred result). *)
Lemma greedy_intro a k w s p x :
  forallb (Re.atom_match fl a) w = true ->
  k s (p + List.length w) = Some x ->
  exists y, Re.greedy fl a k (w ++ s) p = Some y.
Proof.
  revert p. induction w as [|c w IH]; intros p Hw Hk; simpl in *.
  - rewrite Nat.add_0_r in Hk. destruct s as [|c s]; simpl.
    + eauto.
    + destruct (Re.atom_match fl a c); [|eauto].
      destruct (Re.greedy fl a k s (S p)); eauto.
  - apply andb_prop in Hw as [-> Hw].
    destruct (IH (S p) Hw) as [y ->]; [|eauto].
    rewrite <- Hk. f_equal. lia.
Qed.

Lemma lazy_intro a k w s p x :
  forallb (Re.atom_match fl a) w = true ->
  k s (p + List.length w) = Some x ->
  exists y, Re.lazy fl a k (w ++ s) p = Some y.
Proof.
  revert p. induction w as [|c w IH]; intros p Hw Hk; simpl in *.
  - rewrite Nat.add_0_r in Hk.
    destruct s; simpl; rewrite Hk; eauto.
  - apply andb_prop in Hw as [-> Hw].
    destruct (k (c :: w ++ s) p); [eauto|].
    apply IH; auto. rewrite <- Hk. f_equal. lia.
Qed.

Lemma run_inv r : forall s p cs (k : Re.cont R) x,
  Re.run fl r s p cs k = Some x ->
  exists s' p' cs', matches fl r s p cs s' p' cs' /\ k s' p' cs' = Some x.
Proof.
  induction r as [|a|r1 IH1 r2 IH2|r1 IH1 r2 IH2|a least g|n r IH];
    intros s p cs k x H; simpl in H.
  - do 3 eexists. split; [constructor|exact H].
  - destruct s as [|c s]; [discriminate|].
    destruct (Re.atom_match fl a c) eqn:E; [|discriminate].
    do 3 eexists. split; [constructor; exact E|exact H].
  - apply IH1 in H as (s1 & p1 & cs1 & M1 & H).
    apply IH2 in H as (s2 & p2 & cs2 & M2 & H).
    do 3 eexists. split; [econstructor; eassumption|exact H].
  - destruct (Re.run fl r1 s p cs k) eqn:E.
    + injection H as ->. apply IH1 in E as (s' & p' & cs' & M & H).
      do 3 eexists. split; [apply MAltL; eassumption|exact H].
    + apply IH2 in H as (s' & p' & cs' & M & H).
      do 3 eexists. split; [apply MAltR; eassumption|exact H].
  - apply exactly_inv in H as (w1 & s1 & -> & Hl & Hw1 & H).
    assert (exists w2 s2, s1 = w2 ++ s2
              /\ forallb (Re.atom_match fl a) w2 = true
              /\ k s2 (p + least + List.length w2) cs = Some x)
      as (w2 & s2 & -> & Hw2 & Hk)
      by (destruct g; [apply greedy_inv in H|apply lazy_inv in H]; exact H).
    exists s2, (p + List.length (w1 ++ w2)), cs. split.
    + rewrite app_assoc. constructor.
      * rewrite length_app. lia.
      * rewrite forallb_app, Hw1, Hw2. reflexivity.
    + rewrite <- Hk. f_equal. rewrite length_app. lia.
  - apply IH in H as (s' & p' & cs' & M & H).
    do 3 eexists. split; [constructor; eassumption|exact H].
Qed.

Lemma run_intro r s p cs s' p' cs' :
  matches fl r s p cs s' p' cs' ->
  forall (k : Re.cont R) x, k s' p' cs' = Some x ->
  exists y, Re.run fl r s p cs k = Some y.
Proof.
  induction 1 as [s p cs|a c s p cs E|r1 r2 s p cs s1 p1 cs1 s2 p2 cs2 _ IH1 _ IH2
                 |r1 r2 s p cs s' p' cs' _ IH|r1 r2 s p cs s' p' cs' _ IH
                 |a least g w s p cs Hl Hw|n r s p cs s' p' cs' _ IH];
    intros k x Hk; simpl.
  - eauto.
  - rewrite E. eauto.
  - destruct (IH2 _ _ Hk) as [y Hy]. eapply IH1. exact Hy.
  - destruct (IH _ _ Hk) as [y ->]. eauto.
  - destruct (Re.run fl r1 s p cs k); eauto.
  - rewrite <- (firstn_skipn least w), <- app_assoc.
    rewrite <- (firstn_skipn least w), forallb_app in Hw.
    apply andb_prop in Hw as [Hw1 Hw2].
    rewrite exactly_intro by (auto; rewrite length_firstn; lia).
    assert (Hk' : k s (p + least + List.length (skipn least w)) cs = Some x)
      by (rewrite <- Hk; f_equal; rewrite length_skipn; lia).
    destruct g; [eapply greedy_intro|eapply lazy_intro]; eauto.
  - eapply IH. exact Hk.
Qed.

End MatcherFacts.

(** What is consumed is a prefix, and the offset follows it. *)
Lemma matches_prefix fl r s p cs s' p' cs' :
  matches fl r s p cs s' p' cs' ->
  exists w, s = w ++ s' /\ p' = p + List.length w.
Proof.
  induction 1 as [s p cs|a c s p cs E|r1 r2 s p cs s1 p1 cs1 s2 p2 cs2 _ IH1 _ IH2
                 |r1 r2 s p cs s' p' cs' _ IH|r1 r2 s p cs s' p' cs' _ IH
                 |a least g w s p cs Hl Hw|n r s p cs s' p' cs' _ IH].
  - exists []. auto.
  - exists [c]. simpl. split; [auto|lia].
  - destruct IH1 as (w1 & -> & ->), IH2 as (w2 & -> & ->).
    exists (w1 ++ w2). rewrite app_assoc, length_app. split; [auto|lia].
  - exact IH.
  - exact IH.
  - exists w. auto.
  - exact IH.
Qed.

(** ** Searching *)

Lemma match_here_inv fl r s pos m :
  Re.match_here fl r s pos = Some m ->
  Re.m_start m = pos
  /\ exists s', matches fl r s pos [] s' (Re.m_end m) (Re.m_caps m).
Proof.
  unfold Re.match_here. intros H.
  apply run_inv in H as (s' & p' & cs' & M & H).
  injection H as <-. simpl. eauto.
Qed.

Lemma match_here_intro fl r s pos s' p' cs' :
  matches fl r s pos [] s' p' cs' ->
  exists m, Re.match_here fl r s pos = Some m.
Proof.
  intros M. unfold Re.match_here.
  eapply run_intro; [exact M|reflexivity].
Qed.

Lemma match_here_bounds fl r s pos m :
  Re.match_here fl r s pos = Some m ->
  Re.m_start m = pos /\ pos <= Re.m_end m <= pos + List.length s.
Proof.
  intros H. apply match_here_inv in H as (Hs & s' & M).
  apply matches_prefix in M as (w & -> & ->).
  rewrite length_app. lia.
Qed.

(** A successful search is a match at some offset of the subject. *)
Lemma search_from_inv fl r s pos m :
  Re.search_from fl r s pos = Some m ->
  exists pre rest, s = pre ++ rest
    /\ Re.match_here fl r rest (pos + List.length pre) = Some m.
Proof.
  revert pos. induction s as [|c s IH]; intros pos H; simpl in H.
  - destruct (Re.match_here fl r [] pos) eqn:E; [|discriminate].
    injection H as ->. exists [], []. rewrite Nat.add_0_r. auto.
  - destruct (Re.match_here fl r (c :: s) pos) eqn:E.
    + injection H as ->. exists [], (c :: s). rewrite Nat.add_0_r. auto.
    + apply IH in H as (pre & rest & -> & H).
      exists (c :: pre), rest. simpl.
      replace (pos + S (List.length pre)) with (S pos + List.length pre) by lia.
      auto.
Qed.

Lemma search_from_intro fl r pre rest pos m :
  Re.match_here fl r rest (pos + List.length pre) = Some m ->
  exists m', Re.search_from fl r (pre ++ rest) pos = Some m'.
Proof.
  revert pos. induction pre as [|c pre IH]; intros pos H; simpl in *.
  - rewrite Nat.add_0_r in H. destruct rest; simpl; rewrite H; eauto.
  - destruct (Re.match_here fl r (c :: pre ++ rest) pos); [eauto|].
    apply IH. rewrite <- H. f_equal. lia.
Qed.

(** [re.search] succeeds exactly when some part of the subject is
    matched by the pattern. *)
Lemma found_iff fl r s :
  Re.found fl r s = true <->
  exists pre rest s' p' cs', s = pre ++ rest
    /\ matches fl r rest (List.length pre) [] s' p' cs'.
Proof.
  unfold Re.found, Re.search. split.
  - destruct (Re.search_from fl r s 0) as [m|] eqn:E; [intros _|discriminate].
    apply search_from_inv in E as (pre & rest & -> & H).
    apply match_here_inv in H as (_ & s' & M). eauto 8.
  - intros (pre & rest & s' & p' & cs' & -> & M).
    apply match_here_intro in M as [m M].
    apply (@search_from_intro fl r pre rest 0) in M as [m' ->]. reflexivity.
Qed.

(** ** The occurrences of a pattern come in the order of the text *)

Lemma finditer_from_inv fl r s pos skip m :
  In m (Re.finditer_from fl r s pos skip) ->
  exists pre rest, s = pre ++ rest /\ skip <= List.length pre
    /\ Re.match_here fl r rest (pos + List.length pre) = Some m.
Proof.
  revert pos skip. induction s as [|c s IH]; intros pos skip H; simpl in H.
  - destruct skip; [|contradiction].
    destruct (Re.match_here fl r [] pos) eqn:E; [|contradiction].
    destruct H as [<-|[]]. exists [], []. rewrite Nat.add_0_r. auto.
  - assert (Hrec : forall k, In m (Re.finditer_from fl r s (S pos) k) ->
              exists pre rest, c :: s = pre ++ rest /\ k < List.length pre
                /\ Re.match_here fl r rest (pos + List.length pre) = Some m).
    { intros k Hk. apply IH in Hk as (pre & rest & -> & Hl & Hm).
      exists (c :: pre), rest. simpl.
      replace (pos + S (List.length pre)) with (S pos + List.length pre) by lia.
      split; [auto|split; [lia|auto]]. }
    destruct skip as [|k].
    + destruct (Re.match_here fl r (c :: s) pos) eqn:E.
      * destruct H as [<-|H].
        -- exists [], (c :: s). rewrite Nat.add_0_r. simpl. auto.
        -- apply Hrec in H as (pre & rest & ? & ? & ?).
           exists pre, rest. split; [auto|split; [lia|auto]].
      * apply Hrec in H as (pre & rest & ? & ? & ?).
        exists pre, rest. split; [auto|split; [lia|auto]].
    + apply Hrec in H as (pre & rest & ? & ? & ?).
      exists pre, rest. split; [auto|split; [lia|auto]].
Qed.

(** Every occurrence is a match of the pattern inside the text. *)
Lemma finditer_inv fl r s m :
  In m (Re.finditer fl r s) ->
  exists pre rest s', s = pre ++ rest
    /\ Re.m_start m = List.length pre
    /\ matches fl r rest (List.length pre) [] s' (Re.m_end m) (Re.m_caps m).
Proof.
  intros H. apply finditer_from_inv in H as (pre & rest & -> & _ & H).
  apply match_here_inv in H as (Hs & s' & M). eauto 8.
Qed.

Lemma finditer_from_starts fl r s pos skip :
  Forall (fun m => pos + skip <= Re.m_start m) (Re.finditer_from fl r s pos skip).
Proof.
  apply Forall_forall. intros m H.
  apply finditer_from_inv in H as (pre & rest & _ & Hl & H).
  apply match_here_bounds in H. lia.
Qed.

(** The offsets at which the occurrences start increase strictly. *)
Lemma finditer_from_sorted fl r s pos skip :
  StronglySorted lt (List.map Re.m_start (Re.finditer_from fl r s pos skip)).
Proof.
  revert pos skip. induction s as [|c s IH]; intros pos skip; simpl.
  - destruct skip; [|constructor].
    destruct (Re.match_here fl r [] pos); repeat constructor.
  - destruct skip as [|k]; [|apply IH].
    destruct (Re.match_here fl r (c :: s) pos) as [m|] eqn:E; [|apply IH].
    simpl. constructor; [apply IH|].
    apply Forall_map, Forall_forall. intros m' H.
    apply match_here_bounds in E.
    pose proof (finditer_from_starts fl r s (S pos) (Re.m_end m - pos - 1)) as F.
    rewrite Forall_forall in F. apply F in H. lia.
Qed.

(** The line of a later offset is not smaller. *)
Lemma count_firstn_mono c (s : text) a b :
  a <= b -> Py.count c (firstn a s) <= Py.count c (firstn b s).
Proof.
  revert a b. induction s as [|x s IH]; intros a b H.
  - now rewrite !firstn_nil.
  - destruct a, b; simpl; try lia.
    specialize (IH a b). lia.
Qed.

Lemma line_of_mono content m1 m2 :
  Re.m_start m1 <= Re.m_start m2 -> line_of content m1 <= line_of content m2.
Proof.
  intros H. unfold line_of.
  pose proof (count_firstn_mono newline content _ _ H). lia.
Qed.

(** ** Matching under [re.IGNORECASE] does not see the case of letters *)

Lemma in_run_expand c r t :
  Re.in_run c r = Some t -> In (c, t) (expand_run r).
Proof.
  destruct r as [[[first count] step] target]. unfold Re.in_run, expand_run.
  destruct ((first <=? c) && (c <? first + count * step)
            && ((c - first) mod step =? 0))%N eqn:E; [|discriminate].
  intros [= <-].
  apply andb_prop in E as [E E3]. apply andb_prop in E as [E1 E2].
  apply N.leb_le in E1. apply N.ltb_lt in E2. apply N.eqb_eq in E3.
  assert (Hs : step <> 0%N).
  { intros ->. rewrite N.mul_0_r in E2. lia. }
  pose proof (N.div_mod (c - first) step Hs) as D. rewrite E3 in D.
  set (q := ((c - first) / step)%N) in *.
  assert (Hq : (q < count)%N) by nia.
  apply in_map_iff. exists (N.to_nat q). rewrite N2Nat.id. split.
  - f_equal; lia.
  - apply in_seq. lia.
Qed.

Lemma lookup_runs_expand c rs t :
  Re.lookup_runs c rs = Some t -> In (c, t) (flat_map expand_run rs).
Proof.
  induction rs as [|r rs IH]; simpl; [discriminate|].
  destruct (Re.in_run c r) as [t'|] eqn:E.
  - intros [= <-]. apply in_or_app. left. now apply in_run_expand.
  - intros H. apply in_or_app. right. auto.
Qed.

Lemma lower_runs_letters :
  forallb (fun p => is_letter_pair (fst p) (Re.least_case (snd p)))
    (flat_map expand_run Re.lower_runs) = true.
Proof. vm_compute. reflexivity. Qed.

Lemma extra_cases_letters :
  forallb (fun cls =>
             match cls with
             | least :: _ =>
                 forallb (fun x => (x =? least)%N || is_letter_pair x least) cls
             | [] => false
             end) Re.extra_cases = true.
Proof. vm_compute. reflexivity. Qed.

Lemma fold_cases c :
  Re.fold c = c
  \/ ((65 <= c)%N /\ (97 <= Re.fold c)%N
      /\ Re.isspace c = false /\ Re.isspace (Re.fold c) = false).
Proof.
  assert (P : forall l, is_letter_pair c l = true ->
                (65 <= c)%N /\ (97 <= l)%N
                /\ Re.isspace c = false /\ Re.isspace l = false).
  { intros l H. unfold is_letter_pair in H.
    apply andb_prop in H as [H H4]. apply andb_prop in H as [H H3].
    apply andb_prop in H as [H1 H2].
    apply N.leb_le in H1. apply N.leb_le in H2.
    apply negb_true_iff in H3. apply negb_true_iff in H4. auto. }
  unfold Re.fold, Re.tolower.
  destruct (Re.lookup_runs c Re.lower_runs) as [t|] eqn:E.
  - right. apply P. apply lookup_runs_expand in E.
    exact (proj1 (forallb_forall _ _) lower_runs_letters (c, t) E).
  - unfold Re.least_case.
    destruct (find (existsb (N.eqb c)) Re.extra_cases) as [cls|] eqn:F;
      [|now left].
    apply find_some in F as [Hin Hc].
    pose proof (proj1 (forallb_forall _ _) extra_cases_letters cls Hin) as H.
    destruct cls as [|least cls']; [discriminate H|].
    apply existsb_exists in Hc as (x & Hx & Ex). apply N.eqb_eq in Ex. subst x.
    pose proof (proj1 (forallb_forall _ _) H c Hx) as Hc.
    apply orb_prop in Hc as [Hc|Hc].
    + left. apply N.eqb_eq in Hc. now symmetry.
    + right. now apply P.
Qed.

Lemma isspace_true c :
  Re.isspace c = true ->
  ((9 <= c <= 13) \/ (28 <= c <= 32) \/ c = 133 \/ c = 160 \/ c = 5760
   \/ (8192 <= c <= 8202) \/ c = 8232 \/ c = 8233 \/ c = 8239 \/ c = 8287
   \/ c = 12288)%N.
Proof.
  unfold Re.isspace.
  rewrite !orb_true_iff, !andb_true_iff, !N.leb_le, !N.eqb_eq. tauto.
Qed.

Lemma isspace_fold c : Re.isspace (Re.fold c) = Re.isspace c.
Proof.
  destruct (fold_cases c) as [->|(_ & _ & H1 & H2)]; [reflexivity|].
  now rewrite H1, H2.
Qed.

Lemma fold_newline c : (Re.fold c =? newline)%N = (c =? newline)%N.
Proof.
  unfold newline.
  destruct (fold_cases c) as [->|(Hc & Hf & _)]; [reflexivity|].
  destruct (N.eqb_spec (Re.fold c) 10), (N.eqb_spec c 10);
    first [reflexivity|lia].
Qed.

Lemma atom_match_fold fl a c c' :
  Re.icase fl = true -> Re.fold c = Re.fold c' ->
  Re.atom_match fl a c = Re.atom_match fl a c'.
Proof.
  intros Hi Hc.
  assert (He : forall p, Re.char_eqb fl c p = Re.char_eqb fl c' p)
    by (intros p; unfold Re.char_eqb; rewrite Hi, Hc; reflexivity).
  destruct a as [p| | |neg its]; simpl.
  - apply He.
  - now rewrite <- (fold_newline c), <- (fold_newline c'), Hc.
  - now rewrite <- (isspace_fold c), <- (isspace_fold c'), Hc.
  - f_equal.
    induction its as [|i its IH]; simpl; [reflexivity|].
    rewrite IH. f_equal. destruct i as [p|lo hi]; simpl; [apply He|].
    rewrite Hi. induction (Re.enum lo hi) as [|q l IHl]; simpl; [reflexivity|].
    now rewrite He, IHl.
Qed.

Lemma same_letters_cons c s c' s' :
  same_letters (c :: s) (c' :: s') <->
  Re.fold c = Re.fold c' /\ same_letters s s'.
Proof.
  unfold same_letters. simpl. split.
  - intros H. injection H. auto.
  - intros [-> ->]. reflexivity.
Qed.

Lemma same_letters_nil_l s : same_letters [] s -> s = [].
Proof. destruct s; [auto|discriminate]. Qed.

Lemma same_letters_nil_r s : same_letters s [] -> s = [].
Proof. destruct s; [auto|discriminate]. Qed.

Lemma same_letters_refl s : same_letters s s.
Proof. reflexivity. Qed.

Lemma same_letters_sym s t : same_letters s t -> same_letters t s.
Proof. unfold same_letters. auto. Qed.

Lemma same_letters_length s t :
  same_letters s t -> List.length s = List.length t.
Proof.
  unfold same_letters. intros H.
  rewrite <- (length_map Re.fold s), H. apply length_map.
Qed.

Lemma same_letters_firstn n s t :
  same_letters s t -> same_letters (firstn n s) (firstn n t).
Proof. unfold same_letters. intros H. now rewrite <- !firstn_map, H. Qed.

Lemma same_letters_skipn n s t :
  same_letters s t -> same_letters (skipn n s) (skipn n t).
Proof. unfold same_letters. intros H. now rewrite <- !skipn_map, H. Qed.

Lemma same_letters_app s1 t1 s2 t2 :
  same_letters s1 t1 -> same_letters s2 t2 ->
  same_letters (s1 ++ s2) (t1 ++ t2).
Proof. unfold same_letters. intros H1 H2. now rewrite !map_app, H1, H2. Qed.

(** Destructs two related texts together. *)
Ltac same_letters_cases s t H :=
  destruct s as [|? s], t as [|? t];
  [ | discriminate H | discriminate H
    | apply same_letters_cons in H as [? H] ].

Section IgnoreCase.
Variable fl : Re.flags.
Hypothesis icase_on : Re.icase fl = true.
Variable R : Type.

(** Two continuations that agree on texts equal up to case. *)
Definition agree (k k' : text -> nat -> option R) : Prop :=
  forall s t p, same_letters s t -> k s p = k' t p.

Lemma exactly_same_letters n a k k' : agree k k' ->
  agree (Re.exactly fl n a k) (Re.exactly fl n a k').
Proof.
  intros Hk. induction n as [|n IH]; intros s t p H; simpl.
  - now apply Hk.
  - same_letters_cases s t H; [reflexivity|].
    rewrite (@atom_match_fold fl a c c0) by assumption.
    destruct (Re.atom_match fl a c0); [|reflexivity]. now apply IH.
Qed.

Lemma greedy_same_letters a k k' : agree k k' ->
  agree (Re.greedy fl a k) (Re.greedy fl a k').
Proof.
  intros Hk s. induction s as [|c s IH]; intros t p H.
  - apply same_letters_nil_l in H as ->. simpl. now apply Hk.
  - destruct t as [|c' t]; [discriminate H|].
    pose proof H as H0. apply same_letters_cons in H as [Hc H]. simpl.
    rewrite (@atom_match_fold fl a c c') by assumption.
    rewrite (IH t (S p) H), (Hk _ _ p H0). reflexivity.
Qed.

Lemma lazy_same_letters a k k' : agree k k' ->
  agree (Re.lazy fl a k) (Re.lazy fl a k').
Proof.
  intros Hk s. induction s as [|c s IH]; intros t p H.
  - apply same_letters_nil_l in H as ->. simpl.
    now rewrite (Hk [] [] p (same_letters_refl [])).
  - destruct t as [|c' t]; [discriminate H|].
    pose proof H as H0. apply same_letters_cons in H as [Hc H]. simpl.
    rewrite (@atom_match_fold fl a c c') by assumption.
    rewrite (IH t (S p) H), (Hk _ _ p H0). reflexivity.
Qed.

Lemma run_same_letters r : forall s t p cs (k k' : Re.cont R),
  same_letters s t ->
  (forall s' t' p' cs', same_letters s' t' -> k s' p' cs' = k' t' p' cs') ->
  Re.run fl r s p cs k = Re.run fl r t p cs k'.
Proof.
  induction r as [|a|r1 IH1 r2 IH2|r1 IH1 r2 IH2|a least g|n r IH];
    intros s t p cs k k' H Hk; simpl.
  - now apply Hk.
  - same_letters_cases s t H; [reflexivity|].
    rewrite (@atom_match_fold fl a c c0) by assumption.
    destruct (Re.atom_match fl a c0); [|reflexivity]. now apply Hk.
  - apply IH1; [assumption|]. intros s' t' p' cs' H'. now apply IH2.
  - rewrite (IH1 s t p cs k k'), (IH2 s t p cs k k') by assumption.
    reflexivity.
  - apply exactly_same_letters; [|assumption].
    intros s' t' p' H'.
    destruct g; [apply greedy_same_letters|apply lazy_same_letters];
      try assumption; intros s'' t'' p'' H''; now apply Hk.
  - apply IH; [assumption|]. intros s' t' p' cs' H'. now apply Hk.
Qed.

End IgnoreCase.

Lemma match_here_same_letters fl r s t pos :
  Re.icase fl = true -> same_letters s t ->
  Re.match_here fl r s pos = Re.match_here fl r t pos.
Proof.
  intros Hi H. unfold Re.match_here. now apply run_same_letters.
Qed.

Lemma search_same_letters fl r s t :
  Re.icase fl = true -> same_letters s t ->
  Re.search fl r s = Re.search fl r t.
Proof.
  intros Hi. unfold Re.search. generalize 0 as pos. revert t.
  induction s as [|c s IH]; intros t pos H.
  - apply same_letters_nil_l in H as ->. reflexivity.
  - destruct t as [|c' t]; [discriminate H|].
    pose proof H as H0. apply same_letters_cons in H as [Hc H]. simpl.
    rewrite (match_here_same_letters fl r _ _ pos Hi H0), (IH t (S pos) H).
    reflexivity.
Qed.

Lemma found_same_letters fl r s t :
  Re.icase fl = true -> same_letters s t ->
  Re.found fl r s = Re.found fl r t.
Proof.
  intros Hi H. unfold Re.found. now rewrite (search_same_letters fl r s t Hi H).
Qed.

Lemma finditer_same_letters fl r s t :
  Re.icase fl = true -> same_letters s t ->
  Re.finditer fl r s = Re.finditer fl r t.
Proof.
  intros Hi. unfold Re.finditer. generalize 0 at 2 4 as skip.
  generalize 0 as pos. revert t.
  induction s as [|c s IH]; intros t pos skip H.
  - apply same_letters_nil_l in H as ->. reflexivity.
  - destruct t as [|c' t]; [discriminate H|].
    pose proof H as H0. apply same_letters_cons in H as [Hc H]. simpl.
    destruct skip as [|k]; [|now apply IH].
    rewrite (match_here_same_letters fl r _ _ pos Hi H0).
    destruct (Re.match_here fl r (c' :: t) pos); [f_equal|]; now apply IH.
Qed.

Lemma slice_same_letters s t a b :
  same_letters s t -> same_letters (Re.slice s a b) (Re.slice t a b).
Proof.
  intros H. unfold Re.slice.
  now apply same_letters_firstn, same_letters_skipn.
Qed.

Lemma group_same_letters s t n m :
  same_letters s t ->
  same_letters (Re.group_or_empty s n m) (Re.group_or_empty t n m).
Proof.
  intros H. unfold Re.group_or_empty, Re.group.
  destruct (Re.lookup n (Re.m_caps m)) as [[a b]|];
    [now apply slice_same_letters|reflexivity].
Qed.

Lemma has_attr_same_letters name s t :
  same_letters s t -> has_attr name s = has_attr name t.
Proof. intros H. now apply found_same_letters. Qed.

Lemma count_newline_same_letters s t :
  same_letters s t -> Py.count newline s = Py.count newline t.
Proof.
  revert t. induction s as [|c s IH]; intros t H.
  - apply same_letters_nil_l in H as ->. reflexivity.
  - destruct t as [|c' t]; [discriminate H|].
    apply same_letters_cons in H as [Hc H]. simpl.
    rewrite <- (fold_newline c), <- (fold_newline c'), Hc, (IH t H).
    reflexivity.
Qed.

Lemma line_of_same_letters s t m :
  same_letters s t -> line_of s m = line_of t m.
Proof.
  intros H. unfold line_of.
  now rewrite (count_newline_same_letters _ _ (same_letters_firstn _ _ _ H)).
Qed.

(** The rules of the mobile script decide the same on two texts equal
    up to case. *)
Section MobileIgnoresCase.
Variables (rel s t : text).
Hypothesis H : same_letters s t.

Ltac same_tests :=
  repeat match goal with
  | |- context [has_attr ?n (Re.group_or_empty s ?i ?m)] =>
      rewrite (has_attr_same_letters n _ _ (group_same_letters s t i m H))
  | |- context [Re.found Re.IGNORECASE ?r (Re.group_or_empty s ?i ?m)] =>
      rewrite (found_same_letters Re.IGNORECASE r _ _ eq_refl
                 (group_same_letters s t i m H))
  end.

Ltac same_verdicts :=
  repeat match goal with
  | |- context [has_attr ?n ?a] => generalize (has_attr n a); intros ?b
  | |- context [Re.found ?f ?r ?a] => generalize (Re.found f r a); intros ?b
  end;
  repeat match goal with b : bool |- _ => destruct b end;
  cbn [negb andb orb List.map]; unfold verdict;
  cbn [line issue severity recommendation];
  rewrite ?(line_of_same_letters s t _ H); reflexivity.

Lemma touchable_rule_same m :
  List.map verdict (Mobile.touchable_rule rel s m)
  = List.map verdict (Mobile.touchable_rule rel t m).
Proof. unfold Mobile.touchable_rule. same_tests. same_verdicts. Qed.

Lemma image_rule_same m :
  List.map verdict (Mobile.image_rule rel s m)
  = List.map verdict (Mobile.image_rule rel t m).
Proof. unfold Mobile.image_rule. same_tests. same_verdicts. Qed.

Lemma textinput_rule_same m :
  List.map verdict (Mobile.textinput_rule rel s m)
  = List.map verdict (Mobile.textinput_rule rel t m).
Proof. unfold Mobile.textinput_rule. same_tests. same_verdicts. Qed.

Lemma button_rule_same m :
  List.map verdict (Mobile.button_rule rel s m)
  = List.map verdict (Mobile.button_rule rel t m).
Proof. unfold Mobile.button_rule. same_tests. same_verdicts. Qed.

Lemma view_rule_same m :
  List.map verdict (Mobile.view_rule rel s m)
  = List.map verdict (Mobile.view_rule rel t m).
Proof. unfold Mobile.view_rule. same_tests. same_verdicts. Qed.

Lemma loop_same p rule rule' :
  (forall m, List.map verdict (rule m) = List.map verdict (rule' m)) ->
  List.map verdict (Mobile.loop s p rule)
  = List.map verdict (Mobile.loop t p rule').
Proof.
  intros Hr. unfold Mobile.loop, Mobile.occurrences.
  rewrite (finditer_same_letters Re.IGNORECASE p s t eq_refl H).
  induction (Re.finditer Re.IGNORECASE p t) as [|m l IH]; simpl;
    [reflexivity|].
  now rewrite !map_app, Hr, IH.
Qed.

Lemma audit_content_same :
  List.map verdict (Mobile.audit_content rel s)
  = List.map verdict (Mobile.audit_content rel t).
Proof.
  unfold Mobile.audit_content. rewrite !map_app.
  rewrite (loop_same _ _ _ touchable_rule_same),
          (loop_same _ _ _ image_rule_same),
          (loop_same _ _ _ textinput_rule_same),
          (loop_same _ _ _ button_rule_same),
          (loop_same _ _ _ view_rule_same).
  reflexivity.
Qed.

End MobileIgnoresCase.

(** ** What the attribute tests find *)

Lemma matches_seq_inv fl r1 r2 s p cs s' p' cs' :
  matches fl (Re.Seq r1 r2) s p cs s' p' cs' ->
  exists s1 p1 cs1,
    matches fl r1 s p cs s1 p1 cs1 /\ matches fl r2 s1 p1 cs1 s' p' cs'.
Proof. inversion 1; subst. eauto. Qed.

Lemma matches_atom_inv fl a s p cs s' p' cs' :
  matches fl (Re.Atom a) s p cs s' p' cs' ->
  exists c, s = c :: s' /\ p' = S p /\ cs' = cs /\ Re.atom_match fl a c = true.
Proof. inversion 1; subst. eauto. Qed.

Lemma matches_rep_inv fl a least g s p cs s' p' cs' :
  matches fl (Re.Rep a least g) s p cs s' p' cs' ->
  exists w, s = w ++ s' /\ p' = p + List.length w /\ cs' = cs
    /\ least <= List.length w /\ forallb (Re.atom_match fl a) w = true.
Proof. inversion 1; subst. eauto 6. Qed.

Lemma matches_group_inv fl n r s p cs s' p' cs' :
  matches fl (Re.Group n r) s p cs s' p' cs' ->
  exists cs1, cs' = (n, (p, p')) :: cs1 /\ matches fl r s p cs s' p' cs1.
Proof. inversion 1; subst. eauto. Qed.

Lemma matches_alt_inv fl r1 r2 s p cs s' p' cs' :
  matches fl (Re.Alt r1 r2) s p cs s' p' cs' ->
  matches fl r1 s p cs s' p' cs' \/ matches fl r2 s p cs s' p' cs'.
Proof. inversion 1; subst; auto. Qed.

Lemma matches_lits_inv fl v : forall s p cs s' p' cs',
  matches fl (Re.lits v) s p cs s' p' cs' ->
  exists u, s = u ++ s' /\ p' = p + List.length u /\ cs' = cs /\ reads_as fl u v.
Proof.
  induction v as [|a v IH]; intros s p cs s' p' cs' M; simpl in M.
  - inversion M; subst. exists []. rewrite Nat.add_0_r. repeat split. constructor.
  - apply matches_seq_inv in M as (s1 & p1 & cs1 & M1 & M2).
    apply matches_atom_inv in M1 as (c & -> & -> & -> & Hc).
    apply IH in M2 as (u & -> & -> & -> & Hu).
    exists (c :: u). simpl. repeat split; [lia|]. now constructor.
Qed.

Lemma matches_lits_intro fl u v s p cs :
  reads_as fl u v ->
  matches fl (Re.lits v) (u ++ s) p cs s (p + List.length u) cs.
Proof.
  intros H. revert p. induction H as [|c a u v Hc _ IH]; intros p; simpl.
  - rewrite Nat.add_0_r. constructor.
  - eapply MSeq; [constructor; exact Hc|].
    replace (p + S (List.length u)) with (S p + List.length u) by lia.
    apply IH.
Qed.

Lemma reads_as_icase u v : reads_as Re.IGNORECASE u v <-> same_letters u v.
Proof.
  unfold reads_as, same_letters, Re.char_eqb. simpl. split.
  - induction 1 as [|c a u v Hc _ IH]; simpl; [reflexivity|].
    apply N.eqb_eq in Hc. now rewrite Hc, IH.
  - revert v. induction u as [|c u IH]; intros [|a v] H; try discriminate H.
    + constructor.
    + simpl in H. injection H as Hc H. constructor; [now apply N.eqb_eq|auto].
Qed.

Lemma reads_as_exact u v : reads_as Re.NOFLAG u v <-> u = v.
Proof.
  unfold reads_as, Re.char_eqb. simpl. split.
  - induction 1 as [|c a u v Hc _ IH]; [reflexivity|].
    apply N.eqb_eq in Hc. now rewrite Hc, IH.
  - intros ->. induction v; constructor; [apply N.eqb_refl|assumption].
Qed.

(** A character that is not a letter is compared as it is. *)
Lemma char_eqb_uncased fl c p :
  (p < 65)%N -> Re.char_eqb fl c p = (c =? p)%N.
Proof.
  intros Hp. unfold Re.char_eqb. destruct (Re.icase fl); [|reflexivity].
  destruct (fold_cases p) as [->|(Hc & _)]; [|lia].
  destruct (fold_cases c) as [->|(Hc & Hf & _)]; [reflexivity|].
  destruct (N.eqb_spec (Re.fold c) p), (N.eqb_spec c p);
    first [reflexivity|lia].
Qed.

Lemma atom_match_quote fl c : Re.atom_match fl Re.quote c = is_quote c.
Proof.
  unfold is_quote. cbn [Re.atom_match Re.quote existsb Re.item_match xorb].
  rewrite !char_eqb_uncased by (unfold dquote, squote; lia).
  now rewrite orb_false_r.
Qed.

Lemma reads_as_equals fl u : reads_as fl u [ch "="] -> u = [ch "="].
Proof.
  intros H. inversion H as [|c a u' v' Hc Hu]; subst.
  inversion Hu; subst.
  rewrite char_eqb_uncased in Hc by (vm_compute; reflexivity).
  apply N.eqb_eq in Hc. now subst.
Qed.

Lemma reads_as_equals_intro fl : reads_as fl [ch "="] [ch "="].
Proof.
  repeat constructor. rewrite char_eqb_uncased by (vm_compute; reflexivity).
  apply N.eqb_refl.
Qed.

(** The matches of [name\s*=]. *)
Lemma matches_attr fl name s p cs s' p' cs' :
  matches fl (attr name) s p cs s' p' cs' <->
  exists n ws,
    s = n ++ ws ++ ch "=" :: s'
    /\ p' = p + List.length n + List.length ws + 1 /\ cs' = cs
    /\ reads_as fl n (str name) /\ forallb Re.isspace ws = true.
Proof.
  unfold attr, Re.lit, Re.star. split.
  - intros M.
    apply matches_seq_inv in M as (s1 & p1 & cs1 & M1 & M).
    apply matches_seq_inv in M as (s2 & p2 & cs2 & M2 & M3).
    apply matches_lits_inv in M1 as (n & -> & -> & -> & Hn).
    apply matches_rep_inv in M2 as (ws & -> & -> & -> & _ & Hws).
    apply matches_lits_inv in M3 as (e & -> & -> & -> & He).
    apply reads_as_equals in He as ->.
    exists n, ws. simpl. repeat split; first [assumption|reflexivity|lia].
  - intros (n & ws & -> & -> & -> & Hn & Hws).
    eapply MSeq; [apply matches_lits_intro; exact Hn|].
    eapply MSeq; [apply MRep; [lia|exact Hws]|].
    replace (p + List.length n + List.length ws + 1)
      with (p + List.length n + List.length ws + List.length [ch "="])
      by (simpl; lia).
    apply (matches_lits_intro fl [ch "="] [ch "="]).
    apply reads_as_equals_intro.
Qed.

(** [has_attr]: the attribute span names the attribute. *)
Lemma has_attr_iff name s :
  has_attr name s = true <-> names_attr (str name) s.
Proof.
  unfold has_attr, names_attr. rewrite found_iff. split.
  - intros (pre & rest & s' & p' & cs' & -> & M).
    apply matches_attr in M as (n & ws & -> & _ & _ & Hn & Hws).
    apply reads_as_icase in Hn. exists pre, n, ws, s'. auto.
  - intros (pre & n & ws & post & -> & Hn & Hws).
    exists pre, (n ++ ws ++ ch "=" :: post), post.
    do 2 eexists. split; [reflexivity|].
    apply matches_attr. exists n, ws.
    repeat split; auto. now apply reads_as_icase.
Qed.

(** The matches of [name\s*=\s*Q...Q], whatever stands between the
    quotes. *)
Lemma matches_attr_value_inv fl name value s p cs s' p' cs' :
  matches fl (attr_value name value) s p cs s' p' cs' ->
  exists n ws1 ws2 q1 mid q2 p1,
    s = n ++ ws1 ++ ch "=" :: ws2 ++ q1 :: mid ++ q2 :: s'
    /\ reads_as fl n (str name)
    /\ forallb Re.isspace ws1 = true /\ forallb Re.isspace ws2 = true
    /\ is_quote q1 = true /\ is_quote q2 = true
    /\ p1 = p + List.length (n ++ ws1 ++ ch "=" :: ws2 ++ [q1])
    /\ matches fl value (mid ++ q2 :: s') p1 cs (q2 :: s')
         (p1 + List.length mid) cs'.
Proof.
  unfold attr_value, Re.lit, Re.star. intros M.
  apply matches_seq_inv in M as (s1 & p1 & cs1 & M1 & M).
  apply matches_seq_inv in M as (s2 & p2 & cs2 & M2 & M).
  apply matches_seq_inv in M as (s3 & p3 & cs3 & M3 & M).
  apply matches_seq_inv in M as (s4 & p4 & cs4 & M4 & M).
  apply matches_seq_inv in M as (s5 & p5 & cs5 & M5 & M).
  apply matches_seq_inv in M as (s6 & p6 & cs6 & M6 & M7).
  apply matches_lits_inv in M1 as (n & -> & -> & -> & Hn).
  apply matches_rep_inv in M2 as (ws1 & -> & -> & -> & _ & Hws1).
  apply matches_lits_inv in M3 as (e & -> & -> & -> & He).
  apply reads_as_equals in He as ->.
  apply matches_rep_inv in M4 as (ws2 & -> & -> & -> & _ & Hws2).
  apply matches_atom_inv in M5 as (q1 & -> & -> & -> & Hq1).
  apply matches_atom_inv in M7 as (q2 & -> & -> & -> & Hq2).
  rewrite atom_match_quote in Hq1, Hq2.
  pose proof (matches_prefix _ _ _ _ _ _ _ _ M6) as (mid & -> & ->).
  exists n, ws1, ws2, q1, mid, q2. eexists.
  repeat split; try assumption.
  replace (p + List.length (n ++ ws1 ++ ch "=" :: ws2 ++ [q1]))
    with (S (p + List.length n + List.length ws1 + List.length [ch "="]
             + List.length ws2)).
  - exact M6.
  - rewrite !length_app. simpl. rewrite length_app. simpl. lia.
Qed.

Lemma matches_attr_value_intro fl name value n ws1 ws2 q1 mid q2 s' p cs cs' :
  reads_as fl n (str name) ->
  forallb Re.isspace ws1 = true -> forallb Re.isspace ws2 = true ->
  is_quote q1 = true -> is_quote q2 = true ->
  (forall p1, matches fl value (mid ++ q2 :: s') p1 cs (q2 :: s')
                (p1 + List.length mid) cs') ->
  exists p',
    matches fl (attr_value name value)
      (n ++ ws1 ++ ch "=" :: ws2 ++ q1 :: mid ++ q2 :: s') p cs s' p' cs'.
Proof.
  intros Hn Hws1 Hws2 Hq1 Hq2 Hv. unfold attr_value, Re.lit, Re.star.
  eexists.
  eapply MSeq; [apply matches_lits_intro; exact Hn|].
  eapply MSeq; [apply MRep; [lia|exact Hws1]|].
  eapply MSeq;
    [apply (matches_lits_intro fl [ch "="] [ch "="]), reads_as_equals_intro|].
  eapply MSeq; [apply MRep; [lia|exact Hws2]|].
  eapply MSeq; [constructor; rewrite atom_match_quote; exact Hq1|].
  eapply MSeq; [apply Hv|].
  constructor. rewrite atom_match_quote. exact Hq2.
Qed.

(** A search for [name\s*=\s*QvalueQ] succeeds exactly when the text
    gives the attribute that value, as the flags compare it. *)
Lemma found_attr_value fl name v s :
  Re.found fl (attr_value name (Re.lits v)) s = true
  <-> holds_attr (reads_as fl) (str name) v s.
Proof.
  unfold holds_attr. rewrite found_iff. split.
  - intros (pre & rest & s' & p' & cs' & -> & M).
    apply matches_attr_value_inv in M
      as (n & ws1 & ws2 & q1 & mid & q2 & p1 & -> & Hn & H1 & H2 & Hq1 & Hq2 & _ & M).
    apply matches_lits_inv in M as (u & Hu & _ & _ & Hv).
    apply app_inv_tail in Hu as ->.
    exists pre, n, ws1, ws2, q1, u, q2, s'. auto 10.
  - intros (pre & n & ws1 & ws2 & q1 & w & q2 & post & -> & Hn & H1 & H2 & Hq1 & Hq2 & Hw).
    destruct (matches_attr_value_intro fl name (Re.lits v) n ws1 ws2 q1 w q2
                post (List.length pre) [] [] Hn H1 H2 Hq1 Hq2) as [p' M].
    + intros p1. now apply matches_lits_intro.
    + exists pre. do 4 eexists. split; [reflexivity|exact M].
Qed.

(** The same, for the patterns with a literal value, which the scripts
    match with [re.IGNORECASE]. *)
Lemma attr_value_lit_iff name value s :
  Re.found Re.IGNORECASE (attr_value name (Re.lit value)) s = true
  <-> holds_attr same_letters (str name) (str value) s.
Proof.
  unfold Re.lit. rewrite found_attr_value.
  unfold holds_attr.
  split; intros (pre & n & ws1 & ws2 & q1 & w & q2 & post & E & Hn & H1 & H2 & Hq1 & Hq2 & Hw);
    exists pre, n, ws1, ws2, q1, w, q2, post;
    repeat split; try assumption; now apply reads_as_icase.
Qed.

Lemma startswith_iff p s :
  Py.startswith p s = true <-> exists b, s = p ++ b.
Proof.
  revert s. induction p as [|a p IH]; intros s; simpl.
  - split; eauto.
  - destruct s as [|c s].
    + split; [discriminate|]. now intros [b Hb].
    + rewrite andb_true_iff, N.eqb_eq, IH. split.
      * intros [-> [b ->]]. eauto.
      * intros [b Hb]. injection Hb as -> ->. eauto.
Qed.

(** [p in s]: the text [p] stands somewhere in [s]. *)
Lemma contains_iff p s :
  Py.contains p s = true <-> occurs_in p s.
Proof.
  unfold occurs_in. induction s as [|c s IH]; simpl.
  - rewrite orb_false_r, startswith_iff. split.
    + intros [b Hb]. exists [], b. exact Hb.
    + intros (a & b & H). destruct a; [eauto|discriminate].
  - rewrite orb_true_iff, startswith_iff, IH. split.
    + intros [[b Hb]|(a & b & ->)].
      * exists [], b. exact Hb.
      * exists (c :: a), b. reflexivity.
    + intros (a & b & H). destruct a as [|x a].
      * left. eauto.
      * right. injection H as -> ->. eauto.
Qed.

Lemma forallb_pointwise {A : Type} (f g : A -> bool) (l : list A) :
  (forall x, f x = g x) -> forallb f l = forallb g l.
Proof. intros H. induction l as [|x l IH]; simpl; [reflexivity|]. now rewrite H, IH. Qed.

Lemma slice_middle (content x mid y : text) (a b : nat) :
  content = x ++ mid ++ y -> a = List.length x -> b = a + List.length mid ->
  Re.slice content a b = mid.
Proof.
  intros -> -> ->. unfold Re.slice.
  rewrite skipn_app, Nat.sub_diag, skipn_all. simpl.
  replace (List.length x + List.length mid - List.length x)
    with (List.length mid + 0) by lia.
  rewrite firstn_app_2. simpl. apply app_nil_r.
Qed.

(** The identifier that the script reads is the value that the
    attribute span gives to [id]: not empty, and without a quote. *)
Lemma input_id_sound attributes id :
  Web.input_id attributes = Some id ->
  holds_attr same_letters (str "id") id attributes
  /\ id <> [] /\ forallb (fun c => negb (is_quote c)) id = true.
Proof.
  unfold Web.input_id, Re.search.
  destruct (Re.search_from Re.IGNORECASE Web.id_pattern attributes 0)
    as [m|] eqn:E; [|discriminate].
  intros H. injection H as <-.
  apply search_from_inv in E as (pre & rest & -> & E).
  apply match_here_inv in E as (_ & s' & M).
  apply matches_attr_value_inv in M
    as (n & ws1 & ws2 & q1 & mid & q2 & p1 & -> & Hn & H1 & H2 & Hq1 & Hq2 & Hp & M).
  apply matches_group_inv in M as (cs1 & Hcs & M).
  apply matches_rep_inv in M as (w & Hw & _ & _ & Hlen & Hnq).
  apply app_inv_tail in Hw as <-.
  assert (Hg : Re.group_or_empty
                 (pre ++ n ++ ws1 ++ ch "=" :: ws2 ++ q1 :: mid ++ q2 :: s') 1 m
               = mid).
  { unfold Re.group_or_empty, Re.group. rewrite Hcs. cbn [Re.lookup Nat.eqb].
    apply slice_middle
      with (x := pre ++ n ++ ws1 ++ ch "=" :: ws2 ++ [q1]) (y := q2 :: s').
    - rewrite <- !app_assoc. simpl. rewrite <- !app_assoc. reflexivity.
    - rewrite Hp, (length_app pre). lia.
    - reflexivity. }
  rewrite Hg. split; [|split].
  - exists pre, n, ws1, ws2, q1, mid, q2, s'.
    apply reads_as_icase in Hn. repeat split; auto.
  - destruct mid; [simpl in Hlen; lia|discriminate].
  - rewrite <- Hnq. apply forallb_pointwise. intros c.
    cbn [Re.atom_match Re.not_quote existsb Re.item_match xorb].
    rewrite !char_eqb_uncased by (unfold dquote, squote; lia).
    unfold is_quote. now rewrite orb_false_r.
Qed.

(** ** The occurrences of the tag patterns are opening tags *)

Lemma mobile_touchable_open_tag :
  Mobile.touchable_pattern
  = open_tag ["TouchableOpacity"; "TouchableHighlight";
              "TouchableWithoutFeedback"; "Pressable"].
Proof. reflexivity. Qed.

Lemma web_input_open_tag :
  Web.input_pattern = open_tag ["input"; "textarea"; "select"].
Proof. reflexivity. Qed.

Lemma web_modal_open_tag :
  Web.modal_pattern = open_tag ["Dialog"; "DialogContent"; "Modal"; "dialog"].
Proof. reflexivity. Qed.

Lemma matches_one_of_inv fl names : forall s p cs s' p' cs',
  names <> [] ->
  matches fl (one_of names) s p cs s' p' cs' ->
  exists name tag, In name names /\ s = tag ++ s'
    /\ p' = p + List.length tag /\ cs' = cs /\ reads_as fl tag (str name).
Proof.
  induction names as [|name rest IH]; intros s p cs s' p' cs' Hne M;
    [congruence|].
  assert (Hlit : matches fl (Re.lit name) s p cs s' p' cs' ->
            exists name0 tag, In name0 (name :: rest) /\ s = tag ++ s'
              /\ p' = p + List.length tag /\ cs' = cs
              /\ reads_as fl tag (str name0)).
  { intros L. apply matches_lits_inv in L as (tag & -> & -> & -> & Ht).
    exists name, tag. simpl. auto. }
  destruct rest as [|name' rest]; [now apply Hlit|].
  change (one_of (name :: name' :: rest))
    with (Re.Alt (Re.lit name) (one_of (name' :: rest))) in M.
  apply matches_alt_inv in M as [M|M]; [now apply Hlit|].
  apply IH in M as (name0 & tag & Hin & ? & ? & ? & ?); [|discriminate].
  exists name0, tag. simpl. auto.
Qed.

Lemma reads_as_single fl u p :
  (p < 65)%N -> reads_as fl u [p] -> u = [p].
Proof.
  intros Hp H. inversion H as [|c a u' v' Hc Hu]; subst.
  inversion Hu; subst.
  rewrite char_eqb_uncased in Hc by assumption.
  apply N.eqb_eq in Hc. now subst.
Qed.

Lemma atom_match_not_char fl a c :
  (ch a < 65)%N ->
  Re.atom_match fl (Re.not_char a) c = negb (N.eqb c (ch a)).
Proof.
  intros Ha. cbn [Re.atom_match Re.not_char existsb Re.item_match xorb].
  rewrite char_eqb_uncased by assumption. now rewrite orb_false_r.
Qed.

(** Every occurrence of a tag pattern is an opening tag, and its groups
    1 and 2 are the tag and the attribute span. *)
Lemma open_tag_occurrence names content m :
  names <> [] ->
  In m (Re.finditer Re.IGNORECASE (open_tag names) content) ->
  is_open_tag names content m
    (Re.group_or_empty content 1 m) (Re.group_or_empty content 2 m).
Proof.
  intros Hne H. apply finditer_inv in H as (pre & rest & s' & -> & Hs & M).
  unfold open_tag, Re.lit, Re.lazy_star in M.
  apply matches_seq_inv in M as (s1 & p1 & cs1 & M1 & M).
  apply matches_seq_inv in M as (s2 & p2 & cs2 & M2 & M).
  apply matches_seq_inv in M as (s3 & p3 & cs3 & M3 & M4).
  apply matches_lits_inv in M1 as (lt' & -> & -> & -> & Hlt).
  apply (reads_as_single _ _ (ch "<")) in Hlt as ->; [|vm_compute; reflexivity].
  apply matches_group_inv in M2 as (cs2' & -> & M2).
  apply matches_one_of_inv in M2 as (name & tag & Hin & -> & -> & -> & Htag);
    [|assumption].
  apply matches_group_inv in M3 as (cs3' & -> & M3).
  apply matches_rep_inv in M3 as (attrs & -> & -> & -> & _ & Hattrs).
  apply matches_lits_inv in M4 as (gt' & -> & He & Hcs & Hgt).
  apply (reads_as_single _ _ (ch ">")) in Hgt as ->; [|vm_compute; reflexivity].
  match goal with |- is_open_tag _ ?c _ _ _ =>
    assert (G1 : Re.group_or_empty c 1 m = tag);
    [|assert (G2 : Re.group_or_empty c 2 m = attrs)]
  end.
  { unfold Re.group_or_empty, Re.group. rewrite Hcs. cbn [Re.lookup Nat.eqb].
    apply slice_middle
      with (x := pre ++ [ch "<"]) (y := attrs ++ [ch ">"] ++ s').
    - now rewrite <- app_assoc.
    - rewrite !length_app. reflexivity.
    - reflexivity. }
  { unfold Re.group_or_empty, Re.group. rewrite Hcs. cbn [Re.lookup Nat.eqb].
    apply slice_middle
      with (x := pre ++ [ch "<"] ++ tag) (y := [ch ">"] ++ s').
    - now rewrite <- !app_assoc.
    - rewrite !length_app. simpl. lia.
    - reflexivity. }
  rewrite G1, G2. exists pre, s'. split; [reflexivity|].
  split; [exact Hs|]. split.
  - rewrite He. cbn [List.length str]. simpl. lia.
  - split.
    + exists name. split; [exact Hin|]. now apply reads_as_icase.
    + rewrite (forallb_pointwise _
                 (Re.atom_match Re.IGNORECASE (Re.not_char ">")));
        [exact Hattrs|].
      intros c. symmetry. apply atom_match_not_char. vm_compute. reflexivity.
Qed.

Lemma matches_one_of_intro fl names name tag s p cs :
  In name names -> reads_as fl tag (str name) ->
  matches fl (one_of names) (tag ++ s) p cs s (p + List.length tag) cs.
Proof.
  intros Hin Ht. induction names as [|n rest IH]; [destruct Hin|].
  assert (L : forall n0, n0 = name ->
            matches fl (Re.lit n0) (tag ++ s) p cs s (p + List.length tag) cs)
    by (intros n0 ->; now apply matches_lits_intro).
  destruct rest as [|n' rest].
  - destruct Hin as [Hn|[]]. now apply L.
  - change (one_of (n :: n' :: rest))
      with (Re.Alt (Re.lit n) (one_of (n' :: rest))).
    destruct Hin as [Hn|Hin]; [apply MAltL; now apply L|].
    apply MAltR. now apply IH.
Qed.

(** An opening tag at the head of a text, whose name is one of the
    names up to the case of letters, is an occurrence. *)
Lemma open_tag_found names name tag attributes post :
  In name names -> same_letters tag (str name) ->
  forallb (fun c => negb (N.eqb c (ch ">"))) attributes = true ->
  exists m,
    In m (Re.finditer Re.IGNORECASE (open_tag names)
            (ch "<" :: tag ++ attributes ++ ch ">" :: post))
    /\ Re.m_start m = 0.
Proof.
  intros Hin Ht Ha.
  assert (M : matches Re.IGNORECASE (open_tag names)
                (ch "<" :: tag ++ attributes ++ ch ">" :: post) 0 []
                post (0 + 1 + List.length tag + List.length attributes + 1)
                [(2, (0 + 1 + List.length tag,
                      0 + 1 + List.length tag + List.length attributes));
                 (1, (0 + 1, 0 + 1 + List.length tag))]).
  { unfold open_tag.
    eapply MSeq;
      [apply (matches_lits_intro Re.IGNORECASE [ch "<"] [ch "<"]);
       repeat constructor|].
    eapply MSeq;
      [apply MGroup, matches_one_of_intro with (name := name);
       [exact Hin|now apply reads_as_icase]|].
    eapply MSeq.
    - apply MGroup. apply MRep; [lia|].
      rewrite (forallb_pointwise _ (fun c => negb (N.eqb c (ch ">"))));
        [exact Ha|].
      intros c. apply atom_match_not_char. vm_compute. reflexivity.
    - apply (matches_lits_intro Re.IGNORECASE [ch ">"] [ch ">"]).
      repeat constructor. }
  apply match_here_intro in M as [m Hm].
  exists m. split.
  - unfold Re.finditer, Re.finditer_from. fold Re.finditer_from.
    rewrite Hm. now left.
  - now apply match_here_bounds in Hm.
Qed.

(** ** C1: tag recognition and letter case *)

(** C1 (as the scripts behave).  Tag recognition ignores letter case in
    both dialects: every pattern is matched with [re.IGNORECASE].  An
    opening tag whose name is a configured name in another case is an
    occurrence, in the mobile script as in the web script.  Two source
    texts that differ only in the case of their letters have the same
    occurrences, at the same offsets, for every pattern of either
    script; in the mobile script they also get the same violations, up
    to the source text that a violation quotes. *)
Theorem C1_tag_recognition_ignores_case :
  (forall name tag attributes post,
      In name ["TouchableOpacity"; "TouchableHighlight";
               "TouchableWithoutFeedback"; "Pressable"] ->
      same_letters tag (str name) ->
      forallb (fun c => negb (N.eqb c (ch ">"))) attributes = true ->
      exists m,
        In m (Mobile.occurrences (ch "<" :: tag ++ attributes ++ ch ">" :: post)
                Mobile.touchable_pattern)
        /\ Re.m_start m = 0)
  /\ (forall name tag attributes post,
        In name ["input"; "textarea"; "select"] ->
        same_letters tag (str name) ->
        forallb (fun c => negb (N.eqb c (ch ">"))) attributes = true ->
        exists m,
          In m (Web.occurrences (ch "<" :: tag ++ attributes ++ ch ">" :: post)
                  Re.IGNORECASE Web.input_pattern)
          /\ Re.m_start m = 0)
  /\ (forall content content' : text,
        same_letters content content' ->
        (forall p, Mobile.occurrences content p = Mobile.occurrences content' p)
        /\ (forall relative_path,
              List.map verdict (Mobile.audit_content relative_path content)
              = List.map verdict (Mobile.audit_content relative_path content'))
        /\ (forall p, Web.occurrences content Re.IGNORECASE p
                      = Web.occurrences content' Re.IGNORECASE p)
        /\ (forall p, Web.occurrences content Re.IGNORECASE_DOTALL p
                      = Web.occurrences content' Re.IGNORECASE_DOTALL p)).
Proof.
  split; [|split].
  - intros name tag attributes post. apply open_tag_found.
  - intros name tag attributes post. apply open_tag_found.
  - intros content content' H. repeat split; intros.
    + now apply finditer_same_letters.
    + now apply audit_content_same.
    + now apply finditer_same_letters.
    + now apply finditer_same_letters.
Qed.

Lemma C1_witness :
  same_letters (str "touchableopacity") (str "TouchableOpacity")
  /\ (exists m,
        In m (Mobile.occurrences
                (ch "<" :: str "touchableopacity" ++ str " onPress={fn}"
                 ++ ch ">" :: str "Open")
                Mobile.touchable_pattern)
        /\ Re.m_start m = 0)
  /\ same_letters (str "<touchableopacity>") (str "<TouchableOpacity>")
  /\ Mobile.occurrences (str "<touchableopacity>") Mobile.touchable_pattern
     = Mobile.occurrences (str "<TouchableOpacity>") Mobile.touchable_pattern.
Proof.
  assert (T : same_letters (str "touchableopacity") (str "TouchableOpacity"))
    by (vm_compute; reflexivity).
  assert (H : same_letters (str "<touchableopacity>") (str "<TouchableOpacity>"))
    by (vm_compute; reflexivity).
  split; [exact T|]. split; [|split; [exact H|]].
  - apply (proj1 C1_tag_recognition_ignores_case "TouchableOpacity");
      [now left|exact T|vm_compute; reflexivity].
  - exact (proj1 (proj2 (proj2 C1_tag_recognition_ignores_case) _ _ H)
             Mobile.touchable_pattern).
Defined.

(** C1 as stated fails: in the mobile script the lower-case tag is an
    occurrence of the touchable pattern and gets its violation, exactly
    as the upper-case [<INPUT>] does in the web script. *)
Lemma C1_counterexample :
  Mobile.occurrences (str "<touchableopacity>") Mobile.touchable_pattern
  = [Re.MkMatch 0 18 [(2, (17, 17)); (1, (1, 17))]]
  /\ Mobile.audit_content (str "a.tsx") (str "<touchableopacity>")
     = [MkViolation (str "a.tsx") 1 (str "touchableopacity")
          (str "Touchable component missing accessibilityRole and accessibilityLabel")
          (str "error")
          (str "Add accessibilityRole and accessibilityLabel props")
          (str "<touchableopacity>")]
  /\ Web.occurrences (str "<INPUT>") Re.IGNORECASE Web.input_pattern
     = [Re.MkMatch 0 7 [(2, (6, 6)); (1, (1, 6))]].
Proof. vm_compute. repeat split. Qed.

(** ** C2: the touchable rule of the mobile script *)

(** C2.  Every occurrence of the touchable pattern in a mobile source
    is the opening tag of a touchable or pressable element.  With
    neither [accessibilityRole] nor [accessibilityLabel] named in its
    attribute span the rule yields exactly one violation, of severity
    error, whose issue and recommendation name both attributes; with the
    role and without the label it yields exactly one error that names
    the label only; with the label it yields nothing.  The violation
    carries the line of the occurrence and the tag as written. *)
Theorem C2_touchable_rule (relative_path content : text) (m : Re.Match) :
  In m (Mobile.occurrences content Mobile.touchable_pattern) ->
  let tag := Re.group_or_empty content 1 m in
  let attributes := Re.group_or_empty content 2 m in
  let role := names_attr (str "accessibilityRole") attributes in
  let label := names_attr (str "accessibilityLabel") attributes in
  let found := Mobile.touchable_rule relative_path content m in
  is_open_tag ["TouchableOpacity"; "TouchableHighlight";
               "TouchableWithoutFeedback"; "Pressable"]
    content m tag attributes
  /\ (~ role -> ~ label ->
      exists v, found = [v]
        /\ severity v = str "error"
        /\ line v = line_of content m
        /\ element v = tag
        /\ mentions (str "accessibilityRole") (issue v) = true
        /\ mentions (str "accessibilityLabel") (issue v) = true
        /\ mentions (str "accessibilityRole") (recommendation v) = true
        /\ mentions (str "accessibilityLabel") (recommendation v) = true)
  /\ (role -> ~ label ->
      exists v, found = [v]
        /\ severity v = str "error"
        /\ line v = line_of content m
        /\ element v = tag
        /\ mentions (str "accessibilityRole") (issue v) = false
        /\ mentions (str "accessibilityLabel") (issue v) = true
        /\ mentions (str "accessibilityRole") (recommendation v) = false
        /\ mentions (str "accessibilityLabel") (recommendation v) = true)
  /\ (label -> found = []).
Proof.
  intros H tag attributes role label found. subst role label found.
  split; [now apply open_tag_occurrence|].
  rewrite <- !has_attr_iff.
  unfold Mobile.touchable_rule. fold tag. fold attributes.
  destruct (has_attr "accessibilityRole" attributes),
           (has_attr "accessibilityLabel" attributes); cbn [negb andb];
    (split; [|split]); intros; try congruence;
    eexists; (split; [reflexivity|]);
    cbn [severity line element issue recommendation];
    repeat split; vm_compute; reflexivity.
Qed.

(** The end-to-end scenario of C2, a [TouchableOpacity] with a press
    handler and nothing else, and the same element with a label. *)
Lemma C2_witness :
  let bare := str "<TouchableOpacity onPress={fn}>" in
  let labelled := str "<TouchableOpacity accessibilityLabel='Open'>" in
  let m := Re.MkMatch 0 44 [(2, (17, 43)); (1, (1, 17))] in
  Mobile.audit_content (str "Card.tsx") bare
  = [MkViolation (str "Card.tsx") 1 (str "TouchableOpacity")
       (str "Touchable component missing accessibilityRole and accessibilityLabel")
       (str "error")
       (str "Add accessibilityRole and accessibilityLabel props")
       (str "<TouchableOpacity onPress={fn}>")]
  /\ In m (Mobile.occurrences labelled Mobile.touchable_pattern)
  /\ names_attr (str "accessibilityLabel") (Re.group_or_empty labelled 2 m)
  /\ Mobile.touchable_rule (str "Card.tsx") labelled m = [].
Proof.
  intros bare labelled m.
  assert (H : In m (Mobile.occurrences labelled Mobile.touchable_pattern))
    by (vm_compute; left; reflexivity).
  assert (L : names_attr (str "accessibilityLabel") (Re.group_or_empty labelled 2 m))
    by (apply has_attr_iff; vm_compute; reflexivity).
  split; [vm_compute; reflexivity|]. split; [exact H|]. split; [exact L|].
  exact (proj2 (proj2 (proj2
    (C2_touchable_rule (str "Card.tsx") labelled m H))) L).
Defined.

(** ** C3: form controls in the web script *)

Lemma holds_attr_ext (same same' : text -> text -> Prop) name value s :
  (forall u v, same u v <-> same' u v) ->
  holds_attr same name value s <-> holds_attr same' name value s.
Proof.
  intros H. unfold holds_attr.
  split; intros (pre & n & ws1 & ws2 & q1 & w & q2 & post & E & Hn & H1 & H2 & Hq1 & Hq2 & Hw);
    exists pre, n, ws1, ws2, q1, w, q2, post;
    repeat split; try assumption; now apply H.
Qed.

(** The cross-reference: the attribute span has an [id], and somewhere
    the file gives [htmlFor] that value, up to the case of letters. *)
Lemma label_by_id_iff content attributes :
  Web.label_by_id content attributes = true
  <-> exists id, Web.input_id attributes = Some id
        /\ holds_attr same_letters (str "htmlFor") id content.
Proof.
  unfold Web.label_by_id. destruct (Web.input_id attributes) as [id|].
  - unfold Web.label_pattern, Re.escape. rewrite found_attr_value.
    rewrite (holds_attr_ext _ same_letters _ _ _ reads_as_icase).
    split; [eauto|]. now intros (id' & [= <-] & H).
  - split; [discriminate|]. now intros (id & [=] & _).
Qed.

Lemma hidden_iff attributes :
  Re.found Re.IGNORECASE Web.hidden_type attributes = true
  <-> holds_attr same_letters (str "type") (str "hidden") attributes.
Proof. apply attr_value_lit_iff. Qed.

(** C3 (as the script behaves).  Every occurrence of the input pattern
    in a web source is the opening tag of an [input], [textarea] or
    [select].  When its attribute span
    gives [type] the value [hidden], the rule yields nothing; otherwise
    it yields at most one violation, of severity error, and it yields one
    exactly when the span names neither [aria-label] nor
    [aria-labelledby] and the file has no cross-reference, that is, no
    [htmlFor] with the value of the [id] of the span, values being
    compared up to the case of letters. *)
Theorem C3_form_control_rule (relative_path content : text) (m : Re.Match) :
  In m (Web.occurrences content Re.IGNORECASE Web.input_pattern) ->
  let attributes := Re.group_or_empty content 2 m in
  let hidden := holds_attr same_letters (str "type") (str "hidden") attributes in
  let labelled := names_attr (str "aria-label") attributes in
  let labelled_by := names_attr (str "aria-labelledby") attributes in
  let cross_referenced :=
    exists id, Web.input_id attributes = Some id
      /\ holds_attr same_letters (str "htmlFor") id content in
  let found := Web.input_rule relative_path content m in
  is_open_tag ["input"; "textarea"; "select"] content m
    (Re.group_or_empty content 1 m) attributes
  /\ (hidden -> found = [])
  /\ (~ hidden ->
      (found = []
       \/ exists v, found = [v]
            /\ severity v = str "error"
            /\ line v = line_of content m
            /\ element v = Re.group_or_empty content 1 m)
      /\ (found <> [] <-> ~ labelled /\ ~ labelled_by /\ ~ cross_referenced)).
Proof.
  intros H attributes hidden labelled labelled_by cross_referenced found.
  subst hidden labelled labelled_by cross_referenced found.
  split; [now apply open_tag_occurrence|].
  rewrite <- hidden_iff, <- !has_attr_iff, <- label_by_id_iff.
  unfold Web.input_rule. fold attributes.
  destruct (Re.found Re.IGNORECASE Web.hidden_type attributes).
  - split; [reflexivity|]. intros Hn. now contradiction Hn.
  - split; [discriminate|]. intros _.
    destruct (has_attr "aria-label" attributes),
             (has_attr "aria-labelledby" attributes),
             (Web.label_by_id content attributes); cbn [negb andb];
      (split; [first [now left|right; eexists; repeat split]|]);
      split; try congruence; try tauto;
      intros; repeat split; discriminate.
Qed.

(** The scenario of the specification: the label refers to the input by
    its identifier. *)
Lemma C3_witness :
  let content :=
    str "<input type=" ++ dq "text" ++ str " id=" ++ dq "email" ++ str " />"
    ++ [newline]
    ++ str "<label htmlFor=" ++ dq "email" ++ str ">Email</label>" in
  let m := Re.MkMatch 0 32 [(2, (6, 31)); (1, (1, 6))] in
  In m (Web.occurrences content Re.IGNORECASE Web.input_pattern)
  /\ Web.input_rule (str "Form.tsx") content m = []
  /\ Web.audit_content (str "Form.tsx") content = [].
Proof.
  intros content m.
  assert (H : In m (Web.occurrences content Re.IGNORECASE Web.input_pattern))
    by (vm_compute; left; reflexivity).
  split; [exact H|]. split; [|vm_compute; reflexivity].
  destruct (proj2 (proj2 (C3_form_control_rule (str "Form.tsx") content m H)))
    as [_ Hiff].
  - intros Hh. apply hidden_iff in Hh. vm_compute in Hh. discriminate Hh.
  - destruct (Web.input_rule (str "Form.tsx") content m) as [|v l] eqn:E;
      [reflexivity|].
    assert (Hne : v :: l <> []) by discriminate.
    apply Hiff in Hne as (_ & _ & Hno). exfalso. apply Hno.
    apply label_by_id_iff. vm_compute. reflexivity.
Defined.

(** C3 as stated fails: the input has the identifier [Email], no label
    attribute and no label reference, and nothing in the file gives
    [htmlFor] the value [Email]; the file gives it the value [email], and
    the rule accepts that as the cross-reference. *)
Lemma C3_counterexample :
  let content :=
    str "<input type=" ++ dq "text" ++ str " id=" ++ dq "Email" ++ str " />"
    ++ [newline]
    ++ str "<label htmlFor=" ++ dq "email" ++ str ">Email</label>" in
  let m := Re.MkMatch 0 32 [(2, (6, 31)); (1, (1, 6))] in
  let attributes := Re.group_or_empty content 2 m in
  Web.occurrences content Re.IGNORECASE Web.input_pattern = [m]
  /\ ~ holds_attr same_letters (str "type") (str "hidden") attributes
  /\ ~ names_attr (str "aria-label") attributes
  /\ ~ names_attr (str "aria-labelledby") attributes
  /\ Web.input_id attributes = Some (str "Email")
  /\ ~ holds_attr eq (str "htmlFor") (str "Email") content
  /\ holds_attr eq (str "htmlFor") (str "email") content
  /\ Web.input_rule (str "Form.tsx") content m = []
  /\ Web.audit_content (str "Form.tsx") content = [].
Proof.
  intros content m attributes.
  split; [vm_compute; reflexivity|].
  split; [rewrite <- hidden_iff; vm_compute; discriminate|].
  split; [rewrite <- has_attr_iff; vm_compute; discriminate|].
  split; [rewrite <- has_attr_iff; vm_compute; discriminate|].
  split; [vm_compute; reflexivity|].
  split; [|split; [|split; vm_compute; reflexivity]].
  - rewrite <- (holds_attr_ext _ _ _ _ _ reads_as_exact), <- found_attr_value.
    vm_compute. discriminate.
  - rewrite <- (holds_attr_ext _ _ _ _ _ reads_as_exact), <- found_attr_value.
    vm_compute. reflexivity.
Qed.

(** ** C4: links in the web script *)

Lemma atom_match_alnum c : Re.atom_match Re.NOFLAG Web.alnum c = is_alnum c.
Proof.
  unfold is_alnum. cbn [Re.atom_match Web.alnum existsb Re.item_match Re.icase
                        Re.NOFLAG xorb].
  now rewrite orb_false_r, orb_assoc.
Qed.

(** The search for [[A-Za-z0-9]{2,}] finds two letters or digits in a
    row, wherever they are. *)
Lemma alnum_run_found t :
  Re.found Re.NOFLAG Web.alnum_run t = true <-> has_alnum_run t.
Proof.
  rewrite found_iff. split.
  - intros (pre & rest & s' & p' & cs' & -> & M).
    inversion M as [| | | | |a least g w s p cs Hl Hw|]; subst.
    destruct w as [|a [|b w]]; simpl in Hl; try lia.
    cbn [forallb] in Hw. rewrite !atom_match_alnum in Hw.
    apply andb_prop in Hw as [Ha Hw]. apply andb_prop in Hw as [Hb _].
    exists pre, a, b, (w ++ s'). auto.
  - intros (pre & a & b & post & -> & Ha & Hb).
    exists pre, (a :: b :: post), post, (List.length pre + 2), [].
    split; [reflexivity|].
    apply (@MRep Re.NOFLAG Web.alnum 2 true [a; b] post (List.length pre) []).
    + simpl. lia.
    + cbn [forallb]. now rewrite !atom_match_alnum, Ha, Hb.
Qed.

(** The inner text of a link is trivial exactly when the script finds no
    text in it. *)
Lemma has_text_iff children :
  Web.has_text children = false
  <-> trivial_text (Web.text_content children).
Proof.
  unfold Web.has_text, trivial_text.
  rewrite andb_false_iff, Nat.leb_gt, <- alnum_run_found.
  now rewrite not_true_iff_false.
Qed.

(** C4.  For every occurrence of a link in a web source that has no
    [aria-label]: when its inner text (the children without their tags,
    stripped) has at least 2 characters and two letters or digits in a
    row, the rule yields nothing; when its inner text is trivial and no
    child image has a non-empty [alt], the rule yields exactly one
    violation, of severity warning. *)
Theorem C4_link_rule (relative_path content : text) (m : Re.Match) :
  In m (Web.occurrences content Re.IGNORECASE_DOTALL Web.link_pattern) ->
  let attributes := Re.group_or_empty content 2 m in
  let children := Re.group_or_empty content 3 m in
  let inner := Web.text_content children in
  let found := Web.link_rule relative_path content m in
  ~ names_attr (str "aria-label") attributes ->
  (2 <= List.length inner -> has_alnum_run inner -> found = [])
  /\ (trivial_text inner -> Web.has_image_with_alt children = false ->
      exists v, found = [v]
        /\ severity v = str "warning"
        /\ line v = line_of content m).
Proof.
  intros _ attributes children inner found Hlabel. subst found.
  rewrite <- has_attr_iff in Hlabel. apply not_true_is_false in Hlabel.
  unfold Web.link_rule. fold attributes. fold children. rewrite Hlabel.
  split.
  - intros Hlen Hrun.
    assert (Ht : Web.has_text children = true).
    { unfold Web.has_text. fold inner.
      apply andb_true_intro. split; [now apply Nat.leb_le|].
      now apply alnum_run_found. }
    now rewrite Ht.
  - intros Htriv Himg. apply has_text_iff in Htriv.
    rewrite Htriv, Himg. eexists. repeat split.
Qed.

(** The two links of the specification: the text [ok], and no text. *)
Lemma C4_witness :
  let ok := str "<a href='/x'>ok</a>" in
  let empty := str "<a href='/x'></a>" in
  let m_ok := Re.MkMatch 0 19 [(3, (13, 15)); (2, (2, 12)); (1, (1, 2))] in
  let m_empty := Re.MkMatch 0 17 [(3, (13, 13)); (2, (2, 12)); (1, (1, 2))] in
  Web.link_rule (str "Nav.tsx") ok m_ok = []
  /\ (exists v, Web.link_rule (str "Nav.tsx") empty m_empty = [v]
        /\ severity v = str "warning" /\ line v = 1)
  /\ Web.audit_content (str "Nav.tsx") ok = []
  /\ List.map severity (Web.audit_content (str "Nav.tsx") empty) = [str "warning"].
Proof.
  intros ok empty m_ok m_empty.
  assert (Hok : In m_ok (Web.occurrences ok Re.IGNORECASE_DOTALL Web.link_pattern))
    by (vm_compute; left; reflexivity).
  assert (Hempty : In m_empty (Web.occurrences empty Re.IGNORECASE_DOTALL Web.link_pattern))
    by (vm_compute; left; reflexivity).
  assert (Lok : ~ names_attr (str "aria-label") (Re.group_or_empty ok 2 m_ok))
    by (rewrite <- has_attr_iff; vm_compute; discriminate).
  assert (Lempty : ~ names_attr (str "aria-label") (Re.group_or_empty empty 2 m_empty))
    by (rewrite <- has_attr_iff; vm_compute; discriminate).
  split; [|split; [|split]].
  - refine (proj1 (C4_link_rule (str "Nav.tsx") ok m_ok Hok Lok) _ _).
    + vm_compute. lia.
    + exists [], (ch "o"), (ch "k"), []. vm_compute. repeat split.
  - destruct (proj2 (C4_link_rule (str "Nav.tsx") empty m_empty Hempty Lempty))
      as (v & Hv & Hs & Hl).
    + left. vm_compute. lia.
    + vm_compute. reflexivity.
    + exists v. repeat split; assumption.
  - vm_compute. reflexivity.
  - vm_compute. reflexivity.
Defined.

(** ** The rounding of floats *)

Open Scope Q_scope.

Lemma pow2_pos (e : Z) : 0 < 2 ^ e.
Proof. apply Qpower_0_lt. reflexivity. Qed.

Lemma pow2_add (a b : Z) : 2 ^ (a + b) == 2 ^ a * 2 ^ b.
Proof. apply Qpower_plus. discriminate. Qed.

Lemma pow2_succ (a : Z) : 2 ^ (a + 1) == 2 * 2 ^ a.
Proof. rewrite pow2_add. change (2 ^ 1) with 2. ring. Qed.

Lemma pow2_pred (a : Z) : 2 * 2 ^ (a - 1) == 2 ^ a.
Proof. rewrite <- pow2_succ. now replace (a - 1 + 1)%Z with a by lia. Qed.

Lemma pow2_inject (a : Z) : (0 <= a)%Z -> inject_Z (2 ^ a) == 2 ^ a.
Proof. intros H. now rewrite Zpower_Qpower. Qed.

Lemma pow2_le (a b : Z) : (a <= b)%Z -> 2 ^ a <= 2 ^ b.
Proof. intros H. apply Qpower_le_compat_l; [exact H|discriminate]. Qed.

Lemma pow2_double_le (a b : Z) : (a < b)%Z -> 2 * 2 ^ a <= 2 ^ b.
Proof. intros H. rewrite <- pow2_succ. apply pow2_le. lia. Qed.

(** Integers against rationals. *)
Lemma inject_Z_lt_le (a b : Z) : inject_Z a < inject_Z b + 1 -> (a <= b)%Z.
Proof.
  intros H. destruct (Z_lt_le_dec b a) as [L|L]; [|exact L].
  assert (L' : (b + 1 <= a)%Z) by lia.
  rewrite Zle_Qle, inject_Z_plus in L'. change (inject_Z 1) with 1 in L'. lra.
Qed.

Lemma floor_log2_spec (x : Q) :
  0 < x ->
  2 ^ Float.floor_log2 x <= x /\ x < 2 ^ (Float.floor_log2 x + 1).
Proof.
  intros Hx. unfold Float.floor_log2.
  destruct x as [n d]. cbn [Qnum Qden].
  assert (Hn : (0 < n)%Z) by (unfold Qlt in Hx; simpl in Hx; lia).
  set (a := Z.log2 n). set (b := Z.log2 (Z.pos d)).
  destruct (Z.log2_spec n Hn) as [Ha1 Ha2]. fold a in Ha1, Ha2.
  destruct (Z.log2_spec (Z.pos d) eq_refl) as [Hb1 Hb2]. fold b in Hb1, Hb2.
  assert (Ha0 : (0 <= a)%Z) by apply Z.log2_nonneg.
  assert (Hb0 : (0 <= b)%Z) by apply Z.log2_nonneg.
  rewrite Zle_Qle, pow2_inject in Ha1, Hb1 by assumption.
  rewrite Zlt_Qlt, pow2_inject in Ha2, Hb2 by lia.
  replace (Z.succ a) with (a + 1)%Z in Ha2 by lia.
  replace (Z.succ b) with (b + 1)%Z in Hb2 by lia.
  rewrite pow2_succ in Ha2, Hb2.
  pose proof (pow2_pos a) as PA. pose proof (pow2_pos b) as PB.
  pose proof (pow2_pos (a - b)) as PK.
  assert (EK : 2 ^ (a - b) * 2 ^ b == 2 ^ a).
  { rewrite <- pow2_add. now replace (a - b + b)%Z with a by lia. }
  assert (Ex : (n # d) * inject_Z (Z.pos d) == inject_Z n).
  { unfold Qeq, Qmult, inject_Z. simpl. lia. }
  assert (Pd : 0 < inject_Z (Z.pos d)) by reflexivity.
  set (A := 2 ^ a) in *. set (B := 2 ^ b) in *. set (K := 2 ^ (a - b)) in *.
  set (D := inject_Z (Z.pos d)) in *. set (N := inject_Z n) in *.
  set (x := n # d) in *.
  destruct (Qle_bool K x) eqn:E.
  - apply Qle_bool_iff in E. split; [exact E|].
    rewrite pow2_succ. fold K.
    apply Qnot_le_lt. intros C.
    assert (2 * K * D <= x * D) by nra.
    assert (2 * K * B <= 2 * K * D) by nra.
    nra.
  - assert (E' : x < K).
    { apply Qnot_le_lt. intros C. apply Qle_bool_iff in C. congruence. }
    split.
    + apply Qmult_le_l with (z := 2); [reflexivity|].
      rewrite pow2_pred. fold K.
      apply Qnot_lt_le. intros C.
      assert (2 * x * D < K * D) by nra.
      assert (K * D < 2 * K * B) by nra.
      nra.
    + replace (a - b - 1 + 1)%Z with (a - b)%Z by lia. exact E'.
Qed.

Lemma round_half_even_comp (y y' : Q) :
  y == y' -> Float.round_half_even y = Float.round_half_even y'.
Proof.
  intros E. unfold Float.round_half_even.
  rewrite (Qfloor_comp y y' E).
  assert (C : (y - inject_Z (Qfloor y') ?= 1 # 2)
              = (y' - inject_Z (Qfloor y') ?= 1 # 2)) by now rewrite E.
  now rewrite C.
Qed.

Lemma round_half_even_near (y : Q) :
  - (1 # 2) <= inject_Z (Float.round_half_even y) - y <= 1 # 2.
Proof.
  unfold Float.round_half_even.
  pose proof (Qfloor_le y) as L. pose proof (Qlt_floor y) as U.
  rewrite inject_Z_plus in U. change (inject_Z 1) with 1 in U.
  destruct (y - inject_Z (Qfloor y) ?= 1 # 2) eqn:C.
  - apply Qeq_alt in C. destruct (Z.even (Qfloor y));
      rewrite ?inject_Z_plus; change (inject_Z 1) with 1; lra.
  - apply Qlt_alt in C. lra.
  - apply Qgt_alt in C. rewrite inject_Z_plus. change (inject_Z 1) with 1. lra.
Qed.

(** Below the middle of [k] and [k + 1], the nearest integer is at most
    [k]; from [k] on it is at least [k]. *)
Lemma round_half_even_le (y : Q) (k : Z) :
  y < inject_Z k + (1 # 2) -> (Float.round_half_even y <= k)%Z.
Proof.
  intros H. unfold Float.round_half_even.
  pose proof (Qfloor_le y) as L.
  destruct (y - inject_Z (Qfloor y) ?= 1 # 2) eqn:C.
  - apply Qeq_alt in C.
    assert (Qfloor y + 1 <= k)%Z.
    { apply inject_Z_lt_le. rewrite inject_Z_plus.
      change (inject_Z 1) with 1. lra. }
    destruct (Z.even (Qfloor y)); lia.
  - apply inject_Z_lt_le. lra.
  - apply Qgt_alt in C. apply inject_Z_lt_le. rewrite inject_Z_plus.
    change (inject_Z 1) with 1. lra.
Qed.

Lemma round_half_even_ge (y : Q) (k : Z) :
  inject_Z k <= y -> (k <= Float.round_half_even y)%Z.
Proof.
  intros H. unfold Float.round_half_even.
  pose proof (Qlt_floor y) as U.
  rewrite inject_Z_plus in U. change (inject_Z 1) with 1 in U.
  assert (k <= Qfloor y)%Z by (apply inject_Z_lt_le; lra).
  destruct (y - inject_Z (Qfloor y) ?= 1 # 2); [destruct (Z.even (Qfloor y))| |]; lia.
Qed.

Lemma round_ne_comp (x x' : Q) : x == x' -> Float.round_ne x = Float.round_ne x'.
Proof.
  intros E. unfold Float.round_ne. now rewrite (Qred_complete x x' E).
Qed.

Lemma round_ne_zero (x : Q) : x <= 0 -> Float.round_ne x = 0.
Proof.
  intros H. unfold Float.round_ne.
  assert (C : Qle_bool (Qred x) 0 = true)
    by (apply Qle_bool_iff; now rewrite Qred_correct).
  now rewrite C.
Qed.

(** What [round_ne] computes: a mantissa [m] and an exponent [e], with
    [y] the exact value in units of [2^e]. *)
Lemma round_ne_spec (x : Q) :
  0 < x ->
  exists (m e : Z) (y : Q),
    x == y * 2 ^ e
    /\ Float.round_ne x == inject_Z m * 2 ^ e
    /\ m = Float.round_half_even y
    /\ (Float.emin <= e)%Z
    /\ y < 2 ^ 53
    /\ (2 ^ 52 <= y \/ e = Float.emin).
Proof.
  intros Hx. unfold Float.round_ne.
  assert (Hx' : 0 < Qred x) by now rewrite Qred_correct.
  assert (C : Qle_bool (Qred x) 0 = false).
  { destruct (Qle_bool (Qred x) 0) eqn:E; [|reflexivity].
    apply Qle_bool_iff in E. lra. }
  rewrite C. clear C.
  set (x' := Qred x) in *.
  set (e := Float.ulp_exponent x').
  pose proof (pow2_pos e) as Pe.
  exists (Float.round_half_even (x' / 2 ^ e)), e, (x' / 2 ^ e).
  assert (Ey : x == x' / 2 ^ e * 2 ^ e).
  { unfold x'. rewrite Qred_correct. field. lra. }
  split; [exact Ey|]. split; [apply Qred_correct|]. split; [reflexivity|].
  destruct (floor_log2_spec x' Hx') as [L U].
  set (l := Float.floor_log2 x') in *.
  assert (He : e = Z.max (l - 52) Float.emin) by reflexivity.
  split; [lia|].
  assert (S1 : x' / 2 ^ e * 2 ^ e == x') by (field; lra).
  set (y := x' / 2 ^ e) in *.
  split.
  - (* y < 2^53 since x' < 2^(l+1) <= 2^(e+53) *)
    assert (B : 2 ^ (l + 1) <= 2 ^ (53 + e)) by (apply pow2_le; lia).
    rewrite (pow2_add 53 e) in B.
    pose proof (pow2_pos 53).
    set (c := 2 ^ 53) in *. set (pe := 2 ^ e) in *.
    apply Qnot_le_lt. intros D.
    assert (c * pe <= y * pe) by nra.
    lra.
  - destruct (Z.max_spec (l - 52) Float.emin) as [[_ M]|[_ M]];
      rewrite M in He; [right; exact He|left].
    assert (B : 2 ^ (52 + e) == 2 ^ l) by (rewrite He; f_equiv; lia).
    rewrite (pow2_add 52 e) in B.
    pose proof (pow2_pos 52).
    set (c := 2 ^ 52) in *. set (pe := 2 ^ e) in *.
    apply Qnot_lt_le. intros D.
    assert (y * pe < c * pe) by nra.
    lra.
Qed.

Lemma round_ne_nonneg (x : Q) : 0 <= Float.round_ne x.
Proof.
  destruct (Qlt_le_dec 0 x) as [H|H].
  - destruct (round_ne_spec x H) as (m & e & y & Ex & Er & Em & _ & _ & _).
    rewrite Er. pose proof (pow2_pos e). set (pe := 2 ^ e) in *.
    assert (0 < y) by (apply Qnot_le_lt; intros C; nra).
    assert (0 <= m)%Z by (subst m; apply round_half_even_ge; change (inject_Z 0) with 0; lra).
    assert (0 <= inject_Z m)
      by (change 0 with (inject_Z 0); now rewrite <- Zle_Qle).
    nra.
  - rewrite round_ne_zero by assumption. lra.
Qed.

Lemma pow2_52_53 : 2 ^ 53 == 2 * 2 ^ 52.
Proof. reflexivity. Qed.

(** Rounding does not cross a double: below the middle of the double
    [M * 2^F] and the next one, the result is at most [M * 2^F]. *)
Lemma round_ne_le (x : Q) (M F : Z) :
  (Float.emin <= F)%Z -> (2 ^ 52 <= M < 2 ^ 53)%Z ->
  x < (inject_Z M + (1 # 2)) * 2 ^ F ->
  Float.round_ne x <= inject_Z M * 2 ^ F.
Proof.
  intros HF [HM1 HM2] Hx.
  assert (HM2' : (M + 1 <= 2 ^ 53)%Z) by lia.
  rewrite Zle_Qle, pow2_inject in HM1 by lia.
  rewrite Zle_Qle, inject_Z_plus, pow2_inject in HM2' by lia.
  change (inject_Z 1) with 1 in HM2'.
  pose proof (pow2_pos F) as PF. pose proof (pow2_pos 52) as P52.
  pose proof pow2_52_53 as E53.
  set (c52 := 2 ^ 52) in *. set (c53 := 2 ^ 53) in *.
  set (pf := 2 ^ F) in *. set (Mq := inject_Z M) in *.
  destruct (Qlt_le_dec 0 x) as [H0|H0];
    [|rewrite round_ne_zero by assumption; nra].
  destruct (round_ne_spec x H0) as (m & e & y & Ex & Er & Em & He & Hy & Hn).
  fold c53 in Hy. fold c52 in Hn.
  rewrite Er. pose proof (pow2_pos e) as Pe.
  destruct (Z.lt_trichotomy e F) as [L|[L|L]].
  - pose proof (pow2_double_le e F L) as D. fold pf in D.
    set (pe := 2 ^ e) in *.
    assert (Hm : (m <= 2 ^ 53)%Z).
    { subst m. apply round_half_even_le. rewrite pow2_inject by lia.
      fold c53. lra. }
    rewrite Zle_Qle, pow2_inject in Hm by lia. fold c53 in Hm.
    set (mq := inject_Z m) in *.
    assert (mq * pe <= c53 * pe) by nra.
    assert (c53 * pe <= c52 * pf) by nra.
    assert (c52 * pf <= Mq * pf) by nra.
    lra.
  - subst e. fold pf in Ex, Pe |- *.
    assert (Hm : (m <= M)%Z).
    { subst m. apply round_half_even_le. fold Mq.
      apply Qnot_le_lt. intros C.
      assert ((Mq + (1 # 2)) * pf <= y * pf) by nra. lra. }
    rewrite Zle_Qle in Hm. fold Mq in Hm. nra.
  - exfalso. destruct Hn as [Hn|Hn]; [|lia].
    pose proof (pow2_double_le F e L) as D. fold pf in D.
    set (pe := 2 ^ e) in *.
    assert (c52 * pe <= y * pe) by nra.
    assert (c53 * pf <= 2 * c52 * pe) by nra.
    assert ((Mq + (1 # 2)) * pf <= (c53 - (1 # 2)) * pf) by nra.
    nra.
Qed.

(** From the double [M * 2^F] on, the result is at least [M * 2^F]. *)
Lemma round_ne_ge (x : Q) (M F : Z) :
  (Float.emin <= F)%Z -> (0 <= M <= 2 ^ 53)%Z ->
  inject_Z M * 2 ^ F <= x ->
  inject_Z M * 2 ^ F <= Float.round_ne x.
Proof.
  intros HF [HM1 HM2] Hx.
  pose proof (pow2_pos F) as PF. pose proof (pow2_pos 52) as P52.
  pose proof pow2_52_53 as E53.
  destruct (Qlt_le_dec 0 x) as [H0|H0];
    [|rewrite round_ne_zero by assumption; lra].
  destruct (round_ne_spec x H0) as (m & e & y & Ex & Er & Em & He & Hy & Hn).
  rewrite Er. pose proof (pow2_pos e) as Pe.
  destruct (Z_le_gt_dec e F) as [L|L].
  - assert (EF : 2 ^ F == 2 ^ (F - e) * 2 ^ e).
    { rewrite <- pow2_add. f_equiv. lia. }
    assert (Ek : inject_Z (M * 2 ^ (F - e)) == inject_Z M * 2 ^ (F - e)).
    { rewrite inject_Z_mult, pow2_inject by lia. reflexivity. }
    assert (Hm : (M * 2 ^ (F - e) <= m)%Z).
    { subst m. apply round_half_even_ge. rewrite Ek.
      set (pd := 2 ^ (F - e)) in *. set (pe := 2 ^ e) in *.
      set (pf := 2 ^ F) in *. set (Mq := inject_Z M) in *.
      apply Qnot_lt_le. intros C.
      assert (y * pe < Mq * pd * pe) by nra. nra. }
    rewrite Zle_Qle, Ek in Hm.
    set (pd := 2 ^ (F - e)) in *. set (pe := 2 ^ e) in *.
    set (pf := 2 ^ F) in *. set (Mq := inject_Z M) in *.
    set (mq := inject_Z m) in *.
    assert (Mq * pd * pe <= mq * pe) by nra. nra.
  - destruct Hn as [Hn|Hn]; [|lia].
    assert (L' : (F < e)%Z) by lia.
    pose proof (pow2_double_le F e L') as D.
    assert (Hm : (2 ^ 52 <= m)%Z).
    { subst m. apply round_half_even_ge. rewrite pow2_inject by lia.
      exact Hn. }
    rewrite Zle_Qle, pow2_inject in Hm, HM2 by lia.
    set (c52 := 2 ^ 52) in *. set (c53 := 2 ^ 53) in *.
    set (pe := 2 ^ e) in *.
    set (pf := 2 ^ F) in *. set (Mq := inject_Z M) in *.
    set (mq := inject_Z m) in *.
    assert (c52 * pe <= mq * pe) by nra.
    assert (Mq * pf <= c53 * pf) by nra.
    nra.
Qed.

(** In the normal range the relative error of a rounding is at most
    [2^-53]. *)
Lemma round_ne_error (x : Q) :
  2 ^ (-1022) <= x ->
  x * (1 - 2 ^ (-53)) <= Float.round_ne x <= x * (1 + 2 ^ (-53)).
Proof.
  intros Hx.
  assert (H0 : 0 < x) by (pose proof (pow2_pos (-1022)); lra).
  destruct (round_ne_spec x H0) as (m & e & y & Ex & Er & Em & He & Hy & Hn).
  pose proof (pow2_pos e) as Pe. pose proof (pow2_pos 52) as P52.
  assert (U : 2 ^ (-53) * 2 ^ 52 == 1 # 2) by reflexivity.
  assert (Hy52 : 2 ^ 52 <= y).
  { destruct Hn as [Hn|Hn]; [exact Hn|]. subst e.
    assert (E : 2 ^ (-1022) == 2 ^ 52 * 2 ^ Float.emin) by reflexivity.
    rewrite E in Hx.
    set (c52 := 2 ^ 52) in *. set (pe := 2 ^ Float.emin) in *.
    apply Qnot_lt_le. intros C.
    assert (y * pe < c52 * pe) by nra. lra. }
  pose proof (round_half_even_near y) as N. rewrite <- Em in N.
  rewrite Er.
  set (u := 2 ^ (-53)) in *. set (c52 := 2 ^ 52) in *. set (pe := 2 ^ e) in *.
  set (mq := inject_Z m) in *.
  assert (Pu : 0 < u) by apply pow2_pos.
  assert (Hu : 1 # 2 <= y * u) by nra.
  assert (L : (y - y * u) * pe <= mq * pe) by nra.
  assert (R : mq * pe <= (y + y * u) * pe) by nra.
  rewrite Ex. split; nra.
Qed.

Lemma Qabs_quotient (a t : Z) :
  (0 < t)%Z ->
  Qabs (inject_Z a / inject_Z t) * inject_Z t == inject_Z (Z.abs a).
Proof.
  intros Ht.
  assert (Pt : 0 < inject_Z t) by (change 0 with (inject_Z 0); now rewrite <- Zlt_Qlt).
  unfold Qdiv. rewrite Qabs_Qmult, Qabs_Qinv, (Qabs_pos (inject_Z t)) by lra.
  change (Qabs (inject_Z a)) with (inject_Z (Z.abs a)).
  field. lra.
Qed.

(** The two roundings of the rate, for counts that Python can hold:
    neither the division nor the product leaves the finite doubles. *)
Lemma rate_roundings (t e : Z) :
  (0 < t <= Py.maxsize)%Z -> (0 <= e <= Py.maxsize)%Z ->
  let x := Qabs (inject_Z (t - e) / inject_Z t) in
  let s := (t - e <? 0)%Z in
  Py.truediv (t - e) t = Py.Returns (Float.Finite s (Float.round_ne x))
  /\ Float.mul (Float.Finite s (Float.round_ne x)) (Py.float_of_int 100)
     = Float.Finite s (Float.round_ne (Float.round_ne x * 100)).
Proof.
  intros Ht He x s. unfold Py.maxsize in *.
  assert (Pt : 1 <= inject_Z t).
  { change 1 with (inject_Z 1). rewrite <- Zle_Qle. lia. }
  pose proof (Qabs_quotient (t - e) t (proj1 Ht)) as Ex. fold x in Ex.
  assert (Ha : inject_Z (Z.abs (t - e)) <= inject_Z (2 ^ 63)).
  { rewrite <- Zle_Qle. lia. }
  assert (Hx0 : 0 <= x) by apply Qabs_nonneg.
  assert (Hx : x <= inject_Z (2 ^ 63)) by nra.
  assert (R1 : Float.round_ne x <= inject_Z (2 ^ 52) * 2 ^ 11).
  { apply round_ne_le; [unfold Float.emin; lia|lia|].
    eapply Qle_lt_trans; [exact Hx|]. reflexivity. }
  assert (R2 : Float.round_ne (Float.round_ne x * 100)
               <= inject_Z (2 ^ 52) * 2 ^ 18).
  { apply round_ne_le; [unfold Float.emin; lia|lia|].
    eapply Qle_lt_trans;
      [apply Qmult_le_compat_r; [exact R1|discriminate]|reflexivity]. }
  assert (O : forall r, r <= inject_Z (2 ^ 52) * 2 ^ 18 ->
                        Qle_bool (2 ^ Float.emax) r = false).
  { intros r Hr. destruct (Qle_bool (2 ^ Float.emax) r) eqn:E; [|reflexivity].
    apply Qle_bool_iff in E.
    assert (C : inject_Z (2 ^ 52) * 2 ^ 18 < 2 ^ Float.emax) by reflexivity.
    lra. }
  split.
  - unfold Py.truediv.
    assert (Hne : (t =? 0)%Z = false) by (apply Z.eqb_neq; lia).
    assert (Hs : (t <? 0)%Z = false) by (apply Z.ltb_ge; lia).
    rewrite Hne, Hs, xorb_false_r. fold x. fold s.
    unfold Float.of_exact. rewrite O; [reflexivity|].
    eapply Qle_trans; [exact R1|]. discriminate.
  - change (Py.float_of_int 100) with (Float.Finite false 100).
    unfold Float.mul, Float.of_exact. rewrite xorb_false_r.
    rewrite O; [reflexivity|exact R2].
Qed.

Lemma length_as_Z (A : Type) (l : list A) :
  (0 <= Z.of_nat (List.length l))%Z
  /\ (Z.of_nat (List.length l) = 0%Z <-> l = []).
Proof.
  split; [lia|]. destruct l; simpl; split; intros H; try reflexivity;
    try discriminate; lia.
Qed.

(** The rate on counts that Python can hold: a finite double, of the
    sign of [total - errors], whose magnitude is the exact quotient
    rounded, times 100, rounded again. *)
Lemma compliance_rate_value (results : Results) :
  let t := Z.of_nat (total_components results) in
  let e := Z.of_nat (List.length (violations results)) in
  (0 < t <= Py.maxsize)%Z -> (e <= Py.maxsize)%Z ->
  let x := Qabs (inject_Z (t - e) / inject_Z t) in
  let r := Float.round_ne (Float.round_ne x * 100) in
  compliance_rate results
  = Py.Returns (Py.PyFloat (Float.Finite (t - e <? 0)%Z r))
  /\ Py.value (Py.PyFloat (Float.Finite (t - e <? 0)%Z r))
     = Some (if (t - e <? 0)%Z then - r else r).
Proof.
  intros t e Ht He x r. split; [|reflexivity].
  assert (He' : (0 <= e <= Py.maxsize)%Z) by (unfold e in *; lia).
  destruct (rate_roundings t e Ht He') as [D M]. fold x in D, M.
  unfold compliance_rate. fold t. fold e.
  assert (Hpos : (0 <? t)%Z = true) by (apply Z.ltb_lt; lia).
  rewrite Hpos, D, M. reflexivity.
Qed.

(** The result against the exact percentage: the relative error of two
    roundings at most. *)
Lemma rate_error (t e : Z) :
  (0 < t <= Py.maxsize)%Z -> (0 <= e <= Py.maxsize)%Z ->
  let exact := inject_Z (t - e) / inject_Z t * 100 in
  let r := Float.round_ne
             (Float.round_ne (Qabs (inject_Z (t - e) / inject_Z t)) * 100) in
  Qabs ((if (t - e <? 0)%Z then - r else r) - exact)
  <= Qabs exact * rounding_error.
Proof.
  intros Ht He exact.
  set (a := (t - e)%Z) in *.
  set (x := Qabs (inject_Z a / inject_Z t)) in *.
  assert (Pt : 1 <= inject_Z t).
  { change 1 with (inject_Z 1). rewrite <- Zle_Qle. lia. }
  assert (Tmax : inject_Z t <= inject_Z (2 ^ 63)).
  { rewrite <- Zle_Qle. unfold Py.maxsize in Ht. lia. }
  pose proof (Qabs_quotient a t (proj1 Ht)) as Ex. fold x in Ex.
  assert (Hx0 : 0 <= x) by apply Qabs_nonneg.
  assert (Eexact : Qabs exact == x * 100).
  { unfold exact. now rewrite Qabs_Qmult. }
  (* the magnitude of the result against the exact magnitude *)
  assert (B : x * 100 * (1 - 2 ^ (-53)) ^ 2
              <= Float.round_ne (Float.round_ne x * 100)
              <= x * 100 * (1 + 2 ^ (-53)) ^ 2).
  { destruct (Z.eq_dec a 0) as [Ea|Na].
    - assert (E0 : x == 0).
      { rewrite Ea in Ex. change (inject_Z (Z.abs 0)) with 0 in Ex. nra. }
      rewrite (round_ne_comp x 0 E0).
      change (Float.round_ne (Float.round_ne 0 * 100)) with 0.
      rewrite E0. split; apply Qle_lteq; right; ring.
    - assert (Ha : 1 <= inject_Z (Z.abs a)).
      { change 1 with (inject_Z 1). rewrite <- Zle_Qle. lia. }
      assert (X63 : 2 ^ (-63) <= x).
      { assert (E63 : 2 ^ (-63) * inject_Z (2 ^ 63) == 1) by reflexivity.
        set (u63 := 2 ^ (-63)) in *. set (c63 := inject_Z (2 ^ 63)) in *.
        assert (0 < u63) by apply pow2_pos.
        apply Qnot_lt_le. intros C.
        assert (x * inject_Z t < u63 * inject_Z t) by nra.
        assert (u63 * inject_Z t <= u63 * c63) by nra.
        lra. }
      assert (N1 : 2 ^ (-1022) <= x).
      { eapply Qle_trans; [|exact X63]. vm_compute. discriminate. }
      pose proof (round_ne_error x N1) as [L1 U1].
      set (r1 := Float.round_ne x) in *.
      assert (Hu : 2 ^ (-53) == 1 # 9007199254740992) by reflexivity.
      assert (N2 : 2 ^ (-1022) <= r1 * 100).
      { apply Qle_trans with (2 ^ (-63) * (1 - 2 ^ (-53)) * 100);
          [vm_compute; discriminate|].
        apply Qmult_le_compat_r; [|discriminate].
        apply Qle_trans with (x * (1 - 2 ^ (-53))); [|exact L1].
        apply Qmult_le_compat_r; [exact X63|vm_compute; discriminate]. }
      pose proof (round_ne_error (r1 * 100) N2) as [L2 U2].
      set (r2 := Float.round_ne (r1 * 100)) in *.
      set (u := 2 ^ (-53)) in *.
      assert (0 < u) by apply pow2_pos.
      assert (u < 1) by (rewrite Hu; reflexivity).
      split.
      + apply Qle_trans with (r1 * 100 * (1 - u)); [|exact L2].
        setoid_replace (x * 100 * (1 - u) ^ 2)
          with (x * (1 - u) * 100 * (1 - u)) by ring.
        apply Qmult_le_compat_r; [|lra].
        apply Qmult_le_compat_r; [exact L1|discriminate].
      + apply Qle_trans with (r1 * 100 * (1 + u)); [exact U2|].
        setoid_replace (x * 100 * (1 + u) ^ 2)
          with (x * (1 + u) * 100 * (1 + u)) by ring.
        apply Qmult_le_compat_r; [|lra].
        apply Qmult_le_compat_r; [exact U1|discriminate]. }
  intros r. fold x in r. fold r in B.
  rewrite Eexact. unfold rounding_error.
  set (u := 2 ^ (-53)) in *.
  assert (Pu : 0 < u) by apply pow2_pos.
  destruct B as [B1 B2].
  assert (B1' : x * 100 * (1 - ((1 + u) ^ 2 - 1)) <= r).
  { eapply Qle_trans; [|exact B1].
    setoid_replace (x * 100 * (1 - ((1 + u) ^ 2 - 1)))
      with (x * 100 * (1 - u) ^ 2 - x * 100 * (2 * u * u)) by ring.
    assert (0 <= x * 100 * (2 * u * u)); [|lra].
    apply Qmult_le_0_compat; [apply Qmult_le_0_compat; [exact Hx0|discriminate]|].
    nra. }
  assert (B2' : r <= x * 100 * (1 + ((1 + u) ^ 2 - 1))).
  { eapply Qle_trans; [exact B2|]. apply Qle_lteq. right. ring. }
  set (w := (1 + u) ^ 2 - 1) in *. clearbody w. clear B1 B2.
  assert (Esign : exact == (if (a <? 0)%Z then - (x * 100) else x * 100)).
  { unfold exact. destruct (Z.ltb_spec a 0) as [Neg|Pos].
    - assert (Q0 : inject_Z a / inject_Z t <= 0).
      { unfold Qdiv. assert (inject_Z a <= 0)
          by (change 0 with (inject_Z 0); rewrite <- Zle_Qle; lia).
        assert (0 < / inject_Z t) by (apply Qinv_lt_0_compat; lra).
        nra. }
      unfold x. rewrite (Qabs_neg _ Q0). ring.
    - assert (Q0 : 0 <= inject_Z a / inject_Z t).
      { unfold Qdiv. assert (0 <= inject_Z a)
          by (change 0 with (inject_Z 0); rewrite <- Zle_Qle; lia).
        assert (0 < / inject_Z t) by (apply Qinv_lt_0_compat; lra).
        nra. }
      unfold x. rewrite (Qabs_pos _ Q0). ring. }
  rewrite Esign. apply Qabs_Qle_condition.
  destruct (a <? 0)%Z; split; lra.
Qed.

(** With an error and fewer than [2^54] files, the two roundings stay
    below 100: the quotient is below the middle of the last double
    under 1 and 1, and a hundred times that double is below the middle
    of the last double under 100 and 100. *)
Lemma rate_below_100 (t e : Z) :
  (0 < t < 2 ^ 54)%Z -> (1 <= e <= t)%Z ->
  Float.round_ne (Float.round_ne (Qabs (inject_Z (t - e) / inject_Z t)) * 100)
  < 100.
Proof.
  intros Ht He.
  pose proof (Qabs_quotient (t - e) t (proj1 Ht)) as Ex.
  set (x := Qabs (inject_Z (t - e) / inject_Z t)) in *.
  assert (Pt : 1 <= inject_Z t).
  { change 1 with (inject_Z 1). rewrite <- Zle_Qle. lia. }
  assert (Tmax : inject_Z t + 1 <= inject_Z (2 ^ 54)).
  { change 1 with (inject_Z 1). rewrite <- inject_Z_plus, <- Zle_Qle. lia. }
  assert (Ha : inject_Z (Z.abs (t - e)) + 1 <= inject_Z t).
  { change 1 with (inject_Z 1). rewrite <- inject_Z_plus, <- Zle_Qle. lia. }
  assert (E1 : (inject_Z (2 ^ 53 - 1) + (1 # 2)) * 2 ^ (-53)
               == 1 - (1 # 18014398509481984)) by reflexivity.
  assert (E2 : inject_Z (2 ^ 53 - 1) * 2 ^ (-53)
               == 1 - (1 # 9007199254740992)) by reflexivity.
  assert (E3 : (inject_Z (100 * 2 ^ 46 - 1) + (1 # 2)) * 2 ^ (-46)
               == 100 - (1 # 140737488355328)) by reflexivity.
  assert (E4 : inject_Z (100 * 2 ^ 46 - 1) * 2 ^ (-46)
               == 100 - (1 # 70368744177664)) by reflexivity.
  assert (E5 : inject_Z (2 ^ 54) == 18014398509481984) by reflexivity.
  assert (R1 : Float.round_ne x <= 1 - (1 # 9007199254740992)).
  { rewrite <- E2. apply round_ne_le; [unfold Float.emin; lia|lia|].
    rewrite E1. rewrite E5 in Tmax.
    set (T := inject_Z t) in *. set (A := inject_Z (Z.abs (t - e))) in *.
    apply Qnot_le_lt. intros C.
    assert ((1 - (1 # 18014398509481984)) * T <= x * T) by nra.
    nra. }
  assert (R2 : Float.round_ne (Float.round_ne x * 100)
               <= 100 - (1 # 70368744177664)).
  { rewrite <- E4. apply round_ne_le; [unfold Float.emin; lia|lia|].
    rewrite E3. lra. }
  lra.
Qed.

(** With a count of errors other than the count of files, the result is
    not rounded to zero. *)
Lemma rate_not_zero (t e : Z) :
  (0 < t <= Py.maxsize)%Z -> t <> e ->
  0 < Float.round_ne (Float.round_ne (Qabs (inject_Z (t - e) / inject_Z t)) * 100).
Proof.
  intros Ht He. unfold Py.maxsize in Ht.
  pose proof (Qabs_quotient (t - e) t (proj1 Ht)) as Ex.
  set (x := Qabs (inject_Z (t - e) / inject_Z t)) in *.
  assert (Pt : 1 <= inject_Z t).
  { change 1 with (inject_Z 1). rewrite <- Zle_Qle. lia. }
  assert (Tmax : inject_Z t <= inject_Z (2 ^ 63)) by (rewrite <- Zle_Qle; lia).
  assert (Ha : 1 <= inject_Z (Z.abs (t - e))).
  { change 1 with (inject_Z 1). rewrite <- Zle_Qle. lia. }
  assert (E1 : inject_Z 1 * 2 ^ (-63) == 1 # 9223372036854775808) by reflexivity.
  assert (E5 : inject_Z (2 ^ 63) == 9223372036854775808) by reflexivity.
  assert (R1 : (1 # 9223372036854775808) <= Float.round_ne x).
  { rewrite <- E1. apply round_ne_ge; [unfold Float.emin; lia|lia|].
    rewrite E1. rewrite E5 in Tmax.
    set (T := inject_Z t) in *. set (A := inject_Z (Z.abs (t - e))) in *.
    apply Qnot_lt_le. intros C.
    assert (x * T < (1 # 9223372036854775808) * T) by nra.
    nra. }
  assert (R2 : (1 # 9223372036854775808)
               <= Float.round_ne (Float.round_ne x * 100)).
  { rewrite <- E1. apply round_ne_ge; [unfold Float.emin; lia|lia|].
    rewrite E1. lra. }
  lra.
Qed.

Lemma rate_without_error (t : Z) :
  (0 < t)%Z ->
  Float.round_ne (Float.round_ne (Qabs (inject_Z (t - 0) / inject_Z t)) * 100)
  = 100.
Proof.
  intros Ht.
  assert (E : Qabs (inject_Z (t - 0) / inject_Z t) == 1).
  { rewrite Z.sub_0_r.
    assert (0 < inject_Z t)
      by (change 0 with (inject_Z 0); now rewrite <- Zlt_Qlt).
    assert (E : inject_Z t / inject_Z t == 1) by (field; lra).
    rewrite E. reflexivity. }
  rewrite (round_ne_comp _ 1 E). reflexivity.
Qed.

(** The rounding against the IEEE 754 operations of the standard
    library, on a sample of quotients: exact ones, ties, and the
    quotients of the rates above. *)
Lemma round_ne_as_spec_float :
  forallb
    (fun p : positive * positive =>
       let (a, b) := p in
       let q := SFdiv 53 1024 (S754_finite false a 0) (S754_finite false b 0) in
       match spec_float_value q,
             spec_float_value (SFmul 53 1024 q (S754_finite false 100 0)) with
       | Some v, Some w =>
           Qeq_bool v (Float.round_ne (Z.pos a # b))
           && Qeq_bool w (Float.round_ne (Float.round_ne (Z.pos a # b) * 100))
       | _, _ => false
       end)
    [(7, 100); (93, 100); (1, 3); (2, 3); (1, 10); (123456789, 1000);
     (18014398509481983, 18014398509481984);
     (18014398509481981, 18014398509481984);
     (9007199254740993, 1); (9007199254740995, 1);
     (1, 18014398509481984)]%positive
  = true.
Proof. vm_compute. reflexivity. Qed.

Close Scope Q_scope.

(** ** C5 and C10: the compliance rate *)

(** C5 (as the scripts behave).  The compliance rate never raises a
    division by zero.  With no file scanned it is the integer 0.  With
    [total > 0] files and [errors] violations of severity error it is a
    float, the percentage [(total - errors) / total * 100] as Python
    computes it: the quotient rounded to a double, times 100, rounded
    again.  It is within the relative error of two roundings of the
    exact percentage, on counts that Python can hold. *)
Theorem C5_compliance_rate (results : Results) :
  let total := Z.of_nat (total_components results) in
  let errors := Z.of_nat (List.length (violations results)) in
  let exact := (inject_Z (total - errors) / inject_Z total * 100)%Q in
  compliance_rate results <> Py.Raises Py.ZeroDivisionError
  /\ (total_components results = 0 ->
      compliance_rate results = Py.Returns (Py.PyInt 0))
  /\ (0 < total_components results ->
      (total <= Py.maxsize)%Z -> (errors <= Py.maxsize)%Z ->
      exists rate value,
        compliance_rate results = Py.Returns rate
        /\ Py.value rate = Some value
        /\ (Qabs (value - exact) <= Qabs exact * rounding_error)%Q).
Proof.
  intros total errors exact. split; [|split].
  - unfold compliance_rate, Py.truediv. fold total.
    destruct (Z.ltb_spec 0 total) as [H|H]; [|discriminate].
    assert (Hne : (total =? 0)%Z = false) by (apply Z.eqb_neq; lia).
    rewrite Hne.
    destruct (Float.of_exact _ _); discriminate.
  - intros H. unfold compliance_rate. now rewrite H.
  - intros Hpos Ht He.
    assert (Ht' : (0 < total <= Py.maxsize)%Z) by (unfold total in *; lia).
    assert (He' : (0 <= errors <= Py.maxsize)%Z) by (unfold errors in *; lia).
    destruct (compliance_rate_value results Ht' He) as [Hr Hv].
    fold total in Hr, Hv. fold errors in Hr, Hv.
    eexists. eexists. split; [exact Hr|]. split; [exact Hv|].
    exact (rate_error total errors Ht' He').
Qed.

Lemma C5_witness :
  let results := MkResults (str "0") 4
                   [MkViolation [] 1 [] [] (str "error") [] []] [] in
  0 < total_components results
  /\ exists rate value,
       compliance_rate results = Py.Returns rate
       /\ Py.value rate = Some value
       /\ (Qabs (value - 75) <= 75 * rounding_error)%Q.
Proof.
  intros results.
  assert (H : 0 < total_components results) by (simpl; lia).
  assert (Ht : (Z.of_nat (total_components results) <= Py.maxsize)%Z)
    by (vm_compute; discriminate).
  assert (He : (Z.of_nat (List.length (violations results)) <= Py.maxsize)%Z)
    by (vm_compute; discriminate).
  split; [exact H|].
  destruct (proj2 (proj2 (C5_compliance_rate results)) H Ht He)
    as (rate & value & Hr & Hv & Hq).
  exists rate, value. split; [exact Hr|]. split; [exact Hv|].
  cbv zeta in Hq.
  assert (E : (inject_Z (Z.of_nat (total_components results)
                         - Z.of_nat (List.length (violations results)))
               / inject_Z (Z.of_nat (total_components results)) * 100 == 75)%Q)
    by reflexivity.
  rewrite E in Hq. exact Hq.
Defined.

(** C5 as stated fails: one file and no error give the rate 100, which
    is not [(1 - 0) / 1]. *)
Lemma C5_counterexample :
  let results := MkResults (str "0") 1 [] [] in
  exists rate value,
    compliance_rate results = Py.Returns rate
    /\ Py.value rate = Some value
    /\ (value == 100)%Q
    /\ ~ (value == inject_Z (1 - 0) / inject_Z 1)%Q.
Proof.
  eexists. eexists. split; [vm_compute; reflexivity|].
  split; [reflexivity|]. split; [reflexivity|].
  intros H. vm_compute in H. discriminate H.
Qed.

(** The rate is the float of Python, not the exact percentage: 7 files
    without error in 100 give [7.000000000000001], that is
    [7 + 2^-50]. *)
Lemma rate_is_rounded :
  let results :=
    MkResults (str "0") 100
      (repeat (MkViolation [] 1 [] [] (str "error") [] []) 93) [] in
  exists rate value,
    compliance_rate results = Py.Returns rate
    /\ Py.value rate = Some value
    /\ (value == 7 + 2 ^ (-50))%Q
    /\ (inject_Z (100 - 93) / inject_Z 100 * 100 == 7)%Q.
Proof.
  eexists. eexists. split; [vm_compute; reflexivity|].
  split; [reflexivity|]. split; reflexivity.
Qed.

(** C10.  The compliance rate is not confined to the range from 0 to 1:
    it counts violations of severity error, not files with errors.  One
    scanned file with two unlabelled touchables (or, in the web script,
    two unlabelled inputs) has more errors than there are files, and the
    rate is negative. *)
Theorem C10_compliance_rate_can_be_negative :
  exists content_mobile content_web : text,
  forall (relpath : text -> text -> text) (script_mtime root_dir file : text),
    (let r := Mobile.results relpath (fun _ => Some content_mobile)
                script_mtime root_dir [file] in
     0 < total_components r
     /\ total_components r < List.length (violations r)
     /\ exists rate value,
          compliance_rate r = Py.Returns rate
          /\ Py.value rate = Some value /\ (value < 0)%Q)
    /\ (let r := Web.results relpath (fun _ => Some content_web)
                   script_mtime root_dir [file] in
        0 < total_components r
        /\ total_components r < List.length (violations r)
        /\ exists rate value,
             compliance_rate r = Py.Returns rate
             /\ Py.value rate = Some value /\ (value < 0)%Q).
Proof.
  exists (str "<Pressable><Pressable>"), (str "<input><input>").
  intros relpath script_mtime root_dir file. split; cbv zeta.
  - split; [simpl; lia|]. split; [vm_compute; lia|].
    eexists. eexists. split; [vm_compute; reflexivity|].
    split; reflexivity.
  - split; [simpl; lia|]. split; [vm_compute; lia|].
    eexists. eexists. split; [vm_compute; reflexivity|].
    split; reflexivity.
Qed.

(** ** C6: a file that cannot be read *)

Lemma mobile_all_violations_app relpath read root_dir files1 files2 :
  Mobile.all_violations relpath read root_dir (files1 ++ files2)
  = Mobile.all_violations relpath read root_dir files1
    ++ Mobile.all_violations relpath read root_dir files2.
Proof.
  induction files1 as [|f files1 IH]; simpl; [reflexivity|].
  now rewrite IH, app_assoc.
Qed.

Lemma web_all_violations_app relpath read root_dir files1 files2 :
  Web.all_violations relpath read root_dir (files1 ++ files2)
  = Web.all_violations relpath read root_dir files1
    ++ Web.all_violations relpath read root_dir files2.
Proof.
  induction files1 as [|f files1 IH]; simpl; [reflexivity|].
  destruct (Web.audit_file relpath read f root_dir); [exact IH|].
  now rewrite IH, app_assoc.
Qed.

(** The loop of the web script adds what [audit_file] returns, as the
    loop of the mobile script does. *)
Lemma web_all_violations_cons relpath read root_dir f files :
  Web.all_violations relpath read root_dir (f :: files)
  = Web.audit_file relpath read f root_dir
    ++ Web.all_violations relpath read root_dir files.
Proof. simpl. now destruct (Web.audit_file relpath read f root_dir). Qed.

(** C6.  When a file of the enumeration cannot be read or decoded,
    [audit_file] returns no violation for it, the file is counted in
    [total_components], and the files before and after it contribute
    what they contribute without it: the run goes on. *)
Theorem C6_unreadable_file_is_skipped
    (relpath : text -> text -> text) (read : text -> option text)
    (script_mtime root_dir bad : text) (before after : list text) :
  read bad = None ->
  let files := before ++ bad :: after in
  (Mobile.audit_file relpath read bad root_dir = []
   /\ total_components (Mobile.results relpath read script_mtime root_dir files)
      = List.length before + 1 + List.length after
   /\ Mobile.all_violations relpath read root_dir files
      = Mobile.all_violations relpath read root_dir before
        ++ Mobile.all_violations relpath read root_dir after)
  /\ (Web.audit_file relpath read bad root_dir = []
      /\ total_components (Web.results relpath read script_mtime root_dir files)
         = List.length before + 1 + List.length after
      /\ Web.all_violations relpath read root_dir files
         = Web.all_violations relpath read root_dir before
           ++ Web.all_violations relpath read root_dir after).
Proof.
  intros Hbad files.
  assert (Hm : Mobile.audit_file relpath read bad root_dir = [])
    by (unfold Mobile.audit_file; now rewrite Hbad).
  assert (Hw : Web.audit_file relpath read bad root_dir = [])
    by (unfold Web.audit_file; now rewrite Hbad).
  assert (Hl : List.length files = List.length before + 1 + List.length after)
    by (unfold files; rewrite length_app; simpl; lia).
  repeat split; try assumption.
  - unfold files. rewrite mobile_all_violations_app. simpl. now rewrite Hm.
  - unfold files. rewrite web_all_violations_app, web_all_violations_cons.
    now rewrite Hw.
Qed.

Lemma C6_witness :
  let read := fun path : text =>
    if text_eqb path (str "Bad.tsx") then None
    else Some (str "<Image>") in
  read (str "Bad.tsx") = None
  /\ Mobile.all_violations (fun p _ => p) read (str "src")
       [str "A.tsx"; str "Bad.tsx"; str "B.tsx"]
     = Mobile.all_violations (fun p _ => p) read (str "src") [str "A.tsx"]
       ++ Mobile.all_violations (fun p _ => p) read (str "src") [str "B.tsx"].
Proof.
  intros read.
  assert (H : read (str "Bad.tsx") = None) by (vm_compute; reflexivity).
  split; [exact H|].
  exact (proj2 (proj2 (proj1
    (C6_unreadable_file_is_skipped (fun p _ => p) read (str "0") (str "src")
       (str "Bad.tsx") [str "A.tsx"] [str "B.tsx"] H)))).
Defined.

(** ** C7: modals and dialogs in the web script *)

(** C7.  Every occurrence of the modal pattern in a web source is the
    opening tag of a dialog or modal element.  When the text
    [DialogPrimitive] stands in the file before the occurrence, the rule
    yields nothing, whatever the attributes.  When it does not, the rule
    yields nothing if no marker is missing, and otherwise exactly one
    violation, of severity error, whose issue lists the missing markers,
    each of them and no other: the dialog role ([role] with the value
    [dialog] or [alertdialog]), [aria-modal] with the value [true], and
    [aria-labelledby]. *)
Theorem C7_modal_rule (relative_path content : text) (m : Re.Match) :
  In m (Web.occurrences content Re.IGNORECASE Web.modal_pattern) ->
  let before := firstn (Re.m_start m) content in
  let attributes := Re.group_or_empty content 2 m in
  let primitive := occurs_in (str "DialogPrimitive") before in
  let role :=
    holds_attr same_letters (str "role") (str "dialog") attributes
    \/ holds_attr same_letters (str "role") (str "alertdialog") attributes in
  let modal := holds_attr same_letters (str "aria-modal") (str "true") attributes in
  let labelledby := names_attr (str "aria-labelledby") attributes in
  let found := Web.modal_rule relative_path content m in
  is_open_tag ["Dialog"; "DialogContent"; "Modal"; "dialog"] content m
    (Re.group_or_empty content 1 m) attributes
  /\ (primitive -> found = [])
  /\ (~ primitive ->
      (role /\ modal /\ labelledby -> found = [])
      /\ (~ (role /\ modal /\ labelledby) ->
          exists v, found = [v]
            /\ severity v = str "error"
            /\ line v = line_of content m
            /\ issue v = str "Modal/dialog missing ARIA attributes: "
                         ++ Py.join (str ", ")
                              (Web.modal_issues before attributes)
            /\ (mentions (str "Missing role=" ++ dq "dialog") (issue v) = true
                <-> ~ role)
            /\ (mentions (str "Missing aria-modal=" ++ dq "true") (issue v) = true
                <-> ~ modal)
            /\ (mentions (str "Missing aria-labelledby") (issue v) = true
                <-> ~ labelledby))).
Proof.
  intros H before attributes primitive role modal labelledby found.
  subst primitive role modal labelledby found.
  split; [now apply open_tag_occurrence|].
  pose proof (contains_iff (str "DialogPrimitive") before) as E0.
  pose proof (attr_value_lit_iff "role" "dialog" attributes) as E1.
  pose proof (attr_value_lit_iff "role" "alertdialog" attributes) as E2.
  pose proof (attr_value_lit_iff "aria-modal" "true" attributes) as E3.
  pose proof (has_attr_iff "aria-labelledby" attributes) as E4.
  unfold Web.modal_rule, Web.modal_issues. fold before. fold attributes.
  change (attr_value "role" (Re.lit "dialog")) with Web.role_dialog in E1.
  change (attr_value "role" (Re.lit "alertdialog")) with Web.role_alertdialog in E2.
  change (attr_value "aria-modal" (Re.lit "true")) with Web.aria_modal_true in E3.
  revert E0 E1 E2 E3 E4.
  generalize (occurs_in (str "DialogPrimitive") before) as P0.
  generalize (holds_attr same_letters (str "role") (str "dialog") attributes) as P1.
  generalize (holds_attr same_letters (str "role") (str "alertdialog") attributes) as P2.
  generalize (holds_attr same_letters (str "aria-modal") (str "true") attributes) as P3.
  generalize (names_attr (str "aria-labelledby") attributes) as P4.
  generalize (Py.contains (str "DialogPrimitive") before) as prim.
  generalize (Re.found Re.IGNORECASE Web.role_dialog attributes) as r1.
  generalize (Re.found Re.IGNORECASE Web.role_alertdialog attributes) as r2.
  generalize (Re.found Re.IGNORECASE Web.aria_modal_true attributes) as am.
  generalize (has_attr "aria-labelledby" attributes) as lb.
  intros lb am r2 r1 prim P4 P3 P2 P1 P0 E0 E1 E2 E3 E4.
  destruct prim, r1, r2, am, lb;
    (split; [intros HP|intros HP; split; intros HM]);
    first
      [ reflexivity
      | solve [exfalso; intuition congruence]
      | eexists; (split; [reflexivity|]);
        cbn [severity line issue];
        split; [reflexivity|]; split; [reflexivity|]; split; [reflexivity|];
        repeat match goal with
        | |- context [mentions ?what ?message] =>
            let b := eval vm_compute in (mentions what message) in
            change (mentions what message) with b
        end;
        intuition congruence ].
Qed.

Lemma C7_witness :
  let content := str "import * as DialogPrimitive from 'radix'" ++ [newline]
                 ++ str "<DialogContent>" in
  let m := Re.MkMatch 41 56 [(2, (48, 55)); (1, (42, 48))] in
  In m (Web.occurrences content Re.IGNORECASE Web.modal_pattern)
  /\ occurs_in (str "DialogPrimitive") (firstn (Re.m_start m) content)
  /\ Web.modal_rule (str "Sheet.tsx") content m = [].
Proof.
  intros content m.
  assert (H : In m (Web.occurrences content Re.IGNORECASE Web.modal_pattern))
    by (vm_compute; left; reflexivity).
  assert (P : occurs_in (str "DialogPrimitive") (firstn (Re.m_start m) content))
    by (apply contains_iff; vm_compute; reflexivity).
  split; [exact H|]. split; [exact P|].
  exact (proj1 (proj2 (C7_modal_rule (str "Sheet.tsx") content m H)) P).
Defined.

(** ** C8: the order of the violations *)

Lemma sorted_const_app (n : nat) (l1 l2 : list nat) :
  Forall (eq n) l1 -> Forall (le n) l2 -> StronglySorted le l2 ->
  StronglySorted le (l1 ++ l2).
Proof.
  intros H1 H2 Hs. induction H1 as [|x l1 <- H1 IH]; simpl; [exact Hs|].
  constructor; [exact IH|].
  apply Forall_app. split; [|exact H2].
  eapply Forall_impl; [|exact H1]. intros a <-. apply Nat.le_refl.
Qed.

Lemma flat_map_lines_sorted (content : text) (rule : Re.Match -> list Violation)
      (occs : list Re.Match) :
  (forall m v, In v (rule m) -> line v = line_of content m) ->
  StronglySorted lt (List.map Re.m_start occs) ->
  StronglySorted le (List.map line (flat_map rule occs)).
Proof.
  intros Hrule. induction occs as [|m occs IH]; intros Hs; simpl.
  - constructor.
  - inversion Hs as [|? ? Hs' Hall]; subst. specialize (IH Hs').
    rewrite map_app.
    apply sorted_const_app with (n := line_of content m); [| |exact IH].
    + apply Forall_map, Forall_forall. intros v Hv. symmetry. now apply Hrule.
    + apply Forall_map, Forall_forall. intros v Hv.
      apply in_flat_map in Hv as (m' & Hm' & Hv).
      rewrite (Hrule _ _ Hv). apply line_of_mono.
      rewrite Forall_forall in Hall.
      apply Nat.lt_le_incl, Hall, in_map, Hm'.
Qed.

(** Every rule reports the line of the occurrence it looks at. *)
Ltac rule_line :=
  repeat match goal with
  | H : In _ (if ?b then _ else _) |- _ => destruct b
  | H : In _ (match ?l with [] => _ | _ :: _ => _ end) |- _ => destruct l
  end;
  match goal with
  | H : In _ [] |- _ => destruct H
  | H : In _ [_] |- _ => destruct H as [<-|[]]; reflexivity
  end.

Lemma mobile_rule_lines rel content m v :
  In v (Mobile.touchable_rule rel content m)
  \/ In v (Mobile.image_rule rel content m)
  \/ In v (Mobile.textinput_rule rel content m)
  \/ In v (Mobile.button_rule rel content m)
  \/ In v (Mobile.view_rule rel content m) ->
  line v = line_of content m.
Proof.
  unfold Mobile.touchable_rule, Mobile.image_rule, Mobile.textinput_rule,
    Mobile.button_rule, Mobile.view_rule.
  intros [H|[H|[H|[H|H]]]]; rule_line.
Qed.

Lemma web_rule_lines rel content m v :
  In v (Web.icon_button_rule rel content m)
  \/ In v (Web.input_rule rel content m)
  \/ In v (Web.modal_rule rel content m)
  \/ In v (Web.link_rule rel content m) ->
  line v = line_of content m.
Proof.
  unfold Web.icon_button_rule, Web.input_rule, Web.modal_rule, Web.link_rule.
  intros [H|[H|[H|H]]]; rule_line.
Qed.

Lemma mobile_loop_sorted content p rule :
  (forall m v, In v (rule m) -> line v = line_of content m) ->
  StronglySorted le (List.map line (Mobile.loop content p rule)).
Proof.
  intros H. apply flat_map_lines_sorted with (content := content); [exact H|].
  apply finditer_from_sorted.
Qed.

Lemma web_loop_sorted content fl p rule :
  (forall m v, In v (rule m) -> line v = line_of content m) ->
  StronglySorted le (List.map line (Web.loop content fl p rule)).
Proof.
  intros H. apply flat_map_lines_sorted with (content := content); [exact H|].
  apply finditer_from_sorted.
Qed.

(** C8 (as the scripts behave).  The violations come file by file in the
    order of the enumeration; within a file they come rule by rule, in
    the order in which the script runs its patterns; and within a rule
    they follow the occurrences, whose offsets increase strictly, so
    that their lines never decrease. *)
Theorem C8_violation_order
    (relpath : text -> text -> text) (read : text -> option text)
    (root_dir : text) (files1 files2 : list text)
    (relative_path content : text) :
  (Mobile.all_violations relpath read root_dir (files1 ++ files2)
   = Mobile.all_violations relpath read root_dir files1
     ++ Mobile.all_violations relpath read root_dir files2
   /\ Mobile.audit_content relative_path content
      = List.concat (mobile_loops relative_path content)
   /\ (forall p, StronglySorted lt
                   (List.map Re.m_start (Mobile.occurrences content p)))
   /\ Forall (fun l => StronglySorted le (List.map line l))
        (mobile_loops relative_path content))
  /\ (Web.all_violations relpath read root_dir (files1 ++ files2)
      = Web.all_violations relpath read root_dir files1
        ++ Web.all_violations relpath read root_dir files2
      /\ Web.audit_content relative_path content
         = List.concat (web_loops relative_path content)
      /\ (forall fl p, StronglySorted lt
                         (List.map Re.m_start (Web.occurrences content fl p)))
      /\ Forall (fun l => StronglySorted le (List.map line l))
           (web_loops relative_path content)).
Proof.
  split; split; [| split; [| split] | | split; [| split]].
  - apply mobile_all_violations_app.
  - unfold Mobile.audit_content, mobile_loops. simpl. now rewrite app_nil_r.
  - intros p. apply finditer_from_sorted.
  - unfold mobile_loops.
    repeat constructor; apply mobile_loop_sorted; intros m v Hv;
      apply (mobile_rule_lines relative_path content m v); tauto.
  - apply web_all_violations_app.
  - unfold Web.audit_content, web_loops. simpl. now rewrite app_nil_r.
  - intros fl p. apply finditer_from_sorted.
  - unfold web_loops.
    repeat constructor; apply web_loop_sorted; intros m v Hv;
      apply (web_rule_lines relative_path content m v); tauto.
Qed.

(** C8 as stated fails: an image on line 1 and a touchable on line 2 of
    one file.  The image starts first (offset 0, the touchable at 8),
    and its violation comes second, because the touchable pattern runs
    before the image pattern. *)
Lemma C8_counterexample :
  let content := str "<Image>" ++ [newline] ++ str "<TouchableOpacity>" in
  List.map Re.m_start (Mobile.occurrences content Mobile.image_pattern) = [0]
  /\ List.map Re.m_start (Mobile.occurrences content Mobile.touchable_pattern) = [8]
  /\ List.map (fun v => (element v, line v))
       (Mobile.audit_content (str "Card.tsx") content)
     = [(str "TouchableOpacity", 2); (str "Image", 1)].
Proof. vm_compute. repeat split. Qed.

(** ** C9: the audit is a function of the files it reads *)

Lemma mobile_all_violations_ext relpath read1 read2 root_dir files :
  (forall f, In f files -> read1 f = read2 f) ->
  Mobile.all_violations relpath read1 root_dir files
  = Mobile.all_violations relpath read2 root_dir files.
Proof.
  induction files as [|f files IH]; intros H; simpl; [reflexivity|].
  unfold Mobile.audit_file. rewrite (H f (or_introl eq_refl)), IH;
    [reflexivity|]. intros g Hg. apply H. now right.
Qed.

Lemma web_all_violations_ext relpath read1 read2 root_dir files :
  (forall f, In f files -> read1 f = read2 f) ->
  Web.all_violations relpath read1 root_dir files
  = Web.all_violations relpath read2 root_dir files.
Proof.
  induction files as [|f files IH]; intros H; simpl; [reflexivity|].
  unfold Web.audit_file. rewrite (H f (or_introl eq_refl)), IH;
    [reflexivity|]. intros g Hg. apply H. now right.
Qed.

(** C9.  Two runs over the same enumeration, in which every enumerated
    file reads the same, give the same result: the same count of files,
    the same errors and the same warnings in the same order, and the
    same compliance rate.  Nothing else that a run can observe (what
    other paths contain, the time stamp of the report) reaches the
    violations. *)
Theorem C9_deterministic
    (relpath : text -> text -> text) (read1 read2 : text -> option text)
    (mtime1 mtime2 root_dir : text) (files : list text) :
  (forall f, In f files -> read1 f = read2 f) ->
  (let r1 := Mobile.results relpath read1 mtime1 root_dir files in
   let r2 := Mobile.results relpath read2 mtime2 root_dir files in
   total_components r1 = total_components r2
   /\ violations r1 = violations r2
   /\ warnings r1 = warnings r2
   /\ compliance_rate r1 = compliance_rate r2)
  /\ (let r1 := Web.results relpath read1 mtime1 root_dir files in
      let r2 := Web.results relpath read2 mtime2 root_dir files in
      total_components r1 = total_components r2
      /\ violations r1 = violations r2
      /\ warnings r1 = warnings r2
      /\ compliance_rate r1 = compliance_rate r2).
Proof.
  intros H. split; cbv zeta.
  - unfold Mobile.results, compliance_rate. cbn [total_components violations warnings].
    rewrite (mobile_all_violations_ext relpath read1 read2 root_dir files H).
    repeat split.
  - unfold Web.results, compliance_rate. cbn [total_components violations warnings].
    rewrite (web_all_violations_ext relpath read1 read2 root_dir files H).
    repeat split.
Qed.

Lemma C9_witness :
  let read1 := fun path : text =>
    if text_eqb path (str "A.tsx") then Some (str "<Button>") else None in
  let read2 := fun path : text =>
    if text_eqb path (str "A.tsx") then Some (str "<Button>")
    else Some (str "<Image>") in
  (forall f, In f [str "A.tsx"] -> read1 f = read2 f)
  /\ violations (Mobile.results (fun p _ => p) read1 (str "1") (str "src") [str "A.tsx"])
     = violations (Mobile.results (fun p _ => p) read2 (str "2") (str "src") [str "A.tsx"]).
Proof.
  intros read1 read2.
  assert (H : forall f, In f [str "A.tsx"] -> read1 f = read2 f)
    by (intros f [<-|[]]; vm_compute; reflexivity).
  split; [exact H|].
  exact (proj1 (proj2 (proj1
    (C9_deterministic (fun p _ => p) read1 read2 (str "1") (str "2") (str "src")
       [str "A.tsx"] H)))).
Defined.

(** * Further properties of the scripts *)

(** ** The enumeration of the files *)

Lemma tree_induction (P : tree -> Prop) :
  P Unwalked ->
  (forall dirs filenames,
      (forall d sub, In (d, sub) dirs -> P sub) -> P (Node dirs filenames)) ->
  forall t, P t.
Proof.
  intros HU HN. fix IH 1. intros [dirs filenames|]; [|exact HU].
  apply HN. induction dirs as [|[d sub] ds IHds]; intros d' sub' Hin.
  - destruct Hin.
  - destruct Hin as [E|Hin].
    + injection E as <- <-. apply IH.
    + exact (IHds d' sub' Hin).
Qed.

(** The files of a directory, then what the walk finds in each of its
    sub-directories that is not excluded. *)
Lemma find_component_files_node dirs filenames root :
  find_component_files (Node dirs filenames) root
  = List.map (Py.path_join root) (filter is_component filenames)
    ++ flat_map (fun entry =>
                   if in_set (fst entry) excluded_dirs then []
                   else find_component_files (snd entry)
                          (Py.path_join root (fst entry)))
         dirs.
Proof.
  simpl. f_equal. induction dirs as [|[d sub] ds IH]; simpl; [reflexivity|].
  now rewrite IH.
Qed.

Lemma find_component_files_sound t : forall root p,
  In p (find_component_files t root) ->
  exists dir filename,
    located t root dir filename /\ is_component filename = true
    /\ p = Py.path_join dir filename.
Proof.
  pattern t. apply tree_induction; clear t;
    [intros root p H|intros dirs filenames IH root p H].
  - destruct H.
  - rewrite find_component_files_node in H. apply in_app_or in H as [H|H].
    + apply in_map_iff in H as (filename & <- & H).
      apply filter_In in H as [Hin Hc].
      exists root, filename. split; [now constructor|auto].
    + apply in_flat_map in H as ([d sub] & Hin & H). cbn [fst snd] in H.
      destruct (in_set d excluded_dirs) eqn:E; [destruct H|].
      apply (IH d sub Hin) in H as (dir & filename & L & Hc & ->).
      exists dir, filename. split; [|auto].
      now apply LocatedBelow with (d := d) (sub := sub).
Qed.

Lemma find_component_files_complete t root dir filename :
  located t root dir filename -> is_component filename = true ->
  In (Py.path_join dir filename) (find_component_files t root).
Proof.
  intros L Hc.
  induction L as [dirs filenames root filename Hin
                 |dirs filenames root d sub dir filename Hin E _ IH];
    rewrite find_component_files_node; apply in_or_app.
  - left. apply in_map, filter_In. auto.
  - right. apply in_flat_map. exists (d, sub). split; [exact Hin|].
    cbn [fst snd]. rewrite E. exact (IH Hc).
Qed.

(** X1.  [find_component_files] returns exactly the files that the walk
    can reach from the root without going through an excluded
    directory, and whose name passes the test: a path is returned if and
    only if it is [os.path.join] of such a directory and such a name. *)
Theorem X1_find_component_files_exact (t : tree) (root p : text) :
  In p (find_component_files t root)
  <-> exists dir filename,
        located t root dir filename /\ is_component filename = true
        /\ p = Py.path_join dir filename.
Proof.
  split.
  - apply find_component_files_sound.
  - intros (dir & filename & L & Hc & ->).
    now apply find_component_files_complete.
Qed.

(** X2.  An excluded directory is never entered: whatever it contains,
    the result is the same as without it. *)
Theorem X2_excluded_directory_is_pruned
    (before after : list (text * tree)) (d : text) (sub : tree)
    (filenames : list text) (root : text) :
  in_set d excluded_dirs = true ->
  find_component_files (Node (before ++ (d, sub) :: after) filenames) root
  = find_component_files (Node (before ++ after) filenames) root.
Proof.
  intros E. rewrite !find_component_files_node, !flat_map_app.
  cbn [flat_map fst snd]. now rewrite E.
Qed.

Lemma X2_witness :
  in_set (str "node_modules") excluded_dirs = true
  /\ find_component_files
       (Node [(str "ui", Node [] [str "Card.tsx"]);
              (str "node_modules", Node [] [str "Lib.tsx"])] [])
       (str "src")
     = [str "src/ui/Card.tsx"].
Proof.
  assert (E : in_set (str "node_modules") excluded_dirs = true)
    by (vm_compute; reflexivity).
  split; [exact E|].
  refine (eq_trans
            (X2_excluded_directory_is_pruned
               [(str "ui", Node [] [str "Card.tsx"])] []
               (str "node_modules") (Node [] [str "Lib.tsx"]) [] (str "src") E)
            _).
  vm_compute. reflexivity.
Defined.

Lemma startswith_app_skip (p a : text) (c : char) (b : text) :
  ~ In c p -> Py.startswith p (a ++ c :: b) = Py.startswith p a.
Proof.
  revert a. induction p as [|x p IH]; intros a Hc; [now destruct a|].
  destruct a as [|y a]; simpl.
  - destruct (N.eqb_spec x c) as [->|_]; [|reflexivity].
    exfalso. apply Hc. now left.
  - rewrite IH; [reflexivity|]. intros H. apply Hc. now right.
Qed.

Lemma endswith_single (c : char) (a : text) :
  Py.endswith [c] a = true -> exists a', a = a' ++ [c].
Proof.
  unfold Py.endswith. simpl. destruct (rev a) as [|x r] eqn:E; [discriminate|].
  rewrite andb_true_r. intros H. apply N.eqb_eq in H as <-.
  exists (rev r). rewrite <- (rev_involutive a), E. reflexivity.
Qed.

Lemma endswith_after_separator (suffix a b : text) (c : char) :
  ~ In c suffix -> Py.endswith suffix (a ++ c :: b) = Py.endswith suffix b.
Proof.
  intros Hc. unfold Py.endswith.
  rewrite rev_app_distr. simpl. rewrite <- app_assoc. simpl.
  apply startswith_app_skip. now rewrite <- in_rev.
Qed.

(** A suffix without a separator is a suffix of the joined path exactly
    when it is one of the last component. *)
Lemma endswith_path_join (suffix a b : text) :
  ~ In (ch "/") suffix ->
  Py.endswith suffix (Py.path_join a b) = Py.endswith suffix b.
Proof.
  intros Hs. unfold Py.path_join.
  destruct (Py.startswith [ch "/"] b); [reflexivity|].
  destruct a as [|x a]; [reflexivity|].
  destruct (Py.endswith [ch "/"] (x :: a)) eqn:E.
  - apply endswith_single in E as [a' ->]. rewrite <- app_assoc. simpl.
    now apply endswith_after_separator.
  - now apply endswith_after_separator.
Qed.

(** X3.  Every path that [find_component_files] returns ends with
    [.tsx], and with none of [.test.tsx], [.spec.tsx] and
    [.stories.tsx]. *)
Theorem X3_only_component_files (t : tree) (root p : text) :
  In p (find_component_files t root) ->
  Py.endswith (str ".tsx") p = true
  /\ Py.endswith (str ".test.tsx") p = false
  /\ Py.endswith (str ".spec.tsx") p = false
  /\ Py.endswith (str ".stories.tsx") p = false.
Proof.
  intros H. apply find_component_files_sound in H as (dir & f & _ & Hc & ->).
  unfold is_component in Hc. apply andb_prop in Hc as [Ht Hx].
  apply negb_true_iff in Hx. cbn [existsb excluded_suffixes] in Hx.
  apply orb_false_elim in Hx as [H1 Hx].
  apply orb_false_elim in Hx as [H2 Hx].
  apply orb_false_elim in Hx as [H3 _].
  rewrite !endswith_path_join; [auto| | | |];
    vm_compute; intuition discriminate.
Qed.

Lemma X3_witness :
  let t := Node [(str "ui", Node [] [str "Card.tsx"; str "Card.test.tsx"])]
             [str "index.ts"] in
  In (str "src/ui/Card.tsx") (find_component_files t (str "src"))
  /\ Py.endswith (str ".tsx") (str "src/ui/Card.tsx") = true.
Proof.
  intros t.
  assert (H : In (str "src/ui/Card.tsx") (find_component_files t (str "src")))
    by (vm_compute; left; reflexivity).
  split; [exact H|].
  exact (proj1 (X3_only_component_files t (str "src") (str "src/ui/Card.tsx") H)).
Defined.

(** ** What every violation carries *)

Ltac rule_facts :=
  repeat match goal with
  | H : In _ (if ?b then _ else _) |- _ => destruct b
  | H : In _ (match ?l with [] => _ | _ :: _ => _ end) |- _ => destruct l
  end;
  match goal with
  | H : In _ [] |- _ => destruct H
  | H : In _ [_] |- _ => destruct H as [<-|[]]; cbn; auto 10
  end.

Lemma mobile_rule_facts rel content m v :
  In v (Mobile.touchable_rule rel content m)
  \/ In v (Mobile.image_rule rel content m)
  \/ In v (Mobile.textinput_rule rel content m)
  \/ In v (Mobile.button_rule rel content m)
  \/ In v (Mobile.view_rule rel content m) ->
  file v = rel /\ line v = line_of content m
  /\ severity v = str "error"
  /\ code_snippet v = firstn 100 (Re.group0 content m).
Proof.
  unfold Mobile.touchable_rule, Mobile.image_rule, Mobile.textinput_rule,
    Mobile.button_rule, Mobile.view_rule, Mobile.snippet.
  intros [H|[H|[H|[H|H]]]]; rule_facts.
Qed.

Lemma web_rule_facts rel content m v :
  In v (Web.icon_button_rule rel content m)
  \/ In v (Web.input_rule rel content m)
  \/ In v (Web.modal_rule rel content m)
  \/ In v (Web.link_rule rel content m) ->
  file v = rel /\ line v = line_of content m
  /\ (severity v = str "error"
      \/ severity v = str "warning" /\ element v = str "Link")
  /\ (code_snippet v = firstn 100 (Re.group0 content m)
      \/ code_snippet v = firstn 150 (Re.group0 content m)).
Proof.
  unfold Web.icon_button_rule, Web.input_rule, Web.modal_rule, Web.link_rule.
  intros [H|[H|[H|H]]]; rule_facts.
Qed.

Lemma mobile_audit_content_inv rel content v :
  In v (Mobile.audit_content rel content) ->
  exists p m, In m (Mobile.occurrences content p)
    /\ file v = rel /\ line v = line_of content m
    /\ severity v = str "error"
    /\ code_snippet v = firstn 100 (Re.group0 content m).
Proof.
  unfold Mobile.audit_content, Mobile.loop. intros H.
  repeat (apply in_app_or in H as [H|H]);
    apply in_flat_map in H as (m & Hm & H);
    eexists _, m; (split; [exact Hm|]);
    apply (mobile_rule_facts rel content m v); tauto.
Qed.

Lemma web_audit_content_inv rel content v :
  In v (Web.audit_content rel content) ->
  exists fl p m, In m (Web.occurrences content fl p)
    /\ file v = rel /\ line v = line_of content m
    /\ (severity v = str "error"
        \/ severity v = str "warning" /\ element v = str "Link")
    /\ (code_snippet v = firstn 100 (Re.group0 content m)
        \/ code_snippet v = firstn 150 (Re.group0 content m)).
Proof.
  unfold Web.audit_content, Web.loop. intros H.
  repeat (apply in_app_or in H as [H|H]);
    apply in_flat_map in H as (m & Hm & H);
    eexists _, _, m; (split; [exact Hm|]);
    apply (web_rule_facts rel content m v); tauto.
Qed.

Lemma length_split c s : List.length (Py.split c s) = Py.count c s + 1.
Proof.
  induction s as [|x s IH]; [reflexivity|]. simpl.
  destruct (N.eqb x c); simpl; [now rewrite IH|].
  destruct (Py.split c s) as [|l ls]; simpl in *; lia.
Qed.

Lemma count_firstn_le c n (s : text) : Py.count c (firstn n s) <= Py.count c s.
Proof.
  revert n. induction s as [|x s IH]; intros [|n]; simpl; try lia.
  specialize (IH n). lia.
Qed.

Lemma line_of_bounds content m :
  1 <= line_of content m <= List.length (Py.split newline content).
Proof.
  unfold line_of. rewrite length_split.
  pose proof (count_firstn_le newline (Re.m_start m) content). lia.
Qed.

Lemma snippet_occurs n content m :
  occurs_in (firstn n (Re.group0 content m)) content
  /\ List.length (firstn n (Re.group0 content m)) <= n.
Proof.
  split; [|apply firstn_le_length].
  unfold Re.group0, Re.slice. rewrite firstn_firstn.
  exists (firstn (Re.m_start m) content),
    (skipn (Nat.min n (Re.m_end m - Re.m_start m)) (skipn (Re.m_start m) content)).
  now rewrite !firstn_skipn.
Qed.

(** X4.  Every violation of a file names the file by its relative path
    and points to a line of it: the line number is at least 1 and at
    most the number of lines of the content, in both scripts. *)
Theorem X4_violation_points_into_the_file (relative_path content : text)
        (v : Violation) :
  In v (Mobile.audit_content relative_path content)
  \/ In v (Web.audit_content relative_path content) ->
  file v = relative_path
  /\ 1 <= line v <= List.length (Py.split newline content).
Proof.
  intros [H|H].
  - apply mobile_audit_content_inv in H as (p & m & _ & Hf & Hl & _).
    rewrite Hl. split; [exact Hf|apply line_of_bounds].
  - apply web_audit_content_inv in H as (fl & p & m & _ & Hf & Hl & _).
    rewrite Hl. split; [exact Hf|apply line_of_bounds].
Qed.

Lemma X4_witness :
  let content := str "<View>" ++ [newline] ++ str "<Image>" in
  let v := MkViolation (str "Card.tsx") 2 (str "Image")
             (str "Image missing accessibilityLabel") (str "error")
             (str "Add accessibilityLabel prop or mark as decorative with accessibilityRole="
              ++ dq "none")
             (str "<Image>") in
  In v (Mobile.audit_content (str "Card.tsx") content)
  /\ 1 <= line v <= List.length (Py.split newline content).
Proof.
  intros content v.
  assert (H : In v (Mobile.audit_content (str "Card.tsx") content))
    by (vm_compute; left; reflexivity).
  split; [exact H|].
  exact (proj2 (X4_violation_points_into_the_file (str "Card.tsx") content v
                  (or_introl H))).
Defined.

(** X5.  The code snippet of a violation is an excerpt of the file, the
    beginning of the matched text: it stands in the content, and it has
    at most 100 characters in the mobile script and at most 150 in the
    web script. *)
Theorem X5_snippet_is_a_bounded_excerpt (relative_path content : text)
        (v : Violation) :
  (In v (Mobile.audit_content relative_path content) ->
   occurs_in (code_snippet v) content /\ List.length (code_snippet v) <= 100)
  /\ (In v (Web.audit_content relative_path content) ->
      occurs_in (code_snippet v) content /\ List.length (code_snippet v) <= 150).
Proof.
  split; intros H.
  - apply mobile_audit_content_inv in H as (p & m & _ & _ & _ & _ & ->).
    apply snippet_occurs.
  - apply web_audit_content_inv in H as (fl & p & m & _ & _ & _ & _ & [-> | ->]).
    + destruct (snippet_occurs 100 content m). split; [assumption|lia].
    + apply snippet_occurs.
Qed.

Lemma X5_witness :
  let content := str "<a href='/'></a>" in
  let v := MkViolation (str "Nav.tsx") 1 (str "Link")
             (str "Link missing aria-label or accessible text") (str "warning")
             (str "Add aria-label prop or ensure link has visible text or image with alt text")
             (str "<a href='/'></a>") in
  In v (Web.audit_content (str "Nav.tsx") content)
  /\ occurs_in (code_snippet v) content.
Proof.
  intros content v.
  assert (H : In v (Web.audit_content (str "Nav.tsx") content))
    by (vm_compute; left; reflexivity).
  split; [exact H|].
  exact (proj1 (proj2 (X5_snippet_is_a_bounded_excerpt (str "Nav.tsx") content v) H)).
Defined.

(** ** What the results hold *)

Lemma mobile_all_violations_inv relpath read root_dir files v :
  In v (Mobile.all_violations relpath read root_dir files) ->
  exists f content, In f files /\ read f = Some content
    /\ In v (Mobile.audit_content (relpath f root_dir) content).
Proof.
  induction files as [|f files IH]; simpl; [intros []|]. intros H.
  apply in_app_or in H as [H|H].
  - unfold Mobile.audit_file in H. destruct (read f) as [content|] eqn:E;
      [|destruct H]. exists f, content. auto.
  - apply IH in H as (g & content & Hg & Hr & Hv). exists g, content. auto.
Qed.

Lemma web_all_violations_flat relpath read root_dir files :
  Web.all_violations relpath read root_dir files
  = flat_map (fun f => Web.audit_file relpath read f root_dir) files.
Proof.
  induction files as [|f files IH]; [reflexivity|].
  rewrite web_all_violations_cons, IH. reflexivity.
Qed.

Lemma web_all_violations_inv relpath read root_dir files v :
  In v (Web.all_violations relpath read root_dir files) ->
  exists f content, In f files /\ read f = Some content
    /\ In v (Web.audit_content (relpath f root_dir) content).
Proof.
  rewrite web_all_violations_flat. intros H.
  apply in_flat_map in H as (f & Hf & H).
  unfold Web.audit_file in H. destruct (read f) as [content|] eqn:E;
    [|destruct H]. exists f, content. auto.
Qed.

Lemma filter_all {A : Type} (f : A -> bool) (l : list A) :
  (forall x, In x l -> f x = true) -> filter f l = l.
Proof.
  induction l as [|x l IH]; intros H; simpl; [reflexivity|].
  rewrite (H x (or_introl eq_refl)), IH; [reflexivity|].
  intros y Hy. apply H. now right.
Qed.

Lemma filter_none {A : Type} (f : A -> bool) (l : list A) :
  (forall x, In x l -> f x = false) -> filter f l = [].
Proof.
  induction l as [|x l IH]; intros H; simpl; [reflexivity|].
  rewrite (H x (or_introl eq_refl)). apply IH.
  intros y Hy. apply H. now right.
Qed.

(** X6.  The mobile script has no rule of severity warning: whatever
    the files hold, the list of warnings of its results is empty and the
    list of errors is the list of all the violations, in their order. *)
Theorem X6_mobile_never_warns
    (relpath : text -> text -> text) (read : text -> option text)
    (script_mtime root_dir : text) (files : list text) :
  let r := Mobile.results relpath read script_mtime root_dir files in
  warnings r = []
  /\ violations r = Mobile.all_violations relpath read root_dir files.
Proof.
  assert (E : forall v,
             In v (Mobile.all_violations relpath read root_dir files) ->
             severity v = str "error").
  { intros v H. apply mobile_all_violations_inv in H as (f & c & _ & _ & H).
    now apply mobile_audit_content_inv in H as (p & m & _ & _ & _ & Hs & _). }
  cbv zeta. unfold Mobile.results. cbn [warnings violations]. split.
  - apply filter_none. intros v Hv. unfold is_warning. now rewrite (E v Hv).
  - apply filter_all. intros v Hv. unfold is_error. now rewrite (E v Hv).
Qed.

(** X7.  In the web script every violation is an error or a warning and
    never both, so that the two lists of the results share out the
    violations: their lengths add up to the number of violations, and
    the warnings are all link violations. *)
Theorem X7_web_results_share_out_the_violations
    (relpath : text -> text -> text) (read : text -> option text)
    (script_mtime root_dir : text) (files : list text) :
  let all := Web.all_violations relpath read root_dir files in
  let r := Web.results relpath read script_mtime root_dir files in
  List.length (violations r) + List.length (warnings r) = List.length all
  /\ (forall v, In v all <-> In v (violations r) \/ In v (warnings r))
  /\ (forall v, ~ (In v (violations r) /\ In v (warnings r)))
  /\ (forall v, In v (warnings r) -> element v = str "Link").
Proof.
  cbv zeta. unfold Web.results. cbn [warnings violations].
  set (all := Web.all_violations relpath read root_dir files).
  assert (E : forall v, In v all ->
             is_error v = true /\ is_warning v = false
             \/ is_error v = false /\ is_warning v = true
                /\ element v = str "Link").
  { intros v H. apply web_all_violations_inv in H as (f & c & _ & _ & H).
    apply web_audit_content_inv in H
      as (fl & p & m & _ & _ & _ & [Hs|[Hs He]] & _);
      unfold is_error, is_warning; rewrite Hs; [left|right]; auto. }
  split; [|split; [|split]].
  - clearbody all. induction all as [|v l IH]; [reflexivity|]. simpl.
    destruct (E v (or_introl eq_refl)) as [[-> ->]|(-> & -> & _)]; simpl;
      rewrite <- IH by (intros w Hw; apply E; now right); lia.
  - intros v. rewrite !filter_In. split; [|tauto]. intros H.
    destruct (E v H) as [[? ?]|(? & ? & ?)]; auto.
  - intros v [H1 H2]. apply filter_In in H1 as [Hin H1].
    apply filter_In in H2 as [_ H2].
    destruct (E v Hin) as [[? ?]|(? & ? & ?)]; congruence.
  - intros v H. apply filter_In in H as [Hin H].
    destruct (E v Hin) as [[? ?]|(? & ? & ?)]; [congruence|assumption].
Qed.

(** X8.  The loop of the web script adds the violations of a file only
    when there are some; this guard loses and reorders nothing: the
    violations collected are those of [audit_file] on each file, one
    file after the other, as in the mobile script. *)
Theorem X8_web_guard_loses_nothing
    (relpath : text -> text -> text) (read : text -> option text)
    (root_dir : text) (files : list text) :
  Web.all_violations relpath read root_dir files
  = flat_map (fun f => Web.audit_file relpath read f root_dir) files
  /\ Mobile.all_violations relpath read root_dir files
     = flat_map (fun f => Mobile.audit_file relpath read f root_dir) files.
Proof.
  split; [apply web_all_violations_flat|].
  induction files as [|f files IH]; simpl; [reflexivity|]. now rewrite IH.
Qed.

(** X9.  Every violation that [main] reports belongs to a file of the
    enumeration: a file that the walk reaches without going through an
    excluded directory, whose name passes the test, and that could be
    read; the violation names it relative to the components directory. *)
Theorem X9_violations_come_from_component_files
    (relpath : text -> text -> text) (read : text -> option text)
    (script_mtime cwd : text) (t : tree) (v : Violation) :
  (let r := Mobile.main relpath read script_mtime cwd t in
   In v (violations r) \/ In v (warnings r) ->
   exists dir filename,
     located t (Mobile.root_dir cwd) dir filename
     /\ is_component filename = true
     /\ read (Py.path_join dir filename) <> None
     /\ file v = relpath (Py.path_join dir filename) (Mobile.root_dir cwd))
  /\ (let r := Web.main relpath read script_mtime cwd t in
      In v (violations r) \/ In v (warnings r) ->
      exists dir filename,
        located t (Web.root_dir cwd) dir filename
        /\ is_component filename = true
        /\ read (Py.path_join dir filename) <> None
        /\ file v = relpath (Py.path_join dir filename) (Web.root_dir cwd)).
Proof.
  split; cbv zeta.
  - unfold Mobile.main, Mobile.results. cbn [violations warnings].
    rewrite !filter_In. intros H.
    assert (Hin : In v (Mobile.all_violations relpath read (Mobile.root_dir cwd)
                          (find_component_files t (Mobile.root_dir cwd))))
      by tauto.
    apply mobile_all_violations_inv in Hin as (f & c & Hf & Hr & Hv).
    apply find_component_files_sound in Hf as (dir & filename & L & Hc & ->).
    apply mobile_audit_content_inv in Hv as (p & m & _ & Hfile & _).
    exists dir, filename. repeat split; try assumption. congruence.
  - unfold Web.main, Web.results. cbn [violations warnings].
    rewrite !filter_In. intros H.
    assert (Hin : In v (Web.all_violations relpath read (Web.root_dir cwd)
                          (find_component_files t (Web.root_dir cwd))))
      by tauto.
    apply web_all_violations_inv in Hin as (f & c & Hf & Hr & Hv).
    apply find_component_files_sound in Hf as (dir & filename & L & Hc & ->).
    apply web_audit_content_inv in Hv as (fl & p & m & _ & Hfile & _).
    exists dir, filename. repeat split; try assumption. congruence.
Qed.

Lemma X7_witness :
  let read := fun _ : text => Some (str "<a href='/'></a><input>") in
  let r := Web.results (fun p _ => p) read (str "0") (str "src") [str "Nav.tsx"] in
  let v := MkViolation (str "Nav.tsx") 1 (str "Link")
             (str "Link missing aria-label or accessible text") (str "warning")
             (str "Add aria-label prop or ensure link has visible text or image with alt text")
             (str "<a href='/'></a>") in
  In v (warnings r) /\ element v = str "Link"
  /\ List.length (violations r) + List.length (warnings r) = 2.
Proof.
  intros read r v.
  assert (H : In v (warnings r)) by (vm_compute; left; reflexivity).
  pose proof (X7_web_results_share_out_the_violations
                (fun p _ => p) read (str "0") (str "src") [str "Nav.tsx"])
    as (Hlen & _ & _ & Hlink).
  split; [exact H|]. split; [exact (Hlink v H)|exact Hlen].
Defined.

Lemma X9_witness :
  let t := Node [(str "ui", Node [] [str "Card.tsx"])] [] in
  let read := fun _ : text => Some (str "<Image>") in
  let r := Mobile.main (fun p _ => p) read (str "0") (str "/repo") t in
  let v := MkViolation (str "/repo/apps/mobile/src/components/ui/Card.tsx") 1
             (str "Image") (str "Image missing accessibilityLabel") (str "error")
             (str "Add accessibilityLabel prop or mark as decorative with accessibilityRole="
              ++ dq "none")
             (str "<Image>") in
  In v (violations r)
  /\ exists dir filename,
       located t (Mobile.root_dir (str "/repo")) dir filename
       /\ is_component filename = true
       /\ file v = Py.path_join dir filename.
Proof.
  intros t read r v.
  assert (H : In v (violations r)) by (vm_compute; left; reflexivity).
  split; [exact H|].
  destruct (proj1 (X9_violations_come_from_component_files
                     (fun p _ => p) read (str "0") (str "/repo") t v)
              (or_introl H))
    as (dir & filename & L & Hc & _ & Hf).
  exists dir, filename. auto.
Defined.

(** ** The compliance rate *)

(** X10.  On fewer than [2^54] files the compliance rate is at most
    100.  When files were scanned it is 100 exactly when there is no
    error, and it is negative exactly when there are more errors than
    files. *)
Theorem X10_compliance_rate_bounds (results : Results) :
  (Z.of_nat (total_components results) < 2 ^ 54)%Z ->
  (Z.of_nat (List.length (violations results)) <= Py.maxsize)%Z ->
  exists rate value,
    compliance_rate results = Py.Returns rate
    /\ Py.value rate = Some value
    /\ (value <= 100)%Q
    /\ (0 < total_components results ->
        ((value == 100)%Q <-> violations results = [])
        /\ ((value < 0)%Q
            <-> total_components results < List.length (violations results))).
Proof.
  intros Ht He.
  set (t := Z.of_nat (total_components results)) in *.
  set (e := Z.of_nat (List.length (violations results))) in *.
  destruct (Z.ltb_spec 0 t) as [Hpos|Hzero].
  - assert (Ht' : (0 < t <= Py.maxsize)%Z) by (unfold Py.maxsize; lia).
    destruct (compliance_rate_value results Ht' He) as [Hr Hv].
    fold t in Hr, Hv. fold e in Hr, Hv.
    eexists. eexists. split; [exact Hr|]. split; [exact Hv|].
    destruct (length_as_Z _ (violations results)) as [He0 Hnil].
    fold e in He0, Hnil.
    set (r := Float.round_ne
                (Float.round_ne (Qabs (inject_Z (t - e) / inject_Z t)) * 100)) in *.
    assert (Rnn : (0 <= r)%Q) by apply round_ne_nonneg.
    destruct (Z.eq_dec e 0) as [E0|E0].
    + (* no error *)
      assert (Er : r = 100%Q)
        by (unfold r; rewrite E0; now apply rate_without_error).
      assert (Es : (t - e <? 0)%Z = false) by (apply Z.ltb_ge; lia).
      rewrite Es, Er. split; [discriminate|]. intros _. split.
      * split; [intros _; now apply Hnil|reflexivity].
      * split; [discriminate|]. unfold t, e in *. lia.
    + destruct (Z_le_gt_dec e t) as [Le|Gt].
      * (* some errors, no more than files *)
        assert (Rlt : (r < 100)%Q) by (apply rate_below_100; lia).
        assert (Es : (t - e <? 0)%Z = false) by (apply Z.ltb_ge; lia).
        rewrite Es. split; [lra|]. intros _. split.
        -- split; [intros C; lra|]. intros C. apply Hnil in C. lia.
        -- split; [intros C; lra|]. unfold t, e in *. lia.
      * (* more errors than files *)
        assert (Rpos : (0 < r)%Q) by (apply rate_not_zero; [exact Ht'|lia]).
        assert (Es : (t - e <? 0)%Z = true) by (apply Z.ltb_lt; lia).
        rewrite Es. split; [lra|]. intros _. split.
        -- split; [intros C; lra|]. intros C. apply Hnil in C. lia.
        -- split; [intros _|intros _; lra]. unfold t, e in *. lia.
  - exists (Py.PyInt 0), 0%Q. unfold compliance_rate. fold t.
    assert (Hz : (0 <? t)%Z = false) by (apply Z.ltb_ge; lia).
    rewrite Hz. split; [reflexivity|]. split; [reflexivity|].
    split; [discriminate|]. unfold t in *. lia.
Qed.

Lemma X10_witness :
  let results := MkResults (str "0") 2
                   [MkViolation [] 1 [] [] (str "error") [] []] [] in
  (Z.of_nat (total_components results) < 2 ^ 54)%Z
  /\ 0 < total_components results
  /\ exists rate value,
       compliance_rate results = Py.Returns rate
       /\ Py.value rate = Some value
       /\ (value <= 100)%Q /\ ~ (value == 100)%Q.
Proof.
  intros results.
  assert (Ht : (Z.of_nat (total_components results) < 2 ^ 54)%Z)
    by (vm_compute; reflexivity).
  assert (He : (Z.of_nat (List.length (violations results)) <= Py.maxsize)%Z)
    by (vm_compute; discriminate).
  assert (H : 0 < total_components results) by (simpl; lia).
  split; [exact Ht|]. split; [exact H|].
  destruct (X10_compliance_rate_bounds results Ht He)
    as (rate & value & Hr & Hv & Hle & Hiff).
  exists rate, value. split; [exact Hr|]. split; [exact Hv|].
  split; [exact Hle|].
  intros E. apply (proj1 (Hiff H)) in E. discriminate E.
Defined.

(** The bound on the files is the least one: from [2^54] files on, one
    error no longer shows, the quotient is rounded to 1 and the rate is
    exactly 100. *)
Lemma rate_100_with_an_error :
  let results :=
    MkResults (str "0") (Z.to_nat (2 ^ 54))
      [MkViolation [] 1 [] [] (str "error") [] []] [] in
  exists rate,
    compliance_rate results = Py.Returns rate /\ Py.value rate = Some 100%Q.
Proof.
  intros results.
  assert (Et : Z.of_nat (total_components results) = (2 ^ 54)%Z).
  { unfold results. cbn [total_components]. apply Z2Nat.id. lia. }
  assert (Ht : (0 < Z.of_nat (total_components results) <= Py.maxsize)%Z).
  { rewrite Et. unfold Py.maxsize. lia. }
  assert (He : (Z.of_nat (List.length (violations results)) <= Py.maxsize)%Z).
  { unfold results, Py.maxsize. cbn [violations List.length]. lia. }
  destruct (compliance_rate_value results Ht He) as [Hr Hv].
  rewrite Et in Hr, Hv.
  eexists. split; [exact Hr|]. rewrite Hv.
  unfold results. cbn [violations List.length]. vm_compute. reflexivity.
Qed.

(** ** The other rules of the mobile script *)

(** A search for a literal word finds it in whatever case. *)
Lemma found_lit_iff word s :
  Re.found Re.IGNORECASE (Re.lit word) s = true <-> has_word (str word) s.
Proof.
  unfold has_word, Re.lit. rewrite found_iff. split.
  - intros (pre & rest & s' & p' & cs' & -> & M).
    apply matches_lits_inv in M as (w & -> & _ & _ & Hw).
    apply reads_as_icase in Hw. exists pre, w, s'. auto.
  - intros (pre & w & post & -> & Hw).
    exists pre, (w ++ post), post. do 2 eexists. split; [reflexivity|].
    apply matches_lits_intro. now apply reads_as_icase.
Qed.

(** Every occurrence of [<Image], [<TextInput] and [<Button] is an
    opening tag whose name begins with that word, and group 1 is all
    that follows the word up to the closing [>]. *)
Lemma tag_pattern_occurrence name content m :
  In m (Mobile.occurrences content (Mobile.tag_pattern name)) ->
  is_tag_beginning name content m (Re.group_or_empty content 1 m).
Proof.
  intros H. apply finditer_inv in H as (pre & rest & s' & -> & Hs & M).
  unfold Mobile.tag_pattern, Re.lit, Re.lazy_star in M.
  apply matches_seq_inv in M as (s1 & p1 & cs1 & M1 & M).
  apply matches_seq_inv in M as (s2 & p2 & cs2 & M2 & M).
  apply matches_seq_inv in M as (s3 & p3 & cs3 & M3 & M4).
  apply matches_lits_inv in M1 as (lt' & -> & -> & -> & Hlt).
  apply (reads_as_single _ _ (ch "<")) in Hlt as ->; [|vm_compute; reflexivity].
  apply matches_lits_inv in M2 as (w & -> & -> & -> & Hw).
  apply matches_group_inv in M3 as (cs3' & -> & M3).
  apply matches_rep_inv in M3 as (span & -> & -> & -> & _ & Hspan).
  apply matches_lits_inv in M4 as (gt' & -> & He & Hcs & Hgt).
  apply (reads_as_single _ _ (ch ">")) in Hgt as ->; [|vm_compute; reflexivity].
  match goal with |- is_tag_beginning _ ?c _ _ =>
    assert (G : Re.group_or_empty c 1 m = span)
  end.
  { unfold Re.group_or_empty, Re.group. rewrite Hcs. cbn [Re.lookup Nat.eqb].
    apply slice_middle
      with (x := pre ++ [ch "<"] ++ w) (y := [ch ">"] ++ s').
    - now rewrite <- !app_assoc.
    - rewrite !length_app. simpl. lia.
    - reflexivity. }
  rewrite G. exists pre, w, s'. split; [reflexivity|].
  split; [exact Hs|]. split; [now apply reads_as_icase|].
  rewrite (forallb_pointwise _
             (Re.atom_match Re.IGNORECASE (Re.not_char ">")));
    [exact Hspan|].
  intros c. symmetry. apply atom_match_not_char. vm_compute. reflexivity.
Qed.

Lemma decorative_role_iff attributes :
  Re.found Re.IGNORECASE Mobile.decorative_role attributes = true
  <-> holds_attr same_letters (str "accessibilityRole") (str "none") attributes.
Proof. apply attr_value_lit_iff. Qed.

(** X11.  The image rule of the mobile script.  Every occurrence is an
    opening tag whose name begins with [Image].  An image that is marked
    decorative (its span gives [accessibilityRole] the value [none], or
    has the word [accessibilityIgnoresInvertColors]) or that names
    [accessibilityLabel] yields nothing; any other image yields exactly
    one violation, of severity error, for the element [Image]. *)
Theorem X11_image_rule (relative_path content : text) (m : Re.Match) :
  In m (Mobile.occurrences content Mobile.image_pattern) ->
  let attributes := Re.group_or_empty content 1 m in
  let decorative :=
    holds_attr same_letters (str "accessibilityRole") (str "none") attributes
    \/ has_word (str "accessibilityIgnoresInvertColors") attributes in
  let label := names_attr (str "accessibilityLabel") attributes in
  let found := Mobile.image_rule relative_path content m in
  is_tag_beginning "Image" content m attributes
  /\ (decorative \/ label -> found = [])
  /\ (~ decorative -> ~ label ->
      exists v, found = [v]
        /\ severity v = str "error"
        /\ element v = str "Image"
        /\ line v = line_of content m
        /\ mentions (str "accessibilityLabel") (issue v) = true).
Proof.
  intros H attributes decorative label found. subst decorative label found.
  split; [now apply tag_pattern_occurrence|].
  rewrite <- decorative_role_iff, <- found_lit_iff, <- has_attr_iff.
  unfold Mobile.image_rule. fold attributes.
  destruct (Re.found Re.IGNORECASE Mobile.decorative_role attributes),
           (Re.found Re.IGNORECASE (Re.lit "accessibilityIgnoresInvertColors")
              attributes),
           (has_attr "accessibilityLabel" attributes); cbn [negb andb orb];
    (split; [intros; first [reflexivity|intuition congruence]|]);
    intros; try (exfalso; intuition congruence);
    eexists; (split; [reflexivity|]);
    cbn [severity line element issue];
    repeat split; vm_compute; reflexivity.
Qed.

Lemma X11_witness :
  let content := str "<Image source={logo} accessibilityRole='none' />" in
  let m := Re.MkMatch 0 48 [(1, (6, 47))] in
  In m (Mobile.occurrences content Mobile.image_pattern)
  /\ holds_attr same_letters (str "accessibilityRole") (str "none")
       (Re.group_or_empty content 1 m)
  /\ Mobile.image_rule (str "Logo.tsx") content m = [].
Proof.
  intros content m.
  assert (H : In m (Mobile.occurrences content Mobile.image_pattern))
    by (vm_compute; left; reflexivity).
  assert (D : holds_attr same_letters (str "accessibilityRole") (str "none")
                (Re.group_or_empty content 1 m))
    by (apply decorative_role_iff; vm_compute; reflexivity).
  split; [exact H|]. split; [exact D|].
  exact (proj1 (proj2 (X11_image_rule (str "Logo.tsx") content m H))
           (or_introl (or_introl D))).
Defined.

(** X12.  The text input rule of the mobile script.  Every occurrence
    is an opening tag whose name begins with [TextInput].  A [placeholder]
    stands in for the label: the rule yields nothing when the span names
    [accessibilityLabel] or [placeholder], and exactly one violation, of
    severity error, when it names neither. *)
Theorem X12_textinput_rule (relative_path content : text) (m : Re.Match) :
  In m (Mobile.occurrences content Mobile.textinput_pattern) ->
  let attributes := Re.group_or_empty content 1 m in
  let label := names_attr (str "accessibilityLabel") attributes in
  let placeholder := names_attr (str "placeholder") attributes in
  let found := Mobile.textinput_rule relative_path content m in
  is_tag_beginning "TextInput" content m attributes
  /\ (label \/ placeholder -> found = [])
  /\ (~ label -> ~ placeholder ->
      exists v, found = [v]
        /\ severity v = str "error"
        /\ element v = str "TextInput"
        /\ line v = line_of content m).
Proof.
  intros H attributes label placeholder found. subst label placeholder found.
  split; [now apply tag_pattern_occurrence|].
  rewrite <- !has_attr_iff.
  unfold Mobile.textinput_rule. fold attributes.
  destruct (has_attr "accessibilityLabel" attributes),
           (has_attr "placeholder" attributes); cbn [negb andb];
    (split; [intros; first [reflexivity|intuition congruence]|]);
    intros; try (exfalso; intuition congruence);
    eexists; repeat split.
Qed.

Lemma X12_witness :
  let content := str "<TextInput placeholder='Name' />" in
  let m := Re.MkMatch 0 32 [(1, (10, 31))] in
  In m (Mobile.occurrences content Mobile.textinput_pattern)
  /\ names_attr (str "placeholder") (Re.group_or_empty content 1 m)
  /\ Mobile.textinput_rule (str "Form.tsx") content m = [].
Proof.
  intros content m.
  assert (H : In m (Mobile.occurrences content Mobile.textinput_pattern))
    by (vm_compute; left; reflexivity).
  assert (P : names_attr (str "placeholder") (Re.group_or_empty content 1 m))
    by (apply has_attr_iff; vm_compute; reflexivity).
  split; [exact H|]. split; [exact P|].
  exact (proj1 (proj2 (X12_textinput_rule (str "Form.tsx") content m H))
           (or_intror P)).
Defined.

(** X13.  The button rule of the mobile script.  Every occurrence is an
    opening tag whose name begins with [Button].  A [title] stands in
    for the label: the rule yields nothing when the span names
    [accessibilityLabel] or [title], and exactly one violation, of
    severity error, when it names neither. *)
Theorem X13_button_rule (relative_path content : text) (m : Re.Match) :
  In m (Mobile.occurrences content Mobile.button_pattern) ->
  let attributes := Re.group_or_empty content 1 m in
  let label := names_attr (str "accessibilityLabel") attributes in
  let title := names_attr (str "title") attributes in
  let found := Mobile.button_rule relative_path content m in
  is_tag_beginning "Button" content m attributes
  /\ (label \/ title -> found = [])
  /\ (~ label -> ~ title ->
      exists v, found = [v]
        /\ severity v = str "error"
        /\ element v = str "Button"
        /\ line v = line_of content m).
Proof.
  intros H attributes label title found. subst label title found.
  split; [now apply tag_pattern_occurrence|].
  rewrite <- !has_attr_iff.
  unfold Mobile.button_rule. fold attributes.
  destruct (has_attr "accessibilityLabel" attributes),
           (has_attr "title" attributes); cbn [negb andb];
    (split; [intros; first [reflexivity|intuition congruence]|]);
    intros; try (exfalso; intuition congruence);
    eexists; repeat split.
Qed.

Lemma X13_witness :
  let content := str "<Button title='Save' />" in
  let m := Re.MkMatch 0 23 [(1, (7, 22))] in
  In m (Mobile.occurrences content Mobile.button_pattern)
  /\ names_attr (str "title") (Re.group_or_empty content 1 m)
  /\ Mobile.button_rule (str "Form.tsx") content m = [].
Proof.
  intros content m.
  assert (H : In m (Mobile.occurrences content Mobile.button_pattern))
    by (vm_compute; left; reflexivity).
  assert (P : names_attr (str "title") (Re.group_or_empty content 1 m))
    by (apply has_attr_iff; vm_compute; reflexivity).
  split; [exact H|]. split; [exact P|].
  exact (proj1 (proj2 (X13_button_rule (str "Form.tsx") content m H))
           (or_intror P)).
Defined.

Lemma reads_as_without fl (o w : text) (c : char) :
  (c < 65)%N -> reads_as fl o w -> ~ In c w ->
  forallb (fun x => negb (N.eqb x c)) o = true.
Proof.
  intros Hc H Hw. induction H as [|x p o w Hx _ IH]; [reflexivity|].
  simpl. rewrite IH by (intros Hin; apply Hw; now right).
  rewrite andb_true_r. apply negb_true_iff, N.eqb_neq. intros ->.
  apply Hw. left.
  unfold Re.char_eqb in Hx. destruct (Re.icase fl).
  - apply N.eqb_eq in Hx.
    destruct (fold_cases c) as [Ec|(Hc' & Hf & _)],
             (fold_cases p) as [Ep|(_ & Hg & _)];
      lia.
  - apply N.eqb_eq in Hx. congruence.
Qed.

Lemma view_occurrence content m :
  In m (Mobile.occurrences content Mobile.view_with_press_pattern) ->
  is_view_with_press content m (Re.group_or_empty content 1 m).
Proof.
  intros H. apply finditer_inv in H as (pre & rest & s' & -> & Hs & M).
  unfold Mobile.view_with_press_pattern, Re.lit, Re.lazy_star, Re.star in M.
  apply matches_seq_inv in M as (s1 & p1 & cs1 & M1 & M).
  apply matches_seq_inv in M as (s2 & p2 & cs2 & M2 & M3).
  apply matches_lits_inv in M1 as (w & -> & -> & -> & Hw).
  apply matches_group_inv in M2 as (cs2' & -> & M2).
  apply matches_seq_inv in M2 as (s3 & p3 & cs3 & Ma & M2).
  apply matches_seq_inv in M2 as (s4 & p4 & cs4 & Mo & Mb).
  apply matches_rep_inv in Ma as (a & -> & -> & -> & _ & Ha).
  apply matches_lits_inv in Mo as (o & -> & -> & -> & Ho).
  apply matches_rep_inv in Mb as (b & -> & -> & -> & _ & Hb).
  apply matches_lits_inv in M3 as (gt' & -> & He & Hcs & Hgt).
  apply (reads_as_single _ _ (ch ">")) in Hgt as ->; [|vm_compute; reflexivity].
  match goal with |- is_view_with_press ?c _ _ =>
    assert (G : Re.group_or_empty c 1 m = a ++ o ++ b)
  end.
  { unfold Re.group_or_empty, Re.group. rewrite Hcs. cbn [Re.lookup Nat.eqb].
    apply slice_middle with (x := pre ++ w) (y := [ch ">"] ++ s').
    - now rewrite <- !app_assoc.
    - rewrite !length_app. lia.
    - rewrite !length_app. lia. }
  rewrite G. exists pre, w, s'. split; [now rewrite <- !app_assoc|].
  split; [exact Hs|]. split; [now apply reads_as_icase|]. split.
  - exists a, o, b. split; [reflexivity|now apply reads_as_icase].
  - assert (N : forall x, negb (N.eqb x (ch ">"))
                          = Re.atom_match Re.IGNORECASE (Re.not_char ">") x)
      by (intros x; symmetry; apply atom_match_not_char; vm_compute;
          reflexivity).
    rewrite !forallb_app. repeat (apply andb_true_intro; split).
    + rewrite (forallb_pointwise _ _ a N). exact Ha.
    + apply (reads_as_without Re.IGNORECASE o (str "onPress") (ch ">"));
        [vm_compute; reflexivity|exact Ho|].
      vm_compute. intuition discriminate.
    + rewrite (forallb_pointwise _ _ b N). exact Hb.
Qed.

(** X14.  The rule on views with a press handler.  Every occurrence is
    an opening tag whose name begins with [View] and whose span has the
    word [onPress].  The role comes first: without [accessibilityRole]
    the rule yields exactly one error about the role, whether or not the
    label is there; with the role and without [accessibilityLabel] it
    yields exactly one error about the label; with both it yields
    nothing. *)
Theorem X14_view_rule (relative_path content : text) (m : Re.Match) :
  In m (Mobile.occurrences content Mobile.view_with_press_pattern) ->
  let attributes := Re.group_or_empty content 1 m in
  let role := names_attr (str "accessibilityRole") attributes in
  let label := names_attr (str "accessibilityLabel") attributes in
  let found := Mobile.view_rule relative_path content m in
  is_view_with_press content m attributes
  /\ (~ role ->
      exists v, found = [v]
        /\ severity v = str "error"
        /\ element v = str "View"
        /\ line v = line_of content m
        /\ issue v = str "View with onPress missing accessibilityRole")
  /\ (role -> ~ label ->
      exists v, found = [v]
        /\ severity v = str "error"
        /\ element v = str "View"
        /\ line v = line_of content m
        /\ issue v = str "View with onPress missing accessibilityLabel")
  /\ (role -> label -> found = []).
Proof.
  intros H attributes role label found. subst role label found.
  split; [now apply view_occurrence|].
  rewrite <- !has_attr_iff.
  unfold Mobile.view_rule. fold attributes.
  destruct (has_attr "accessibilityRole" attributes),
           (has_attr "accessibilityLabel" attributes); cbn [negb];
    (split; [|split]); intros; try congruence;
    eexists; repeat split.
Qed.

Lemma X14_witness :
  let content := str "<View onPress={go} accessibilityLabel='Go'>" in
  let m := Re.MkMatch 0 43 [(1, (5, 42))] in
  In m (Mobile.occurrences content Mobile.view_with_press_pattern)
  /\ ~ names_attr (str "accessibilityRole") (Re.group_or_empty content 1 m)
  /\ exists v, Mobile.view_rule (str "Row.tsx") content m = [v]
       /\ issue v = str "View with onPress missing accessibilityRole".
Proof.
  intros content m.
  assert (H : In m (Mobile.occurrences content Mobile.view_with_press_pattern))
    by (vm_compute; left; reflexivity).
  assert (R : ~ names_attr (str "accessibilityRole") (Re.group_or_empty content 1 m))
    by (rewrite <- has_attr_iff; vm_compute; discriminate).
  split; [exact H|]. split; [exact R|].
  destruct (proj1 (proj2 (X14_view_rule (str "Row.tsx") content m H)) R)
    as (v & Hv & _ & _ & _ & Hi).
  exists v. auto.
Defined.

(** ** The occurrences and the violations of a file *)

Lemma begins_with_head fl c r s p cs s' p' cs' :
  (c < 65)%N -> begins_with c r = true ->
  matches fl r s p cs s' p' cs' -> exists w, s = c :: w ++ s'.
Proof.
  intros Hc Hb M.
  destruct r as [| |[| |[|[q| | |]| | | |] r12| | |] r2| | |];
    try discriminate Hb.
  simpl in Hb. apply N.eqb_eq in Hb as ->.
  apply matches_seq_inv in M as (s1 & p1 & cs1 & M & M2).
  apply matches_seq_inv in M as (s2 & p2 & cs2 & M & M1).
  apply matches_atom_inv in M as (x & -> & _ & _ & Hx).
  cbn [Re.atom_match] in Hx. rewrite char_eqb_uncased in Hx by assumption.
  apply N.eqb_eq in Hx as ->.
  apply matches_prefix in M1 as (w1 & -> & _).
  apply matches_prefix in M2 as (w2 & -> & _).
  exists (w1 ++ w2). now rewrite <- app_assoc.
Qed.

Lemma no_occurrence_without fl c r content :
  (c < 65)%N -> begins_with c r = true -> ~ In c content ->
  Re.finditer fl r content = [].
Proof.
  intros Hc Hb Hn. destruct (Re.finditer fl r content) as [|m l] eqn:E;
    [reflexivity|]. exfalso. apply Hn.
  assert (Hin : In m (Re.finditer fl r content)) by (rewrite E; now left).
  apply finditer_inv in Hin as (pre & rest & s' & -> & _ & M).
  apply (begins_with_head fl c r) in M as [w ->]; try assumption.
  apply in_or_app. right. now left.
Qed.

(** X15.  A text without the character [<] has no occurrence of any
    pattern and gets no violation, in either script. *)
Theorem X15_no_tag_no_violation (relative_path content : text) :
  ~ In (ch "<") content ->
  Mobile.audit_content relative_path content = []
  /\ Web.audit_content relative_path content = [].
Proof.
  intros H.
  assert (N : forall fl r, begins_with (ch "<") r = true ->
                           Re.finditer fl r content = [])
    by (intros fl r Hb; apply (no_occurrence_without fl (ch "<"));
        [vm_compute; reflexivity|exact Hb|exact H]).
  unfold Mobile.audit_content, Web.audit_content, Mobile.loop, Web.loop,
    Mobile.occurrences, Web.occurrences.
  rewrite !N by reflexivity. split; reflexivity.
Qed.

Lemma X15_witness :
  ~ In (ch "<") (str "export const spacing = 8;")
  /\ Mobile.audit_content (str "theme.tsx") (str "export const spacing = 8;") = [].
Proof.
  assert (H : ~ In (ch "<") (str "export const spacing = 8;"))
    by (vm_compute; intuition discriminate).
  split; [exact H|].
  exact (proj1 (X15_no_tag_no_violation (str "theme.tsx")
                  (str "export const spacing = 8;") H)).
Defined.

Lemma finditer_from_within fl r s pos skip :
  Forall (fun m => pos + skip <= Re.m_start m /\ Re.m_start m <= Re.m_end m
                   /\ Re.m_end m <= pos + List.length s)
    (Re.finditer_from fl r s pos skip).
Proof.
  apply Forall_forall. intros m H.
  apply finditer_from_inv in H as (pre & rest & -> & Hl & H).
  apply match_here_bounds in H. rewrite length_app. lia.
Qed.

Lemma finditer_from_disjoint fl r s pos skip :
  one_after_another (Re.finditer_from fl r s pos skip).
Proof.
  unfold one_after_another.
  revert pos skip. induction s as [|c s IH]; intros pos skip; simpl.
  - destruct skip; [|constructor].
    destruct (Re.match_here fl r [] pos); repeat constructor.
  - destruct skip as [|k]; [|apply IH].
    destruct (Re.match_here fl r (c :: s) pos) as [m|] eqn:E; [|apply IH].
    constructor; [apply IH|].
    apply match_here_bounds in E.
    pose proof (finditer_from_within fl r s (S pos) (Re.m_end m - pos - 1)) as F.
    eapply Forall_impl; [|exact F]. cbv beta. intros m' Hm'. lia.
Qed.

(** X16.  The occurrences of a pattern in a file follow one another in
    the text and do not overlap: each one ends where the next one starts
    or before, and all of them lie within the content.  This holds for
    every pattern, with the flags of either script. *)
Theorem X16_occurrences_do_not_overlap (content : text) (fl : Re.flags)
        (p : Re.regex) :
  one_after_another (Re.finditer fl p content)
  /\ one_after_another (Mobile.occurrences content p)
  /\ one_after_another (Web.occurrences content fl p)
  /\ Forall (fun m => Re.m_start m <= Re.m_end m
                      /\ Re.m_end m <= List.length content)
       (Re.finditer fl p content).
Proof.
  repeat split; try apply finditer_from_disjoint.
  eapply Forall_impl; [|apply finditer_from_within]. cbv beta.
  intros m Hm. lia.
Qed.

Lemma flat_map_at_most_one {A B : Type} (f : A -> list B) (l : list A) :
  (forall x, List.length (f x) <= 1) ->
  List.length (flat_map f l) <= List.length l.
Proof.
  intros H. induction l as [|x l IH]; simpl; [lia|].
  rewrite length_app. specialize (H x). lia.
Qed.

Ltac at_most_one :=
  repeat match goal with
  | |- context [if ?b then _ else _] => destruct b
  | |- context [match ?l with [] => _ | _ :: _ => _ end] => destruct l
  end; simpl; lia.

Lemma mobile_rules_at_most_one rel content m :
  List.length (Mobile.touchable_rule rel content m) <= 1
  /\ List.length (Mobile.image_rule rel content m) <= 1
  /\ List.length (Mobile.textinput_rule rel content m) <= 1
  /\ List.length (Mobile.button_rule rel content m) <= 1
  /\ List.length (Mobile.view_rule rel content m) <= 1.
Proof.
  unfold Mobile.touchable_rule, Mobile.image_rule, Mobile.textinput_rule,
    Mobile.button_rule, Mobile.view_rule.
  repeat split; at_most_one.
Qed.

Lemma web_rules_at_most_one rel content m :
  List.length (Web.icon_button_rule rel content m) <= 1
  /\ List.length (Web.input_rule rel content m) <= 1
  /\ List.length (Web.modal_rule rel content m) <= 1
  /\ List.length (Web.link_rule rel content m) <= 1.
Proof.
  unfold Web.icon_button_rule, Web.input_rule, Web.modal_rule, Web.link_rule.
  repeat split; at_most_one.
Qed.

(** X17.  A rule yields at most one violation for an occurrence, so the
    violations of a file are never more than the occurrences of the
    patterns in it. *)
Theorem X17_violations_bounded_by_occurrences (relative_path content : text) :
  List.length (Mobile.audit_content relative_path content)
  <= List.length (Mobile.occurrences content Mobile.touchable_pattern)
     + List.length (Mobile.occurrences content Mobile.image_pattern)
     + List.length (Mobile.occurrences content Mobile.textinput_pattern)
     + List.length (Mobile.occurrences content Mobile.button_pattern)
     + List.length (Mobile.occurrences content Mobile.view_with_press_pattern)
  /\ List.length (Web.audit_content relative_path content)
     <= List.length (Web.occurrences content Re.IGNORECASE Web.icon_button_pattern)
        + List.length (Web.occurrences content Re.IGNORECASE Web.input_pattern)
        + List.length (Web.occurrences content Re.IGNORECASE Web.modal_pattern)
        + List.length (Web.occurrences content Re.IGNORECASE_DOTALL Web.link_pattern).
Proof.
  unfold Mobile.audit_content, Web.audit_content, Mobile.loop, Web.loop.
  rewrite !length_app. split.
  - pose proof (fun m => mobile_rules_at_most_one relative_path content m) as R.
    repeat match goal with
    | |- context [List.length (flat_map ?f ?l)] =>
        let H := fresh in
        assert (H : List.length (flat_map f l) <= List.length l)
          by (apply flat_map_at_most_one; intros m; apply (R m));
        revert H; generalize (List.length (flat_map f l))
    end.
    intros. lia.
  - pose proof (fun m => web_rules_at_most_one relative_path content m) as R.
    repeat match goal with
    | |- context [List.length (flat_map ?f ?l)] =>
        let H := fresh in
        assert (H : List.length (flat_map f l) <= List.length l)
          by (apply flat_map_at_most_one; intros m; apply (R m));
        revert H; generalize (List.length (flat_map f l))
    end.
    intros. lia.
Qed.

(** ** The icon button rule of the web script *)

Lemma names_attr_in name x y :
  names_attr name x -> occurs_in x y -> names_attr name y.
Proof.
  intros (pre & n & ws & post & -> & Hn & Hws) (a & b & ->).
  exists (a ++ pre), n, ws, (post ++ b). split; [|auto].
  rewrite <- !app_assoc. cbn [app]. rewrite <- ?app_assoc. reflexivity.
Qed.

Lemma join_occurs sep (x : text) l : In x l -> occurs_in x (Py.join sep l).
Proof.
  induction l as [|y l IH]; [intros []|]. intros [->|H].
  - destruct l as [|z l]; simpl.
    + exists [], []. now rewrite app_nil_r.
    + exists [], (sep ++ Py.join sep (z :: l)). reflexivity.
  - destruct l as [|z l]; [destruct H|].
    destruct (IH H) as (a & b & E).
    change (Py.join sep (y :: z :: l)) with (y ++ sep ++ Py.join sep (z :: l)).
    rewrite E. exists (y ++ sep ++ a), b. now rewrite <- !app_assoc.
Qed.

Lemma in_slice {A : Type} (l : list A) (a b k : nat) (x : A) :
  a <= k < b -> nth_error l k = Some x -> In x (Py.slice l a b).
Proof.
  intros Hk Hx. unfold Py.slice.
  apply (nth_error_In _ (k - a)).
  rewrite nth_error_firstn.
  destruct (Nat.ltb_spec (k - a) (b - a)); [|lia].
  rewrite nth_error_skipn. now replace (a + (k - a)) with k by lia.
Qed.

(** The text of an occurrence is what the pattern matched. *)
Lemma group0_is_matched fl r content m :
  In m (Re.finditer fl r content) ->
  exists pre post,
    content = pre ++ Re.group0 content m ++ post
    /\ Re.m_start m = List.length pre
    /\ matches fl r (Re.group0 content m ++ post) (List.length pre) []
         post (Re.m_end m) (Re.m_caps m).
Proof.
  intros H. apply finditer_inv in H as (pre & rest & s' & -> & Hs & M).
  pose proof (matches_prefix _ _ _ _ _ _ _ _ M) as (w & -> & He).
  assert (G : Re.group0 (pre ++ w ++ s') m = w).
  { unfold Re.group0. apply slice_middle with (x := pre) (y := s'); auto.
    lia. }
  rewrite G. exists pre, s'. auto.
Qed.

(** X18.  The icon button rule.  The matched text begins with [<].  The
    rule yields nothing when the matched text names [aria-label], and
    nothing either when some line from the line of the match to the
    fifth line after it names [aria-label], wherever on the line and for
    whatever element; otherwise it yields exactly one violation, of
    severity error. *)
Theorem X18_icon_button_rule (relative_path content : text) (m : Re.Match) :
  In m (Web.occurrences content Re.IGNORECASE Web.icon_button_pattern) ->
  let matched := Re.group0 content m in
  let line_num := line_of content m in
  let lines := Web.lines content in
  let nearby :=
    Py.join [newline]
      (Py.slice lines (line_num - 1)
         (Nat.min (List.length lines) (line_num + 5))) in
  let found := Web.icon_button_rule relative_path content m in
  (exists rest, matched = ch "<" :: rest)
  /\ (names_attr (str "aria-label") matched -> found = [])
  /\ (forall k l,
        line_num - 1 <= k < line_num + 5 ->
        nth_error lines k = Some l ->
        names_attr (str "aria-label") l -> found = [])
  /\ (~ names_attr (str "aria-label") matched ->
      ~ names_attr (str "aria-label") nearby ->
      exists v, found = [v]
        /\ severity v = str "error"
        /\ element v = str "IconButton/Button"
        /\ line v = line_num).
Proof.
  intros H matched line_num lines nearby found.
  assert (Hrule : found
            = if negb (has_attr "aria-label" matched)
              then if negb (has_attr "aria-label" nearby)
                   then [MkViolation relative_path line_num (str "IconButton/Button")
                           (str "Icon button missing aria-label")
                           (str "error")
                           (str "Add aria-label prop with descriptive text (e.g., "
                            ++ dq "Close dialog" ++ str ", " ++ dq "Send message"
                            ++ str ")")
                           (firstn 100 matched)]
                   else []
              else []) by reflexivity.
  pose proof (has_attr_iff "aria-label" matched) as E1.
  pose proof (has_attr_iff "aria-label" nearby) as E2.
  split; [|split; [|split]].
  - apply group0_is_matched in H as (pre & post & _ & _ & M).
    fold matched in M.
    apply (begins_with_head Re.IGNORECASE (ch "<")) in M as [w E];
      [|vm_compute; reflexivity|reflexivity].
    exists w. apply (app_inv_tail post). rewrite E.
    cbn [app]. now rewrite <- ?app_assoc.
  - intros L. apply E1 in L. rewrite Hrule, L. reflexivity.
  - intros k l Hk Hl L. rewrite Hrule.
    destruct (has_attr "aria-label" matched); [reflexivity|]. cbn [negb].
    assert (N : names_attr (str "aria-label") nearby).
    { apply (names_attr_in _ l); [exact L|]. apply join_occurs.
      apply (in_slice _ _ _ k); [|exact Hl].
      assert (k < List.length lines) by (apply nth_error_Some; congruence).
      lia. }
    apply E2 in N. rewrite N. reflexivity.
  - intros N1 N2. rewrite Hrule.
    destruct (has_attr "aria-label" matched); [exfalso; tauto|].
    destruct (has_attr "aria-label" nearby); [exfalso; tauto|].
    eexists. repeat split.
Qed.

Lemma X18_witness :
  let content := str "<Button size='icon'>" ++ [newline] ++ str "<X />"
                 ++ [newline] ++ str "</Button>" ++ [newline]
                 ++ str "<span aria-label='Close'>" in
  let m := Re.MkMatch 0 20 [(1, (1, 7))] in
  In m (Web.occurrences content Re.IGNORECASE Web.icon_button_pattern)
  /\ nth_error (Web.lines content) 3 = Some (str "<span aria-label='Close'>")
  /\ names_attr (str "aria-label") (str "<span aria-label='Close'>")
  /\ Web.icon_button_rule (str "Dialog.tsx") content m = [].
Proof.
  intros content m.
  assert (H : In m (Web.occurrences content Re.IGNORECASE Web.icon_button_pattern))
    by (vm_compute; left; reflexivity).
  assert (L : nth_error (Web.lines content) 3 = Some (str "<span aria-label='Close'>"))
    by (vm_compute; reflexivity).
  assert (N : names_attr (str "aria-label") (str "<span aria-label='Close'>"))
    by (apply has_attr_iff; vm_compute; reflexivity).
  split; [exact H|]. split; [exact L|]. split; [exact N|].
  refine (proj1 (proj2 (proj2
            (X18_icon_button_rule (str "Dialog.tsx") content m H)))
            3 (str "<span aria-label='Close'>") _ L N).
  vm_compute. lia.
Defined.

(** ** The attribute tests *)

(** X19.  The test for an attribute, [name\s*=] under [re.IGNORECASE]:
    it succeeds exactly when the text has the name, in whatever case,
    then optional white space and an equals sign.  It does not look at
    what stands before the name, so that it also succeeds on every text
    that contains such a text, and it gives the same answer on two texts
    that differ only in the case of their letters. *)
Theorem X19_attribute_test (name : string) (s : text) :
  (has_attr name s = true <-> names_attr (str name) s)
  /\ (forall s', occurs_in s s' -> has_attr name s = true ->
                 has_attr name s' = true)
  /\ (forall s', same_letters s s' -> has_attr name s = has_attr name s').
Proof.
  split; [apply has_attr_iff|]. split.
  - intros s' Hs H. apply has_attr_iff. apply has_attr_iff in H.
    now apply (names_attr_in _ s).
  - intros s' H. now apply has_attr_same_letters.
Qed.

Lemma X19_witness :
  occurs_in (str "title='Save'") (str "<Card subtitle='Save'>")
  /\ has_attr "title" (str "<Card subtitle='Save'>") = true.
Proof.
  assert (O : occurs_in (str "title='Save'") (str "<Card subtitle='Save'>"))
    by (exists (str "<Card sub"), (str ">"); vm_compute; reflexivity).
  split; [exact O|].
  refine (proj1 (proj2 (X19_attribute_test "title" (str "title='Save'"))) _ O _).
  vm_compute. reflexivity.
Defined.

(** X20.  The identifier that the web script reads in an attribute
    span.  When it finds one, the span gives [id] that value between two
    quote characters; the value is not empty and has no quote character
    in it.  Without such an [id] the cross-reference to a label is never
    found. *)
Theorem X20_input_id (content attributes : text) :
  (forall id, Web.input_id attributes = Some id ->
     holds_attr same_letters (str "id") id attributes
     /\ id <> [] /\ forallb (fun c => negb (is_quote c)) id = true)
  /\ (Web.input_id attributes = None ->
      Web.label_by_id content attributes = false).
Proof.
  split.
  - intros id. apply input_id_sound.
  - intros H. unfold Web.label_by_id. now rewrite H.
Qed.

Lemma X20_witness :
  Web.input_id (str " type='text' id='email' ") = Some (str "email")
  /\ holds_attr same_letters (str "id") (str "email")
       (str " type='text' id='email' ").
Proof.
  assert (H : Web.input_id (str " type='text' id='email' ") = Some (str "email"))
    by (vm_compute; reflexivity).
  split; [exact H|].
  exact (proj1 (proj1 (X20_input_id [] (str " type='text' id='email' ")) _ H)).
Defined.

(** ** The content of a link *)

Lemma run_seq fl R r1 r2 s p cs (k : Re.cont R) :
  Re.run fl (Re.Seq r1 r2) s p cs k
  = Re.run fl r1 s p cs (fun s' p' cs' => Re.run fl r2 s' p' cs' k).
Proof. reflexivity. Qed.

Lemma run_group_lazy fl R n a s p cs (k : Re.cont R) :
  Re.run fl (Re.Group n (Re.lazy_star a)) s p cs k
  = Re.lazy fl a (fun s' p' => k s' p' ((n, (p, p')) :: cs)) s p.
Proof. reflexivity. Qed.

(** A lazy repetition stops at the first place where what follows
    succeeds. *)
Lemma lazy_first fl R a (k : text -> nat -> option R) s p x :
  Re.lazy fl a k s p = Some x ->
  exists w s', s = w ++ s'
    /\ k s' (p + List.length w) = Some x
    /\ forall w1 w2, w = w1 ++ w2 -> w2 <> [] ->
         k (w2 ++ s') (p + List.length w1) = None.
Proof.
  revert p. induction s as [|c s IH]; intros p H; simpl in H.
  - destruct (k [] p) eqn:K; [|discriminate]. injection H as ->.
    exists [], []. rewrite Nat.add_0_r. split; [reflexivity|].
    split; [exact K|]. intros w1 w2 E Hne.
    destruct w1, w2; try discriminate. congruence.
  - destruct (k (c :: s) p) eqn:K.
    + injection H as ->. exists [], (c :: s). rewrite Nat.add_0_r.
      split; [reflexivity|]. split; [exact K|]. intros w1 w2 E Hne.
      destruct w1, w2; try discriminate. congruence.
    + destruct (Re.atom_match fl a c); [|discriminate].
      apply IH in H as (w & s' & -> & Hk & Hmin).
      exists (c :: w), s'. split; [reflexivity|]. split.
      * rewrite <- Hk. f_equal. simpl. lia.
      * intros w1 w2 E Hne. destruct w1 as [|c1 w1].
        -- simpl in E. subst w2. rewrite Nat.add_0_r. exact K.
        -- simpl in E. injection E as <- E.
           rewrite <- (Hmin w1 w2 E Hne). f_equal. simpl. lia.
Qed.

Lemma reads_as_same_letters fl u v :
  Re.icase fl = true -> (reads_as fl u v <-> same_letters u v).
Proof.
  intros Hi. rewrite <- reads_as_icase. unfold reads_as, Re.char_eqb.
  rewrite Hi. reflexivity.
Qed.

(** X21.  The content of a link, group 3 of the link pattern, stops at
    the first closing tag: it is followed by [</a>] or [</Link>] (in
    whatever case), where the match ends, and it contains neither of
    them. *)
Theorem X21_link_content_stops_at_first_close (content : text) (m : Re.Match) :
  In m (Web.occurrences content Re.IGNORECASE_DOTALL Web.link_pattern) ->
  let children := Re.group_or_empty content 3 m in
  (exists before close post,
      content = before ++ children ++ close ++ post
      /\ (same_letters close (str "</a>") \/ same_letters close (str "</Link>"))
      /\ Re.m_end m = List.length before + List.length children
                      + List.length close)
  /\ ~ has_word (str "</a>") children
  /\ ~ has_word (str "</Link>") children.
Proof.
  intros H children.
  apply finditer_from_inv in H as (pre & rest & -> & _ & H).
  unfold Re.match_here, Web.link_pattern in H. simpl Nat.add in H.
  set (fl := Re.IGNORECASE_DOTALL) in *.
  set (close_tag := Re.Alt (Re.lit "</a>") (Re.lit "</Link>")) in *.
  rewrite run_seq in H. apply run_inv in H as (s1 & p1 & cs1 & M1 & H).
  rewrite run_seq in H. apply run_inv in H as (s2 & p2 & cs2 & M2 & H).
  rewrite run_seq in H. apply run_inv in H as (s3 & p3 & cs3 & M3 & H).
  rewrite run_seq in H. apply run_inv in H as (s4 & p4 & cs4 & M4 & H).
  rewrite run_seq, run_group_lazy in H.
  apply lazy_first in H as (w & s5 & -> & H & Hmin).
  apply run_inv in H as (s6 & p6 & cs6 & M6 & H). injection H as <-.
  assert (Hclose : forall s p cs s' p' cs',
             matches fl close_tag s p cs s' p' cs' ->
             exists c, s = c ++ s' /\ p' = p + List.length c /\ cs' = cs
               /\ (same_letters c (str "</a>") \/ same_letters c (str "</Link>"))).
  { intros s p cs s' p' cs' M. apply matches_alt_inv in M as [M|M];
      apply matches_lits_inv in M as (c & -> & -> & -> & Hc);
      apply reads_as_same_letters in Hc; try reflexivity;
      exists c; auto. }
  apply Hclose in M6 as (close & -> & -> & -> & Hc).
  apply matches_prefix in M1 as (w1 & -> & ->).
  apply matches_prefix in M2 as (w2 & -> & ->).
  apply matches_prefix in M3 as (w3 & -> & ->).
  apply matches_prefix in M4 as (w4 & -> & ->).
  assert (G : children = w).
  { unfold children, Re.group_or_empty, Re.group.
    cbn [Re.m_caps Re.lookup Nat.eqb].
    apply slice_middle
      with (x := pre ++ w1 ++ w2 ++ w3 ++ w4) (y := close ++ s6).
    - now rewrite <- !app_assoc.
    - rewrite !length_app. lia.
    - reflexivity. }
  rewrite G. split; [|].
  - exists (pre ++ w1 ++ w2 ++ w3 ++ w4), close, s6.
    split; [now rewrite <- !app_assoc|]. split; [exact Hc|].
    cbn [Re.m_end]. rewrite !length_app. lia.
  - assert (Hno : forall word, 
               (word = "</a>" \/ word = "</Link>") ->
               ~ has_word (str word) w).
    { intros word Hword (a & c & b & E & Hw).
      assert (Hne : c ++ b <> []).
      { apply same_letters_length in Hw. destruct c; [|discriminate].
        destruct Hword as [-> | ->]; discriminate Hw. }
      pose proof (Hmin a (c ++ b) E Hne) as K. cbv beta in K.
      assert (M : matches fl close_tag ((c ++ b) ++ close ++ s6)
                    (List.length pre + List.length w1 + List.length w2
                     + List.length w3 + List.length w4 + List.length a)
                    ((3, (List.length pre + List.length w1 + List.length w2
                          + List.length w3 + List.length w4,
                          List.length pre + List.length w1 + List.length w2
                          + List.length w3 + List.length w4 + List.length a))
                       :: cs4)
                    (b ++ close ++ s6)
                    (List.length pre + List.length w1 + List.length w2
                     + List.length w3 + List.length w4 + List.length a
                     + List.length c)
                    ((3, (List.length pre + List.length w1 + List.length w2
                          + List.length w3 + List.length w4,
                          List.length pre + List.length w1 + List.length w2
                          + List.length w3 + List.length w4 + List.length a))
                       :: cs4)).
      { rewrite <- app_assoc.
        destruct Hword as [-> | ->]; [apply MAltL|apply MAltR];
          apply matches_lits_intro, reads_as_same_letters;
          try reflexivity; exact Hw. }
      match type of K with
      | Re.run _ _ _ _ _ ?k = None =>
          destruct (run_intro _ _ _ _ _ _ _ _ _ M k _ eq_refl) as [y Hy]
      end.
      rewrite K in Hy. discriminate Hy. }
    split; apply Hno; auto.
Qed.

Lemma X21_witness :
  let content := str "<a>b</a> tail </a>" in
  let m := Re.MkMatch 0 8 [(3, (3, 4)); (2, (2, 2)); (1, (1, 2))] in
  In m (Web.occurrences content Re.IGNORECASE_DOTALL Web.link_pattern)
  /\ ~ has_word (str "</a>") (Re.group_or_empty content 3 m).
Proof.
  intros content m.
  assert (H : In m (Web.occurrences content Re.IGNORECASE_DOTALL
                      Web.link_pattern))
    by (vm_compute; left; reflexivity).
  split; [exact H|].
  exact (proj1 (proj2 (X21_link_content_stops_at_first_close content m H))).
Defined.
